(** * Task planning engine: dependency ordering, status gate, coverage gaps

    A shallow embedding of the planning core of the repository
    (tasks/task_sorter.py, tasks/test_plan_generator.py,
    tasks/task_dependencies.py, tasks/task_status.py,
    planner-main/tasks/dependency_resolution.py and
    planner-main/coverage/coverage_analyzer.py) together with the
    properties of that code. Around this core the file also embeds the
    [dependencies] column of the row class (database/models.py),
    [delete_task] (database/data_access_layer.py), the assignment policy
    (planner-main/policies/policy_models.py) and [assign_task]
    (tasks/task_assignment.py).

    Python values are modelled as follows.
    - [str] is [string]; a character is a code point below 256.
    - [int] is [Z].
    - A [dict] whose iteration order matters is an association list with
      unique keys in insertion order ([PyDict]); a [defaultdict(list)] that
      is only looked up by key is a [gmap]; a [set] of ids is a [gset].
    - A raised exception is the [Raises] outcome; the only loop of the code
      that is not bounded by a list it walks (the drain of the ready queue)
      takes a fuel argument, and running out of it is the [Diverges]
      outcome, which is shown never to occur. *)

From stdpp Require Import ssreflect gmap strings list fin_maps.
From Stdlib Require Import ZArith Ascii.

Local Open Scope string_scope.
Local Open Scope Z_scope.
Local Open Scope list_scope.

(** ** Data model (tasks/test_task_model.py) *)

Module TestType.
Inductive t := UNIT | INTEGRATION | E2E | EXPLORATORY | PERFORMANCE | SECURITY.

(** The string value of each member of the enumeration. *)
Definition value (x : t) : string :=
  match x with
  | UNIT => "unit"
  | INTEGRATION => "integration"
  | E2E => "e2e"
  | EXPLORATORY => "exploratory"
  | PERFORMANCE => "performance"
  | SECURITY => "security"
  end.

#[global] Instance test_type_eq_dec : EqDecision t.
Proof. solve_decision. Defined.

(** [list(TestType)]: the members in the order of their definition. *)
Definition members : list t :=
  [UNIT; INTEGRATION; E2E; EXPLORATORY; PERFORMANCE; SECURITY].

(** The members can be put into a set. *)
Definition index (x : t) : nat :=
  match x with
  | UNIT => 0 | INTEGRATION => 1 | E2E => 2
  | EXPLORATORY => 3 | PERFORMANCE => 4 | SECURITY => 5
  end%nat.

#[global] Instance test_type_countable : Countable t.
Proof.
  apply (inj_countable' index (λ n, default UNIT (members !! n))).
  by intros [].
Defined.
End TestType.

Module TaskStatus.
Inductive t := PENDING | IN_PROGRESS | BLOCKED | DONE.

Definition value (x : t) : string :=
  match x with
  | PENDING => "pending"
  | IN_PROGRESS => "in_progress"
  | BLOCKED => "blocked"
  | DONE => "done"
  end.

(** [TaskStatus(s)] for a string [s]: the member with that value, or
    [ValueError] (here [None]). *)
Definition of_string (s : string) : option t :=
  if String.eqb s "pending" then Some PENDING
  else if String.eqb s "in_progress" then Some IN_PROGRESS
  else if String.eqb s "blocked" then Some BLOCKED
  else if String.eqb s "done" then Some DONE
  else None.

#[global] Instance task_status_eq_dec : EqDecision t.
Proof. solve_decision. Defined.
End TaskStatus.

Module CoverageStatus.
Inductive t := NOT_STARTED | IN_PROGRESS | COMPLETE | MISSING.

#[global] Instance coverage_status_eq_dec : EqDecision t.
Proof. solve_decision. Defined.
End CoverageStatus.

(** What the [coverage_status] attribute of a task can hold: the dataclass
    does not validate it, so besides a member of [CoverageStatus] it can be
    a plain string (the tests pass "Not Covered") or any other object. *)
Inductive coverage_value :=
| CovEnum (c : CoverageStatus.t)
| CovStr (s : string)
| CovOther.

Module TestTask.
Record t := mk {
  id : string;
  description : string;
  test_type : TestType.t;
  dependencies : list string;
  status : TaskStatus.t;
  owner : option string;
  coverage_status : coverage_value
}.
End TestTask.

(** The ids of a list of tasks, [[t.id for t in tasks]]. *)
Definition ids (tasks : list TestTask.t) : list string :=
  TestTask.id <$> tasks.

(** ** Outcomes of a call *)

(** The exceptions of the modelled code: [KeyError]; the [ValueError] of the
    sorter and the plan generator, with the ids that were left over; and the
    [ValueError] of [TaskStatus(s)] for a string that is no status. *)
Inductive exn :=
| KeyError (k : string)
| ValueError (missing : gset string)
| InvalidStatus (s : string).

Inductive outcome (A : Type) :=
| Returns (a : A)
| Raises (e : exn)
| Diverges.
Arguments Returns {A} a.
Arguments Raises {A} e.
Arguments Diverges {A}.

#[global] Instance outcome_bind : MBind outcome := λ A B k m,
  match m with
  | Returns a => k a
  | Raises e => Raises e
  | Diverges => Diverges
  end.

(** A [for] loop whose body can raise. *)
Fixpoint for_each {A S : Type} (body : S → A → outcome S) (l : list A) (s : S)
  : outcome S :=
  match l with
  | [] => Returns s
  | x :: r => s' ← body s x; for_each body r s'
  end.

(** ** Python dictionaries in insertion order *)

Module PyDict.
Section Dict.
Context {V : Type}.

Definition t := list (string * V).

Definition keys (d : t) : list string := fst <$> d.
Definition values (d : t) : list V := snd <$> d.

(** [d.get(k)] *)
Fixpoint get (d : t) (k : string) : option V :=
  match d with
  | [] => None
  | (k', v) :: r => if String.eqb k' k then Some v else get r k
  end.

(** [k in d] *)
Definition contains (d : t) (k : string) : bool :=
  match get d k with Some _ => true | None => false end.

(** [d[k]], which raises [KeyError] on a missing key. *)
Definition getitem (d : t) (k : string) : outcome V :=
  match get d k with
  | Some v => Returns v
  | None => Raises (KeyError k)
  end.

(** [d[k] = v]: an existing key keeps its position, a new key goes last. *)
Fixpoint set (d : t) (k : string) (v : V) : t :=
  match d with
  | [] => [(k, v)]
  | (k', v') :: r =>
      if String.eqb k' k then (k', v) :: r else (k', v') :: set r k v
  end.
End Dict.
Arguments t : clear implicits.
End PyDict.

(** ** Building the dependency graph

    The first half of [TaskSorter.sort] and of
    [TestPlanGenerator.generate_plan] is the same code. *)

(** [{t.id: t for t in tasks}] *)
Definition tasks_by_id_of (tasks : list TestTask.t) : PyDict.t TestTask.t :=
  fold_left (fun d t => PyDict.set d (TestTask.id t) t) tasks [].

(** [{tid: 0 for tid in tasks_by_id}] *)
Definition indegree_init (tasks_by_id : PyDict.t TestTask.t) : PyDict.t Z :=
  (fun tid => (tid, 0)) <$> PyDict.keys tasks_by_id.

(** The body of the inner loop over [task.dependencies]: a dependency that
    is not a key of [tasks_by_id] is skipped; otherwise the task is appended
    to [graph[dep_id]] and its in-degree goes up by one. *)
Definition add_edge (tasks_by_id : PyDict.t TestTask.t) (task : TestTask.t)
    (st : gmap string (list string) * PyDict.t Z) (dep_id : string)
  : outcome (gmap string (list string) * PyDict.t Z) :=
  let '(graph, indegree) := st in
  if negb (PyDict.contains tasks_by_id dep_id) then Returns (graph, indegree)
  else
    let graph' := <[dep_id := graph !!! dep_id ++ [TestTask.id task]]> graph in
    deg ← PyDict.getitem indegree (TestTask.id task);
    Returns (graph', PyDict.set indegree (TestTask.id task) (deg + 1)).

(** The two nested loops over [tasks_by_id.values()] and the dependencies. *)
Definition build_graph (tasks_by_id : PyDict.t TestTask.t)
  : outcome (gmap string (list string) * PyDict.t Z) :=
  for_each
    (fun st task =>
       for_each (add_edge tasks_by_id task) (TestTask.dependencies task) st)
    (PyDict.values tasks_by_id)
    (∅, indegree_init tasks_by_id).

(** The body of the loop over [graph.get(current.id, [])]: the neighbour's
    in-degree goes down by one and, when it reaches zero, the neighbour is
    appended to the ready queue. *)
Definition release (tasks_by_id : PyDict.t TestTask.t)
    (st : PyDict.t Z * list TestTask.t) (neighbor_id : string)
  : outcome (PyDict.t Z * list TestTask.t) :=
  let '(indegree, ready) := st in
  deg ← PyDict.getitem indegree neighbor_id;
  let indegree' := PyDict.set indegree neighbor_id (deg - 1) in
  if deg - 1 =? 0 then
    task ← PyDict.getitem tasks_by_id neighbor_id;
    Returns (indegree', ready ++ [task])
  else Returns (indegree', ready).

(** The final check: a plan shorter than the task set is an error that
    carries the ids that were not emitted. *)
Definition check_complete (tasks_by_id : PyDict.t TestTask.t)
    (ordered : list TestTask.t) : outcome (list TestTask.t) :=
  if decide (length ordered ≠ length tasks_by_id) then
    Raises (ValueError
      (list_to_set (PyDict.keys tasks_by_id) ∖ list_to_set (ids ordered)))
  else Returns ordered.

(** ** TaskSorter.sort (tasks/task_sorter.py) *)

Module TaskSorter.

(** The [while ready:] loop. *)
Fixpoint drain (fuel : nat) (tasks_by_id : PyDict.t TestTask.t)
    (graph : gmap string (list string)) (indegree : PyDict.t Z)
    (ready ordered : list TestTask.t) : outcome (list TestTask.t) :=
  match ready with
  | [] => Returns ordered
  | current :: ready =>
      match fuel with
      | O => Diverges
      | S fuel =>
          let ordered := ordered ++ [current] in
          ' (indegree, ready) ←
            for_each (release tasks_by_id)
              (graph !!! TestTask.id current) (indegree, ready);
          drain fuel tasks_by_id graph indegree ready ordered
      end
  end.

(** The list [ordered] when the loop is left. The loop gets one unit of
    fuel for each task, which is what it needs at most, since a task enters
    the queue once ([sort_outcomes]). *)
Definition emitted (tasks : list TestTask.t) : outcome (list TestTask.t) :=
  let tasks_by_id := tasks_by_id_of tasks in
  ' (graph, indegree) ← build_graph tasks_by_id;
  ready ←
    for_each
      (fun acc '(tid, deg) =>
         if deg =? 0 then
           task ← PyDict.getitem tasks_by_id tid; Returns (acc ++ [task])
         else Returns acc)
      indegree [];
  drain (length tasks_by_id) tasks_by_id graph indegree ready [].

Definition sort (tasks : list TestTask.t) : outcome (list TestTask.t) :=
  ordered ← emitted tasks;
  check_complete (tasks_by_id_of tasks) ordered.

End TaskSorter.

(** ** Strings and sorting as Python has them *)

Module PyStr.

(** [c.isspace()] for a code point below 256: tab to carriage return,
    the four separators 28 to 31, space, NEL (133) and no-break space (160). *)
Definition isspace (c : ascii) : bool :=
  let n := nat_of_ascii c in
  ((9 <=? n) && (n <=? 13) || (28 <=? n) && (n <=? 32)
   || (n =? 133) || (n =? 160))%nat.

(** [c.lower()] for a code point below 256: the letters A to Z and the
    upper-case letters of Latin-1 (192 to 222 without the sign 215). *)
Definition lower_char (c : ascii) : ascii :=
  let n := nat_of_ascii c in
  if ((65 <=? n) && (n <=? 90)
      || (192 <=? n) && (n <=? 222) && negb (n =? 215))%nat
  then ascii_of_nat (n + 32) else c.

Fixpoint lower (s : string) : string :=
  match s with
  | EmptyString => EmptyString
  | String c r => String (lower_char c) (lower r)
  end.

Fixpoint lstrip (s : string) : string :=
  match s with
  | EmptyString => EmptyString
  | String c r => if isspace c then lstrip r else s
  end.

(** Removes the white space at the end: a character is dropped when it is
    white space and everything after it has been dropped. *)
Fixpoint rstrip (s : string) : string :=
  match s with
  | EmptyString => EmptyString
  | String c r =>
      match rstrip r with
      | EmptyString => if isspace c then EmptyString else String c EmptyString
      | r' => String c r'
      end
  end.

(** [s.strip()] *)
Definition strip (s : string) : string := rstrip (lstrip s).

(** [s.replace(old, new)] for one-character [old] and [new]. *)
Fixpoint replace (old new : ascii) (s : string) : string :=
  match s with
  | EmptyString => EmptyString
  | String c r =>
      String (if Ascii.eqb c old then new else c) (replace old new r)
  end.

(** [s.split(sep)] for a one-character [sep]: the pieces between the
    occurrences of [sep]; there is always at least one piece, and the empty
    string has the one piece that is empty. *)
Fixpoint split (sep : ascii) (s : string) : list string :=
  match s with
  | EmptyString => [EmptyString]
  | String c r =>
      if Ascii.eqb c sep then EmptyString :: split sep r
      else
        match split sep r with
        | piece :: pieces => String c piece :: pieces
        | [] => [String c EmptyString]
        end
  end.

(** [sep.join(l)] *)
Fixpoint join (sep : string) (l : list string) : string :=
  match l with
  | [] => EmptyString
  | [x] => x
  | x :: r => String.append x (String.append sep (join sep r))
  end.

End PyStr.

(** [sorted(l, key=key, reverse=True)]: the stable sort into descending
    order of the keys. Python's sort is stable and [reverse=True] keeps the
    original order of elements with equal keys, so the result is the one
    list that is a permutation of [l], descending in [key], with equal keys
    in their order in [l]; insertion from the right computes it. *)
Section Sorted.
Context {A : Type} (key : A → Z).

Fixpoint insert_desc (x : A) (l : list A) : list A :=
  match l with
  | [] => [x]
  | y :: r => if key x <? key y then y :: insert_desc x r else x :: y :: r
  end.

Definition sorted_desc (l : list A) : list A := foldr insert_desc [] l.
End Sorted.

(** ** Priority policy (planner-main/policies/policy_models.py) *)

Module PriorityPolicy.
Record t := mk {
  priorities : gmap string Z;
  default_priority : Z
}.

Definition get_priority_for_test_type (p : t) (test_type : TestType.t) : Z :=
  let test_type_name := PyStr.lower (TestType.value test_type) in
  default (default_priority p) (priorities p !! test_type_name).

(** The policy the loader falls back to when no policy file exists
    (policies/policy_loader.py). *)
Definition fallback : t :=
  mk (list_to_map
        [("e2e", 5); ("integration", 4); ("security", 4);
         ("performance", 3); ("exploratory", 2); ("unit", 1)])
     0.
End PriorityPolicy.

(** ** TestPlanGenerator.generate_plan (tasks/test_plan_generator.py) *)

Module TestPlanGenerator.

Definition _priority (policy : PriorityPolicy.t) (task : TestTask.t) : Z :=
  PriorityPolicy.get_priority_for_test_type policy (TestTask.test_type task).

(** The [while ready:] loop; the queue is sorted again after each task,
    unless it is empty. *)
Fixpoint drain (policy : PriorityPolicy.t) (fuel : nat)
    (tasks_by_id : PyDict.t TestTask.t)
    (graph : gmap string (list string)) (indegree : PyDict.t Z)
    (ready plan : list TestTask.t) : outcome (list TestTask.t) :=
  match ready with
  | [] => Returns plan
  | current :: ready =>
      match fuel with
      | O => Diverges
      | S fuel =>
          let plan := plan ++ [current] in
          ' (indegree, ready) ←
            for_each (release tasks_by_id)
              (graph !!! TestTask.id current) (indegree, ready);
          let ready :=
            match ready with
            | [] => ready
            | _ => sorted_desc (_priority policy) ready
            end in
          drain policy fuel tasks_by_id graph indegree ready plan
      end
  end.

(** The list [plan] when the loop is left; the fuel is as in
    [TaskSorter.emitted]. *)
Definition emitted (policy : PriorityPolicy.t) (tasks : list TestTask.t)
  : outcome (list TestTask.t) :=
  let tasks_by_id := tasks_by_id_of tasks in
  ' (graph, indegree) ← build_graph tasks_by_id;
  zero ←
    for_each
      (fun acc '(task_id, task) =>
         deg ← PyDict.getitem indegree task_id;
         if deg =? 0 then Returns (acc ++ [task]) else Returns acc)
      tasks_by_id [];
  let ready := sorted_desc (_priority policy) zero in
  drain policy (length tasks_by_id) tasks_by_id graph indegree ready [].

Definition generate_plan (policy : PriorityPolicy.t) (tasks : list TestTask.t)
  : outcome (list TestTask.t) :=
  plan ← emitted policy tasks;
  check_complete (tasks_by_id_of tasks) plan.

End TestPlanGenerator.

(** ** The task store (database/data_access_layer.py)

    A row of the task table carries the attributes of a task; its
    [dependencies] are the list that the property of the model returns.
    The session is the table as the running transaction sees it, keyed by
    the primary key. *)

Module TestTaskDAL.
Definition get_task (session : gmap string TestTask.t) (task_id : string)
  : option TestTask.t :=
  session !! task_id.

(** [delete_task]: the row goes, and the result is the number of rows that
    went. The coverage rows and comments of the task, which are not
    modelled, go with it ([ondelete="CASCADE"]). *)
Definition delete_task (session : gmap string TestTask.t) (task_id : string)
  : Z * gmap string TestTask.t :=
  (match session !! task_id with Some _ => 1 | None => 0 end,
   delete task_id session).
End TestTaskDAL.

(** The [dependencies] property of the row class (database/models.py): the
    list is kept in the text column [dependencies_raw], separated by commas;
    [None] is the column being NULL. *)
Module TestTaskModel.

(** The getter. *)
Definition dependencies (dependencies_raw : option string) : list string :=
  match dependencies_raw with
  | None | Some EmptyString => []
  | Some raw =>
      PyStr.strip
        <$> filter (λ d, PyStr.strip d ≠ EmptyString) (PyStr.split "," raw)
  end.

(** The setter: the new value of the column. *)
Definition dependencies_setter (deps : list string) : option string :=
  match deps with
  | [] => None
  | _ =>
      Some (PyStr.join ","
              (PyStr.strip <$> filter (λ d, PyStr.strip d ≠ EmptyString) deps))
  end.

End TestTaskModel.

(** [task.dependencies = deps] on a row: the column is written by the
    setter, and the row shows what the getter reads back from it. *)
Definition assign_dependencies (task : TestTask.t) (deps : list string)
  : TestTask.t :=
  TestTask.mk (TestTask.id task) (TestTask.description task)
    (TestTask.test_type task)
    (TestTaskModel.dependencies (TestTaskModel.dependencies_setter deps))
    (TestTask.status task) (TestTask.owner task)
    (TestTask.coverage_status task).

(** [task.status = s] *)
Definition set_status (task : TestTask.t) (s : TaskStatus.t) : TestTask.t :=
  TestTask.mk (TestTask.id task) (TestTask.description task)
    (TestTask.test_type task) (TestTask.dependencies task) s
    (TestTask.owner task) (TestTask.coverage_status task).

(** The arguments of [notify_task_status_changed]. *)
Record status_change := mk_status_change {
  change_task_id : string;
  change_description : string;
  change_old_status : TaskStatus.t;
  change_new_status : TaskStatus.t;
  change_task_owner : option string;
  change_changed_by : option string
}.

(** What the gate and the status manager act on: the session, the number
    of [session.commit()] calls, the status changes for which the
    notification code was run, and the number of warnings printed for
    notifications that failed. *)
Record world := mk_world {
  session : gmap string TestTask.t;
  commits : nat;
  notified : list status_change;
  warnings : nat
}.

(** A [new_status] argument: a member of the enumeration or a string. *)
Inductive status_arg :=
| StatusEnum (s : TaskStatus.t)
| StatusStr (s : string).

(** The argument as a string: a member of the enumeration is its value. *)
Definition status_arg_str (a : status_arg) : string :=
  match a with
  | StatusEnum s => TaskStatus.value s
  | StatusStr s => s
  end.

(** [TaskStatus(new_status) if isinstance(new_status, str) else new_status]:
    every argument is a [str], and a member of the enumeration is returned
    as it is; [None] stands for the [ValueError] of a string that is not the
    value of a member. *)
Definition coerce_status (a : status_arg) : option TaskStatus.t :=
  match a with
  | StatusEnum s => Some s
  | StatusStr s => TaskStatus.of_string s
  end.

(** ** TaskStatusManager.update_status (tasks/task_status.py)

    The notification service is outside the modelled code: [notifier] tells,
    from the notifications sent so far and the one at hand, whether the call
    goes through ([true]) or raises ([false]). *)

Module TaskStatusManager.
Section WithNotifier.
Variable notifier : list status_change → status_change → bool.

Definition update_status (w : world) (task_id : string)
    (new_status : status_arg) (changed_by : option string)
  : outcome bool * world :=
  match TestTaskDAL.get_task (session w) task_id with
  | None => (Returns false, w)
  | Some task =>
      let old_status := TestTask.status task in
      match coerce_status new_status with
      | None => (Raises (InvalidStatus (status_arg_str new_status)), w)
      | Some status =>
          let task := set_status task status in
          let w := mk_world (<[task_id := task]> (session w)) (S (commits w))
                     (notified w) (warnings w) in
          if decide (old_status ≠ TestTask.status task) then
            let change :=
              mk_status_change task_id (TestTask.description task) old_status
                (TestTask.status task) (TestTask.owner task) changed_by in
            let sent := notified w ++ [change] in
            if notifier (notified w) change then
              (Returns true,
               mk_world (session w) (commits w) sent (warnings w))
            else
              (Returns true,
               mk_world (session w) (commits w) sent (S (warnings w)))
          else (Returns true, w)
      end
  end.
End WithNotifier.
End TaskStatusManager.

(** ** TaskDependencies (tasks/task_dependencies.py) *)

Module TaskDependencies.

Definition set_dependencies (w : world) (task_id : string)
    (dependencies : list string) : bool * world :=
  match TestTaskDAL.get_task (session w) task_id with
  | None => (false, w)
  | Some task =>
      let task := assign_dependencies task dependencies in
      (true,
       mk_world (<[task_id := task]> (session w)) (S (commits w))
         (notified w) (warnings w))
  end.

(** [None] is the result for a task that is not in the store. *)
Definition get_dependencies (w : world) (task_id : string)
  : option (list string) :=
  match TestTaskDAL.get_task (session w) task_id with
  | None => None
  | Some task => Some (TestTask.dependencies task)
  end.

(** The loop over the dependencies, which leaves with [False] at the first
    dependency that is not in the store or not done. *)
Fixpoint all_done (session : gmap string TestTask.t) (deps : list string)
  : bool :=
  match deps with
  | [] => true
  | dep_id :: deps =>
      match TestTaskDAL.get_task session dep_id with
      | None => false
      | Some dep =>
          if decide (TestTask.status dep ≠ TaskStatus.DONE) then false
          else all_done session deps
      end
  end.

(** [None] is the result for a task that is not in the store. *)
Definition dependencies_complete (w : world) (task_id : string)
  : option bool :=
  match TestTaskDAL.get_task (session w) task_id with
  | None => None
  | Some task =>
      let deps := TestTask.dependencies task in
      match deps with
      | [] => Some true
      | _ => Some (all_done (session w) deps)
      end
  end.

Definition mark_in_progress_if_ready (w : world) (task_id : string)
  : bool * world :=
  match TestTaskDAL.get_task (session w) task_id with
  | None => (false, w)
  | Some task =>
      match dependencies_complete w task_id with
      | Some true =>
          let task := set_status task TaskStatus.IN_PROGRESS in
          (true,
           mk_world (<[task_id := task]> (session w)) (S (commits w))
             (notified w) (warnings w))
      | _ => (false, w)
      end
  end.

Definition complete_task (w : world) (task_id : string) : bool * world :=
  match TestTaskDAL.get_task (session w) task_id with
  | None => (false, w)
  | Some task =>
      match dependencies_complete w task_id with
      | Some true =>
          let task := set_status task TaskStatus.DONE in
          (true,
           mk_world (<[task_id := task]> (session w)) (S (commits w))
             (notified w) (warnings w))
      | _ => (false, w)
      end
  end.

End TaskDependencies.

(** ** DependencyResolver (planner-main/tasks/dependency_resolution.py) *)

Module DependencyResolver.
Section WithNotifier.
Variable notifier : list status_change → status_change → bool.

(** [bool(ready)]: a task that is not in the store cannot start. *)
Definition can_start (w : world) (task_id : string) : bool :=
  match TaskDependencies.dependencies_complete w task_id with
  | Some ready => ready
  | None => false
  end.

Definition start_if_ready (w : world) (task_id : string)
  : outcome bool * world :=
  if negb (can_start w task_id) then (Returns false, w)
  else TaskStatusManager.update_status notifier w task_id
         (StatusEnum TaskStatus.IN_PROGRESS) None.

Definition complete_if_ready (w : world) (task_id : string)
  : outcome bool * world :=
  if negb (can_start w task_id) then (Returns false, w)
  else TaskStatusManager.update_status notifier w task_id
         (StatusEnum TaskStatus.DONE) None.
End WithNotifier.
End DependencyResolver.

(** ** TaskAssigner (tasks/task_assignment.py) *)

Module AssignmentPolicy.
Record t := mk {
  role_map : gmap string string;
  default_role : option string
}.

(** [role_map.get(test_type_name, default_role)] *)
Definition get_role_for_test_type (p : t) (test_type : TestType.t)
  : option string :=
  let test_type_name := PyStr.lower (TestType.value test_type) in
  match role_map p !! test_type_name with
  | Some role => Some role
  | None => default_role p
  end.
End AssignmentPolicy.

(** [task.owner = o] *)
Definition set_owner (task : TestTask.t) (o : option string) : TestTask.t :=
  TestTask.mk (TestTask.id task) (TestTask.description task)
    (TestTask.test_type task) (TestTask.dependencies task)
    (TestTask.status task) o (TestTask.coverage_status task).

(** The arguments of [notify_task_assigned]. *)
Record assignment := mk_assignment {
  assignment_user : string;
  assignment_task_id : string;
  assignment_description : string;
  assignment_assigned_by : option string
}.

Module TaskAssigner.

(** The two ways an assigner is set up: with a role map of its own, or
    with the assignment policy. *)
Inductive t :=
| WithRoleMap (role_map : gmap TestType.t string)
| WithPolicy (policy : AssignmentPolicy.t).

Section WithNotifier.
(** As for the status changes, the notification service is an oracle,
    over the assignments for which it was called so far. *)
Variable notifier : list assignment → assignment → bool.

(** The state is the store together with the assignments for which the
    notification code was run. *)
Definition assign_task (self : t) (st : world * list assignment)
    (task_id : string) : option string * (world * list assignment) :=
  let '(w, sent) := st in
  match TestTaskDAL.get_task (session w) task_id with
  | None => (None, st)
  | Some task =>
      let assignee :=
        match self with
        | WithPolicy policy =>
            AssignmentPolicy.get_role_for_test_type policy
              (TestTask.test_type task)
        | WithRoleMap role_map => role_map !! TestTask.test_type task
        end in
      match assignee with
      | None => (None, st)
      | Some assignee =>
          if decide (TestTask.owner task ≠ Some assignee) then
            let task := set_owner task (Some assignee) in
            let w := mk_world (<[task_id := task]> (session w))
                       (S (commits w)) (notified w) (warnings w) in
            let note :=
              mk_assignment assignee (TestTask.id task)
                (TestTask.description task) None in
            if notifier sent note then (Some assignee, (w, sent ++ [note]))
            else
              (Some assignee,
               (mk_world (session w) (commits w) (notified w)
                  (S (warnings w)),
                sent ++ [note]))
          else (Some assignee, st)
      end
  end.
End WithNotifier.
End TaskAssigner.

(** ** CoverageAnalyzer (planner-main/coverage/coverage_analyzer.py) *)

Module CoverageAnalyzer.

(** The dictionary [TEST_TYPE_PRIORITY]. *)
Definition TEST_TYPE_PRIORITY : list (TestType.t * Z) :=
  [(TestType.E2E, 5); (TestType.INTEGRATION, 4); (TestType.SECURITY, 4);
   (TestType.PERFORMANCE, 3); (TestType.EXPLORATORY, 2); (TestType.UNIT, 1)].

(** [TEST_TYPE_PRIORITY.get(test_type)] *)
Fixpoint lookup_priority (d : list (TestType.t * Z)) (test_type : TestType.t)
  : option Z :=
  match d with
  | [] => None
  | (k, v) :: d => if decide (k = test_type) then Some v
                   else lookup_priority d test_type
  end.

Definition _is_missing (task : TestTask.t) : bool :=
  match TestTask.coverage_status task with
  | CovEnum status => bool_decide (status = CoverageStatus.MISSING)
  | CovStr status =>
      let normalized :=
        PyStr.replace " " "_" (PyStr.lower (PyStr.strip status)) in
      bool_decide (normalized ∈ ["missing"; "not_covered"; "notcovered"])
  | CovOther => false
  end.

Definition find_missing_coverage (tasks : list TestTask.t)
  : list TestTask.t :=
  filter (λ t, _is_missing t = true) tasks.

(** The local function [priority] of [prioritize_tests]. *)
Definition priority (task : TestTask.t) : Z :=
  default 0 (lookup_priority TEST_TYPE_PRIORITY (TestTask.test_type task)).

Definition prioritize_tests (tasks : list TestTask.t) : list TestTask.t :=
  let missing := find_missing_coverage tasks in
  sorted_desc priority missing.

(** [find_missing_test_types]. The result is sorted from a set, and the
    order in which Python walks a set is not fixed by the code: [walk] is
    that order, a list of the elements of the set. *)
Definition find_missing_test_types
    (walk : gset TestType.t → list TestType.t)
    (tasks : list TestTask.t) (expected_types : option (list TestType.t))
  : list TestType.t :=
  let present_types : gset TestType.t :=
    list_to_set (TestTask.test_type <$> tasks) in
  let expected_set : gset TestType.t :=
    match expected_types with
    | Some expected_types => list_to_set expected_types
    | None => list_to_set TestType.members
    end in
  let missing_types := expected_set ∖ present_types in
  sorted_desc (λ t, default 0 (lookup_priority TEST_TYPE_PRIORITY t))
    (walk missing_types).

End CoverageAnalyzer.

(** * Vocabulary of the properties *)

(** Every task is stored under its own id and no key occurs twice, as in a
    dictionary built by [tasks_by_id_of]. *)
Definition well_keyed (D : PyDict.t TestTask.t) : Prop :=
  NoDup (PyDict.keys D) ∧ ∀ k t, (k, t) ∈ D → TestTask.id t = k.

(** How often [d] occurs in a list of ids. *)
Definition occurrences (d : string) (l : list string) : nat :=
  length (filter (λ x, x = d) l).

(** The dependencies of a task that are keys of [D] (with repetitions). *)
Definition in_set_deps (D : PyDict.t TestTask.t) (t : TestTask.t)
  : list string :=
  filter (λ d, d ∈ PyDict.keys D) (TestTask.dependencies t).

(** The in-set dependencies of a task that are not in [emitted] yet. *)
Definition waiting (D : PyDict.t TestTask.t) (emitted : list string)
    (t : TestTask.t) : nat :=
  length (filter (λ d, d ∉ emitted) (in_set_deps D t)).

(** What [graph[d]] holds once the graph is built: each task, in the order
    of the dictionary, once for each time it names [d] as a dependency. *)
Definition dependents (D : PyDict.t TestTask.t) (d : string) : list string :=
  concat ((λ t, replicate (occurrences d (in_set_deps D t)) (TestTask.id t))
            <$> PyDict.values D).

(** Both [while ready:] loops are this loop, up to what is done to the
    queue after the dependents of the emitted task were released: nothing in
    [TaskSorter.sort], a stable sort by priority in [generate_plan]. *)
Fixpoint kahn (requeue : list TestTask.t → list TestTask.t) (fuel : nat)
    (D : PyDict.t TestTask.t) (graph : gmap string (list string))
    (indegree : PyDict.t Z) (ready ordered : list TestTask.t)
  : outcome (list TestTask.t) :=
  match ready with
  | [] => Returns ordered
  | current :: ready =>
      match fuel with
      | O => Diverges
      | S fuel =>
          ' (indegree, ready) ←
            for_each (release D) (graph !!! TestTask.id current)
              (indegree, ready);
          kahn requeue fuel D graph indegree (requeue ready)
            (ordered ++ [current])
      end
  end.

(** What [generate_plan] does to the queue after each task. *)
Definition requeue_by_priority (policy : PriorityPolicy.t)
    (ready : list TestTask.t) : list TestTask.t :=
  match ready with
  | [] => ready
  | _ => sorted_desc (TestPlanGenerator._priority policy) ready
  end.

(** The tasks that become ready when [current] is emitted after [emitted]:
    those that name it as a dependency and wait for nothing else, in the
    order of the dictionary. *)
Definition released (D : PyDict.t TestTask.t) (emitted : list string)
    (current : TestTask.t) : list TestTask.t :=
  filter
    (λ t, (0 < occurrences (TestTask.id current) (in_set_deps D t))%nat
          ∧ waiting D (emitted ++ [TestTask.id current]) t = 0%nat)
    (PyDict.values D).

(** The loop without its in-degree bookkeeping. *)
Fixpoint schedule (requeue : list TestTask.t → list TestTask.t) (fuel : nat)
    (D : PyDict.t TestTask.t) (ready ordered : list TestTask.t)
  : option (list TestTask.t) :=
  match ready with
  | [] => Some ordered
  | current :: ready =>
      match fuel with
      | O => None
      | S fuel =>
          schedule requeue fuel D
            (requeue (ready ++ released D (ids ordered) current))
            (ordered ++ [current])
      end
  end.

(** The in-degrees count what each task still waits for. *)
Definition counts_ok (D : PyDict.t TestTask.t) (indegree : PyDict.t Z)
    (ordered : list TestTask.t) : Prop :=
  PyDict.keys indegree = PyDict.keys D
  ∧ ∀ t, t ∈ PyDict.values D →
      PyDict.get indegree (TestTask.id t)
      = Some (Z.of_nat (waiting D (ids ordered) t)).

(** The emitted tasks and the queue together are the tasks that wait for
    nothing, each once. *)
Record queue_ok (D : PyDict.t TestTask.t) (ready ordered : list TestTask.t)
  : Prop := {
  queue_nodup : NoDup (ids (ordered ++ ready));
  queue_tasks : ∀ t, t ∈ ordered ++ ready → t ∈ PyDict.values D;
  queue_zero : ∀ t, t ∈ PyDict.values D →
    (t ∈ ordered ++ ready ↔ waiting D (ids ordered) t = 0%nat)
}.

(** A property of every emission: of the task and what was emitted before. *)
Definition each_emission (P : list TestTask.t → TestTask.t → Prop)
    (out : list TestTask.t) : Prop :=
  ∀ pre t post, out = pre ++ t :: post → P pre t.

(** The tasks that wait for nothing at the start, in dictionary order. *)
Definition roots (D : PyDict.t TestTask.t) : list TestTask.t :=
  filter (λ t, waiting D [] t = 0%nat) (PyDict.values D).

(** [a] occurs in [l] at some position before an occurrence of [b]. *)
Fixpoint before {A : Type} (l : list A) (a b : A) : Prop :=
  match l with
  | [] => False
  | x :: r => (x = a ∧ b ∈ r) ∨ before r a b
  end.

(** Descending in the keys: no element has a smaller key than a later one. *)
Definition descending {A : Type} (key : A → Z) (l : list A) : Prop :=
  ∀ a b, before l a b → key b ≤ key a.

(** Nothing that [t] depends on inside the set is missing from [emitted]. *)
Definition eligible (D : PyDict.t TestTask.t) (emitted : list TestTask.t)
    (t : TestTask.t) : Prop :=
  waiting D (ids emitted) t = 0%nat.

(** How a tie between [a] and [b] is settled after [ordered] was emitted:
    [a] was eligible whenever [b] was, and if they became eligible together
    [a] comes first in the dictionary. *)
Definition tie_order (D : PyDict.t TestTask.t) (ordered : list TestTask.t)
    (a b : TestTask.t) : Prop :=
  (∀ p, p `prefix_of` ordered → eligible D p b → eligible D p a)
  ∧ ((∀ p, p `prefix_of` ordered → eligible D p a → eligible D p b) →
     before (PyDict.values D) a b).

(** The ready queue of [generate_plan] is descending in priority, with
    ties in [tie_order]. *)
Definition queue_sorted (D : PyDict.t TestTask.t) (policy : PriorityPolicy.t)
    (ready ordered : list TestTask.t) : Prop :=
  descending (TestPlanGenerator._priority policy) ready
  ∧ ∀ a b, before ready a b →
      TestPlanGenerator._priority policy a
      = TestPlanGenerator._priority policy b →
      tie_order D ordered a b.

(** What holds of the task [cur] that [generate_plan] emits after
    [ordered]: it is eligible, no eligible task that is left has a higher
    priority, and it wins its ties by [tie_order]. *)
Definition emission_ok (D : PyDict.t TestTask.t) (policy : PriorityPolicy.t)
    (ordered : list TestTask.t) (cur : TestTask.t) : Prop :=
  eligible D ordered cur
  ∧ (∀ b, b ∈ PyDict.values D → b ∉ ordered → eligible D ordered b →
       TestPlanGenerator._priority policy b
       ≤ TestPlanGenerator._priority policy cur)
  ∧ (∀ b, b ∈ PyDict.values D → b ∉ ordered → b ≠ cur →
       eligible D ordered b →
       TestPlanGenerator._priority policy b
       = TestPlanGenerator._priority policy cur →
       tie_order D ordered cur b).

(** [d] is a dependency of the task with id [t], and a task of the set. *)
Definition dep_edge (tasks : list TestTask.t) (d t : string) : Prop :=
  ∃ task, task ∈ tasks ∧ TestTask.id task = t
          ∧ d ∈ TestTask.dependencies task ∧ d ∈ ids tasks.

(** No task depends on itself through a chain of in-set dependencies. *)
Definition acyclic (tasks : list TestTask.t) : Prop :=
  ∀ k, ¬ tc (dep_edge tasks) k k.

(** Consecutive ids of the list are linked by the relation. *)
Fixpoint chain (R : relation string) (l : list string) : Prop :=
  match l with
  | x :: (y :: _) as r => R x y ∧ chain R r
  | _ => True
  end.

(** Every in-set dependency of a task of [out] is at a smaller index. *)
Definition dependencies_first (tasks out : list TestTask.t) : Prop :=
  ∀ i t d, out !! i = Some t →
    d ∈ TestTask.dependencies t → d ∈ ids tasks →
    ∃ j u, (j < i)%nat ∧ out !! j = Some u ∧ TestTask.id u = d.

(** All in-set dependencies of [t] are among the tasks [pre]. *)
Definition ready_after (tasks pre : list TestTask.t) (t : TestTask.t) : Prop :=
  ∀ d, d ∈ TestTask.dependencies t → d ∈ ids tasks → d ∈ ids pre.

(** The call fails with the ids that the loop did not emit. *)
Definition raises_unemitted (tasks : list TestTask.t)
    (emitted result : outcome (list TestTask.t)) : Prop :=
  ∃ ordered missing,
    emitted = Returns ordered
    ∧ result = Raises (ValueError missing)
    ∧ ∀ k, k ∈ missing ↔ k ∈ ids tasks ∧ k ∉ ids ordered.

(** Every dependency of the task is a task of the store that is done. *)
Definition deps_done (s : gmap string TestTask.t) (task : TestTask.t) : Prop :=
  ∀ d, d ∈ TestTask.dependencies task →
    ∃ dep, s !! d = Some dep ∧ TestTask.status dep = TaskStatus.DONE.

(** Every dependency of the task that is a task of the store is done. *)
Definition present_deps_done (s : gmap string TestTask.t) (task : TestTask.t)
  : Prop :=
  ∀ d dep, d ∈ TestTask.dependencies task → s !! d = Some dep →
    TestTask.status dep = TaskStatus.DONE.

(** The common shape of [mark_in_progress_if_ready] and [complete_task]. *)
Definition write_if_ready (target : TaskStatus.t) (w : world)
    (task_id : string) : bool * world :=
  match TestTaskDAL.get_task (session w) task_id with
  | None => (false, w)
  | Some task =>
      match TaskDependencies.dependencies_complete w task_id with
      | Some true =>
          (true,
           mk_world (<[task_id := set_status task target]> (session w))
             (S (commits w)) (notified w) (warnings w))
      | _ => (false, w)
      end
  end.

(** The operations of the engine that write a status. *)
Inductive operation :=
| StartIfReady (task_id : string)
| CompleteIfReady (task_id : string)
| MarkInProgressIfReady (task_id : string)
| CompleteTask (task_id : string)
| UpdateStatus (task_id : string) (new_status : TaskStatus.t).

(** The operations that go through the dependency gate. *)
Definition gated (op : operation) : Prop :=
  match op with
  | UpdateStatus _ _ => False
  | _ => True
  end.

(** The store after an operation. *)
Definition apply_operation (notifier : list status_change → status_change → bool)
    (op : operation) (w : world) : world :=
  match op with
  | StartIfReady task_id =>
      (DependencyResolver.start_if_ready notifier w task_id).2
  | CompleteIfReady task_id =>
      (DependencyResolver.complete_if_ready notifier w task_id).2
  | MarkInProgressIfReady task_id =>
      (TaskDependencies.mark_in_progress_if_ready w task_id).2
  | CompleteTask task_id => (TaskDependencies.complete_task w task_id).2
  | UpdateStatus task_id new_status =>
      (TaskStatusManager.update_status notifier w task_id
         (StatusEnum new_status) None).2
  end.



(** The missing-coverage predicate in the words of the specification: the
    member [MISSING], or a string that trimmed, in lower case and with
    underscores for spaces is one of the three spellings. *)
Definition coverage_missing (task : TestTask.t) : Prop :=
  TestTask.coverage_status task = CovEnum CoverageStatus.MISSING
  ∨ ∃ s, TestTask.coverage_status task = CovStr s
         ∧ PyStr.replace " " "_" (PyStr.lower (PyStr.strip s))
           ∈ ["missing"; "not_covered"; "notcovered"].

(** The task an operation is called for, and the status it is to write. *)
Definition operation_task (op : operation) : string :=
  match op with
  | StartIfReady task_id | CompleteIfReady task_id
  | MarkInProgressIfReady task_id | CompleteTask task_id
  | UpdateStatus task_id _ => task_id
  end.

Definition operation_status (op : operation) : TaskStatus.t :=
  match op with
  | StartIfReady _ | MarkInProgressIfReady _ => TaskStatus.IN_PROGRESS
  | CompleteIfReady _ | CompleteTask _ => TaskStatus.DONE
  | UpdateStatus _ new_status => new_status
  end.

(** The store after a sequence of operations, from left to right. *)
Definition apply_operations
    (notifier : list status_change → status_change → bool)
    (ops : list operation) (w : world) : world :=
  foldl (λ w op, apply_operation notifier op w) w ops.

(** Working a plan off through the gate: each task in turn is started and
    then completed. *)
Definition work_off (plan : list TestTask.t) : list operation :=
  plan ≫= λ t, [StartIfReady (TestTask.id t); CompleteIfReady (TestTask.id t)].

(** The tasks [B] block each other: each of them has a dependency that is
    not in the store, or is a task of [B] that is not done. *)
Definition deadlocked (s : gmap string TestTask.t) (B : gset string) : Prop :=
  ∀ b, b ∈ B →
    ∃ task d, s !! b = Some task ∧ d ∈ TestTask.dependencies task
      ∧ match s !! d with
        | None => True
        | Some dep => d ∈ B ∧ TestTask.status dep ≠ TaskStatus.DONE
        end.

(** The store holds a row for each task of the list, with the dependencies
    of the task. *)
Definition stored (s : gmap string TestTask.t) (tasks : list TestTask.t)
  : Prop :=
  ∀ t, t ∈ tasks →
    ∃ row, s !! TestTask.id t = Some row
           ∧ TestTask.dependencies row = TestTask.dependencies t.

(** The string has no comma in it. *)
Definition comma_free (d : string) : Prop :=
  ","%char ∉ String.list_ascii_of_string d.

(** What is left of a list of dependency ids once each is trimmed and the
    ids that are empty then are dropped. *)
Definition trimmed (deps : list string) : list string :=
  filter (λ d, d ≠ EmptyString) (PyStr.strip <$> deps).

(** Every element of the list is trimmed, not empty and without a comma. *)
Definition normal_ids (l : list string) : Prop :=
  Forall (λ d, d ≠ EmptyString ∧ PyStr.strip d = d ∧ comma_free d) l.

(** The role an assigner has for a test type. *)
Definition assignee_for (self : TaskAssigner.t) (test_type : TestType.t)
  : option string :=
  match self with
  | TaskAssigner.WithPolicy policy =>
      AssignmentPolicy.get_role_for_test_type policy test_type
  | TaskAssigner.WithRoleMap role_map => role_map !! test_type
  end.

(** The store after [delete_task], which does not commit. *)
Definition after_delete (w : world) (task_id : string) : world :=
  mk_world (TestTaskDAL.delete_task (session w) task_id).2 (commits w)
    (notified w) (warnings w).

(** A notification that records a change of status of a task of the
    store [s]. *)
Definition real_change (s : gmap string TestTask.t) (c : status_change)
  : Prop :=
  change_old_status c ≠ change_new_status c ∧ is_Some (s !! change_task_id c).

(** ** Stores and task sets of the scenarios *)

(** The store of the sixth scenario of the specification: the one task [Z]
    names a dependency that is not in the store. *)
Definition ghost_task : TestTask.t :=
  TestTask.mk "Z" "" TestType.UNIT ["ghost-id"] TaskStatus.PENDING None
    (CovEnum CoverageStatus.NOT_STARTED).

Definition ghost_world : world :=
  mk_world {[ "Z" := ghost_task ]} 0 [] 0.

(** The two tasks of the fourth scenario: [X] depends on [Y], both pending. *)
Definition scenario_x : TestTask.t :=
  TestTask.mk "X" "" TestType.UNIT ["Y"] TaskStatus.PENDING None
    (CovEnum CoverageStatus.NOT_STARTED).

Definition scenario_y : TestTask.t :=
  TestTask.mk "Y" "" TestType.UNIT [] TaskStatus.PENDING None
    (CovEnum CoverageStatus.NOT_STARTED).

Definition scenario_world : world :=
  mk_world {[ "X" := scenario_x; "Y" := scenario_y ]} 0 [] 0.

(** A task with the defaults of the dataclass. *)
Definition new_task (id : string) (test_type : TestType.t)
    (dependencies : list string) : TestTask.t :=
  TestTask.mk id "" test_type dependencies TaskStatus.PENDING None
    (CovEnum CoverageStatus.NOT_STARTED).

(** Scenario 1: a chain [A], [B] after [A], [C] after [B]. *)
Definition chain_tasks : list TestTask.t :=
  [new_task "A" TestType.UNIT []; new_task "B" TestType.UNIT ["A"];
   new_task "C" TestType.UNIT ["B"]].

(** Scenario 2: two tasks that depend on each other. *)
Definition cycle_tasks : list TestTask.t :=
  [new_task "A" TestType.UNIT ["B"]; new_task "B" TestType.UNIT ["A"]].

(** Scenario 3: a unit task before an end-to-end task, no dependencies. *)
Definition priority_tasks : list TestTask.t :=
  [new_task "U" TestType.UNIT []; new_task "E" TestType.E2E []].

(** Two unit tasks [X] and [Y] in this order, [X] after the end-to-end task
    [R] that comes last. *)
Definition tie_tasks : list TestTask.t :=
  [new_task "X" TestType.UNIT ["R"]; new_task "Y" TestType.UNIT [];
   new_task "R" TestType.E2E []].

(** The rank of an id in [chain_tasks]. *)
Definition chain_rank (k : string) : nat :=
  (if decide (k = "A") then 0 else if decide (k = "B") then 1 else 2)%nat.

(** Scenario 4 with both tasks done. *)
Definition done_world : world :=
  mk_world {[ "X" := set_status scenario_x TaskStatus.DONE;
              "Y" := set_status scenario_y TaskStatus.DONE ]} 0 [] 0.

(** A task set in which the id [A] occurs twice. *)
Definition repeated_tasks : list TestTask.t :=
  [new_task "A" TestType.UNIT []; new_task "B" TestType.UNIT ["A"];
   new_task "A" TestType.E2E []].

(** Three tasks that name no task of the set as a dependency. *)
Definition independent_tasks : list TestTask.t :=
  [new_task "U" TestType.UNIT ["ghost-id"]; new_task "E" TestType.E2E [];
   new_task "I" TestType.INTEGRATION []].

(** The tasks of scenario 1 in the store. *)
Definition chain_world : world :=
  mk_world (list_to_map ((λ t, (TestTask.id t, t)) <$> chain_tasks)) 0 [] 0.

(** The tasks of scenario 2, which depend on each other, in the store. *)
Definition cycle_world : world :=
  mk_world (list_to_map ((λ t, (TestTask.id t, t)) <$> cycle_tasks)) 0 [] 0.

(** Dependency ids as a form may send them: with blanks around an id, and
    with an id that is empty. *)
Definition spaced_ids : list string := [" Y "; ""; "Z"].

(** A task whose coverage status is the string of the tests. *)
Definition not_covered_task : TestTask.t :=
  TestTask.mk "Q" "" TestType.E2E [] TaskStatus.PENDING None
    (CovStr " Not Covered ").

(** Two unit tasks [B] and [C] and the end-to-end task [A], which comes
    after [C]: between [A] and [B] there is no dependency. *)
Definition readiness_tasks : list TestTask.t :=
  [new_task "B" TestType.UNIT []; new_task "C" TestType.UNIT [];
   new_task "A" TestType.E2E ["C"]].

(** * Properties *)

(** ** Dictionaries *)

Module PyDictFacts.
Import PyDict.
Section Facts.
Context {V : Type}.
Implicit Types (d : PyDict.t V) (k : string) (v : V).

Lemma eqb_decide k k' : String.eqb k k' = bool_decide (k = k').
Proof.
  destruct (String.eqb_spec k k'); symmetry;
    [by apply bool_decide_eq_true | by apply bool_decide_eq_false].
Qed.

Lemma get_cons d k k' v :
  get ((k', v) :: d) k = if decide (k' = k) then Some v else get d k.
Proof. simpl. rw eqb_decide. by case_bool_decide; case_decide. Qed.

Lemma set_cons d k k' v v' :
  set ((k', v') :: d) k v
  = if decide (k' = k) then (k', v) :: d else (k', v') :: set d k v.
Proof. simpl. rw eqb_decide. by case_bool_decide; case_decide. Qed.

Lemma getitem_Some d k v : get d k = Some v → getitem d k = Returns v.
Proof. intros H. by rw /getitem H. Qed.

Lemma get_None d k : get d k = None ↔ k ∉ keys d.
Proof.
  induction d as [|[k' v] d IH]; [split; [intros _; apply not_elem_of_nil|done]|].
  rw get_cons /keys fmap_cons not_elem_of_cons /=.
  case_decide; naive_solver.
Qed.

Lemma get_is_Some d k : is_Some (get d k) ↔ k ∈ keys d.
Proof.
  rw -not_eq_None_Some get_None. split; [|naive_solver].
  intros ?. by destruct (decide (k ∈ keys d)).
Qed.

Lemma get_Some_elem d k v : get d k = Some v → (k, v) ∈ d.
Proof.
  induction d as [|[k' v'] d IH]; [done|].
  rw get_cons. case_decide; set_solver.
Qed.

Lemma elem_get_Some d k v : NoDup (keys d) → (k, v) ∈ d → get d k = Some v.
Proof.
  induction d as [|[k' v'] d IH]; [by rw elem_of_nil|].
  rw /keys fmap_cons NoDup_cons elem_of_cons get_cons.
  intros [Hk Hd] [[= -> ->]|Hin]; [by rw decide_True|].
  case_decide as Heq; [|by apply IH].
  subst. destruct Hk. apply list_elem_of_fmap. by exists (k, v).
Qed.

Lemma contains_true d k : contains d k = true ↔ k ∈ keys d.
Proof.
  rw -get_is_Some /contains. destruct (get d k); split; try done.
Qed.

Lemma contains_false d k : contains d k = false ↔ k ∉ keys d.
Proof. rw -contains_true. by destruct (contains d k). Qed.

Lemma get_set d k k' v :
  get (set d k v) k' = if decide (k = k') then Some v else get d k'.
Proof.
  induction d as [|[k0 v0] d IH].
  - simpl. rw eqb_decide. by case_bool_decide; case_decide.
  - rw set_cons. destruct (decide (k0 = k)) as [H0|H0];
      rw !get_cons ?IH; repeat case_decide; congruence.
Qed.

Lemma keys_set_elem d k v : k ∈ keys d → keys (set d k v) = keys d.
Proof.
  induction d as [|[k0 v0] d IH]; [by rw /keys elem_of_nil|].
  rw set_cons /keys !fmap_cons elem_of_cons /=.
  case_decide as H0; [done|]. intros [?|?]; [congruence|].
  rw fmap_cons /=. f_equal. by apply IH.
Qed.

Lemma keys_set_new d k v : k ∉ keys d → keys (set d k v) = keys d ++ [k].
Proof.
  induction d as [|[k0 v0] d IH]; [done|].
  rw set_cons /keys !fmap_cons not_elem_of_cons /=.
  intros [? ?]. rw decide_False; [|congruence].
  rw fmap_cons /=. f_equal. by apply IH.
Qed.

Lemma set_same d k v : get d k = Some v → set d k v = d.
Proof.
  induction d as [|[k0 v0] d IH]; [done|].
  rw get_cons set_cons. case_decide; [congruence|].
  intros ?. f_equal. by apply IH.
Qed.

Lemma set_set d k v v' : set (set d k v) k v' = set d k v'.
Proof.
  induction d as [|[k0 v0] d IH].
  - simpl. by rw String.eqb_refl.
  - rw !set_cons. case_decide; rw set_cons;
      [by rw decide_True|rw decide_False; [|done]].
    by rw IH.
Qed.
End Facts.
End PyDictFacts.

(** ** The dependency graph of a task set *)

Section Graph.
Import PyDict PyDictFacts.
Variable D : PyDict.t TestTask.t.
Hypothesis HD : well_keyed D.

Lemma bind_Returns {A B} (a : A) (k : A → outcome B) :
  (Returns a ≫= k) = k a.
Proof. done. Qed.

Lemma for_each_app {A S} (body : S → A → outcome S) l1 l2 s :
  for_each body (l1 ++ l2) s = (s' ← for_each body l1 s; for_each body l2 s').
Proof.
  revert s. induction l1 as [|x l1 IH]; intros s; [done|].
  simpl. destruct (body s x); simpl; auto.
Qed.

Lemma ids_values : ids (values D) = keys D.
Proof.
  destruct HD as [_ Hid]. rw /ids /values /keys -list_fmap_compose.
  apply Forall_fmap_ext, Forall_forall. intros [k t] Hin. by apply Hid.
Qed.

Lemma elem_values k t : (k, t) ∈ D → t ∈ values D ∧ TestTask.id t = k.
Proof.
  intros Hin. split; [|by apply HD].
  apply list_elem_of_fmap. by exists (k, t).
Qed.

Lemma values_elem t : t ∈ values D → (TestTask.id t, t) ∈ D.
Proof.
  intros ([k t'] & -> & Hin)%list_elem_of_fmap. simpl.
  by rw (proj2 HD _ _ Hin).
Qed.

Lemma occurrences_cons d x l :
  occurrences d (x :: l)
  = ((if decide (x = d) then 1 else 0) + occurrences d l)%nat.
Proof. rw /occurrences filter_cons. by case_decide. Qed.

(** *** The loop over the dependencies of one task *)

Lemma add_edges t ds graph indegree z :
  get indegree (TestTask.id t) = Some z →
  ∃ graph',
    for_each (add_edge D t) ds (graph, indegree)
    = Returns (graph',
        set indegree (TestTask.id t)
          (z + Z.of_nat (length (filter (λ d, d ∈ keys D) ds))))
    ∧ ∀ d, graph' !!! d
           = graph !!! d
             ++ replicate (occurrences d (filter (λ d, d ∈ keys D) ds))
                  (TestTask.id t).
Proof.
  revert graph indegree z.
  induction ds as [|dep ds IH]; intros graph indegree z Hz.
  - exists graph. simpl. rw Z.add_0_r set_same //. split; [done|].
    intros d. by rw app_nil_r.
  - simpl. rw filter_cons. destruct (contains D dep) eqn:Hc; simpl.
    + apply contains_true in Hc. rw decide_True // /getitem Hz /=.
      destruct (IH (<[dep:=graph !!! dep ++ [TestTask.id t]]> graph)
                  (set indegree (TestTask.id t) (z + 1)) (z + 1))
        as (graph' & -> & Hg); [by rw get_set decide_True|].
      exists graph'. split.
      * rw set_set. do 3 f_equal. lia.
      * intros d. rw Hg occurrences_cons. case_decide as Hd.
        -- subst. by rw lookup_total_insert_eq -assoc.
        -- by rw lookup_total_insert_ne.
    + apply contains_false in Hc. rw decide_False //. by apply IH.
Qed.

(** *** The loop over the tasks *)

Lemma add_tasks ts graph indegree :
  NoDup (ids ts) →
  (∀ t, t ∈ ts → is_Some (get indegree (TestTask.id t))) →
  ∃ graph' indegree',
    for_each
      (λ st t, for_each (add_edge D t) (TestTask.dependencies t) st)
      ts (graph, indegree)
    = Returns (graph', indegree')
    ∧ (∀ d, graph' !!! d
            = graph !!! d
              ++ concat ((λ t, replicate (occurrences d (in_set_deps D t))
                                 (TestTask.id t)) <$> ts))
    ∧ keys indegree' = keys indegree
    ∧ (∀ t z, t ∈ ts → get indegree (TestTask.id t) = Some z →
         get indegree' (TestTask.id t)
         = Some (z + Z.of_nat (length (in_set_deps D t))))
    ∧ (∀ k, k ∉ ids ts → get indegree' k = get indegree k).
Proof.
  revert graph indegree.
  induction ts as [|t ts IH]; intros graph indegree Hnd Hsome.
  - exists graph, indegree. simpl. split_and!; try done.
    + intros d. by rw app_nil_r.
    + intros t z Hin. by apply elem_of_nil in Hin.
  - rw /ids fmap_cons in Hnd. apply NoDup_cons in Hnd as [Hnt Hnd].
    destruct (Hsome t) as [z Hz]; [by left|].
    destruct (add_edges t (TestTask.dependencies t) graph indegree z Hz)
      as (g1 & Hrun & Hg1).
    set (i1 := set indegree (TestTask.id t)
                 (z + Z.of_nat (length (in_set_deps D t)))).
    destruct (IH g1 i1 Hnd) as (g' & i' & Hrun' & Hg' & Hk' & Hin' & Hout').
    { intros t' Hin'. rw /i1 get_set. case_decide; [done|].
      apply Hsome. by right. }
    exists g', i'. simpl. rw Hrun /= Hrun'. split_and!; try done.
    + intros d. by rw Hg' Hg1 -assoc.
    + rw Hk' /i1 keys_set_elem //. apply get_is_Some. by eexists.
    + intros t' z' [->|Hin]%elem_of_cons Hz'.
      * rw Hout' // /i1 get_set decide_True //. congruence.
      * rw (Hin' t' z') // /i1 get_set decide_False //.
        intros Heq. apply Hnt. rw Heq. apply list_elem_of_fmap. by exists t'.
    + intros k Hk. rw /ids in Hk. apply not_elem_of_cons in Hk as [Hkt Hk].
      rw Hout' // /i1 get_set decide_False //.
Qed.

Lemma get_indegree_init k :
  get (indegree_init D) k = if decide (k ∈ keys D) then Some 0 else None.
Proof.
  rw /indegree_init. induction (keys D) as [|k' l IH]; [done|].
  rw fmap_cons get_cons IH. repeat case_decide; set_solver.
Qed.

Lemma keys_indegree_init : keys (indegree_init D) = keys D.
Proof.
  rw /indegree_init /keys -list_fmap_compose. by rw list_fmap_id.
Qed.

Lemma waiting_nil t : waiting D [] t = length (in_set_deps D t).
Proof.
  rw /waiting. induction (in_set_deps D t) as [|d l IH]; [done|].
  rw filter_cons_True; [simpl; by rw IH|by apply not_elem_of_nil].
Qed.

Lemma build_graph_spec :
  ∃ graph indegree,
    build_graph D = Returns (graph, indegree)
    ∧ (∀ d, graph !!! d = dependents D d)
    ∧ keys indegree = keys D
    ∧ ∀ k t, (k, t) ∈ D → get indegree k = Some (Z.of_nat (waiting D [] t)).
Proof.
  destruct (add_tasks (values D) ∅ (indegree_init D))
    as (g & i & Hrun & Hg & Hk & Hin & _).
  { rw ids_values. apply HD. }
  { intros t Ht%values_elem. rw get_indegree_init decide_True //.
    apply list_elem_of_fmap. by exists (TestTask.id t, t). }
  exists g, i. split_and!; try done.
  - by rw Hk keys_indegree_init.
  - intros k t [Ht <-]%elem_values. rw waiting_nil.
    rw (Hin t 0) //. rw get_indegree_init decide_True //. rw -ids_values.
    apply list_elem_of_fmap. by exists t.
Qed.

(** *** The loop over the dependents of an emitted task *)

Lemma release_block n t c z indegree ready :
  get D n = Some t →
  get indegree n = Some (Z.of_nat z) →
  (c ≤ z)%nat →
  for_each (release D) (replicate c n) (indegree, ready)
  = Returns (set indegree n (Z.of_nat z - Z.of_nat c),
             ready ++ (if decide (0 < c ∧ z = c)%nat then [t] else [])).
Proof.
  intros Ht. revert z indegree ready.
  induction c as [|c IH]; intros z indegree ready Hz Hle.
  - simpl. rw Z.sub_0_r set_same //. by rw app_nil_r.
  - simpl. rw /getitem Hz /=.
    destruct (Z.eqb_spec (Z.of_nat z - 1) 0) as [H0|H0].
    + assert (c = 0%nat) as -> by lia. rw Ht /=.
      rw decide_True; [|lia]. do 2 f_equal.
    + simpl. rw (IH (z - 1)%nat); [| |lia].
      2:{ rw get_set decide_True //. f_equal. lia. }
      rw set_set. do 2 f_equal; [f_equal; lia|].
      repeat case_decide; try done; lia.
Qed.

Lemma release_blocks (c zf : TestTask.t → nat) ts indegree ready :
  NoDup (ids ts) →
  (∀ t, t ∈ ts →
     get D (TestTask.id t) = Some t
     ∧ get indegree (TestTask.id t) = Some (Z.of_nat (zf t))
     ∧ (c t ≤ zf t)%nat) →
  ∃ indegree',
    for_each (release D)
      (concat ((λ t, replicate (c t) (TestTask.id t)) <$> ts))
      (indegree, ready)
    = Returns (indegree',
               ready ++ filter (λ t, (0 < c t)%nat ∧ zf t = c t) ts)
    ∧ keys indegree' = keys indegree
    ∧ (∀ t, t ∈ ts →
         get indegree' (TestTask.id t) = Some (Z.of_nat (zf t - c t)))
    ∧ (∀ k, k ∉ ids ts → get indegree' k = get indegree k).
Proof.
  revert indegree ready.
  induction ts as [|t ts IH]; intros indegree ready Hnd Hts.
  - exists indegree. simpl. rw app_nil_r. split_and!; try done.
    intros t Hin. by apply elem_of_nil in Hin.
  - rw /ids in Hnd. apply NoDup_cons in Hnd as [Hnt Hnd].
    destruct (Hts t) as (HtD & Hz & Hle); [by left|].
    set (i1 := set indegree (TestTask.id t)
                 (Z.of_nat (zf t) - Z.of_nat (c t))).
    set (r1 := ready ++ (if decide (0 < c t ∧ zf t = c t)%nat
                         then [t] else [])).
    destruct (IH i1 r1 Hnd) as (i' & Hrun & Hk & Hin & Hout).
    { intros t' Hin'. destruct (Hts t') as (? & ? & ?); [by right|].
      split_and!; try done. rw /i1 get_set decide_False //.
      intros Heq. apply Hnt. rw Heq. apply list_elem_of_fmap. by exists t'. }
    exists i'. rw fmap_cons /= for_each_app.
    rw (release_block _ t _ (zf t)) //= Hrun. split_and!.
    + do 2 f_equal. rw /r1 filter_cons -assoc. by case_decide.
    + rw Hk /i1 keys_set_elem //. apply get_is_Some. by eexists.
    + intros t' [->|Hin']%elem_of_cons; [|by apply Hin].
      rw Hout // /i1 get_set decide_True //. f_equal. lia.
    + intros k Hk'. rw /ids in Hk'.
      apply not_elem_of_cons in Hk' as [Hkt Hk'].
      rw Hout // /i1 get_set decide_False //.
Qed.

(** Emitting [c] takes its occurrences out of what a task waits for. *)
Lemma waiting_snoc emitted c t :
  c ∉ emitted →
  (waiting D (emitted ++ [c]) t + occurrences c (in_set_deps D t)
   = waiting D emitted t)%nat.
Proof.
  intros Hc. rw /waiting /occurrences.
  induction (in_set_deps D t) as [|d l IH]; [done|].
  rw !filter_cons. destruct (decide (d = c)) as [->|Hne].
  - rw decide_False; [|set_solver]. rw decide_True //=. lia.
  - destruct (decide (d ∈ emitted)).
    + rw decide_False; [|set_solver]. rw decide_False; [|set_solver]. done.
    + rw decide_True; [|set_solver]. rw decide_True //=. lia.
Qed.
End Graph.

(** ** The ready queue *)

Lemma sorter_drain_kahn fuel D graph indegree ready ordered :
  TaskSorter.drain fuel D graph indegree ready ordered
  = kahn (λ ready, ready) fuel D graph indegree ready ordered.
Proof.
  revert indegree ready ordered.
  induction fuel as [|fuel IH]; intros indegree [|c ready] ordered; try done.
  simpl. destruct (for_each _ _ _) as [[i r]| |]; simpl; auto.
Qed.

Lemma generator_drain_kahn policy fuel D graph indegree ready plan :
  TestPlanGenerator.drain policy fuel D graph indegree ready plan
  = kahn (requeue_by_priority policy) fuel D graph indegree ready plan.
Proof.
  revert indegree ready plan.
  induction fuel as [|fuel IH]; intros indegree [|c ready] plan; try done.
  simpl. destruct (for_each _ _ _) as [[i r]| |]; simpl; auto.
Qed.

Section Kahn.
Import PyDict PyDictFacts.
Variable D : PyDict.t TestTask.t.
Hypothesis HD : well_keyed D.
Variable requeue : list TestTask.t → list TestTask.t.
Hypothesis Hrequeue : ∀ l, requeue l ≡ₚ l.

Lemma values_id_inj t t' :
  t ∈ values D → t' ∈ values D → TestTask.id t = TestTask.id t' → t = t'.
Proof.
  intros Ht%(values_elem D HD) Ht'%(values_elem D HD) Heq.
  apply (elem_get_Some _ _ _ (proj1 HD)) in Ht, Ht'.
  rw Heq in Ht. congruence.
Qed.

Lemma ids_app l1 l2 : ids (l1 ++ l2) = ids l1 ++ ids l2.
Proof. apply fmap_app. Qed.

Lemma elem_ids t l : t ∈ l → TestTask.id t ∈ ids l.
Proof. intros ?. apply list_elem_of_fmap. by exists t. Qed.

Lemma current_fresh cur rest ordered :
  queue_ok D (cur :: rest) ordered → TestTask.id cur ∉ ids ordered.
Proof.
  intros [Hnd _ _]. rw ids_app in Hnd.
  apply NoDup_app in Hnd as (_ & Hdisj & _).
  intros Hin. apply (Hdisj _ Hin). by left.
Qed.

Lemma release_all (graph : gmap string (list string)) indegree cur rest
    ordered :
  (∀ d, graph !!! d = dependents D d) →
  counts_ok D indegree ordered →
  queue_ok D (cur :: rest) ordered →
  ∃ indegree',
    for_each (release D) (graph !!! TestTask.id cur) (indegree, rest)
    = Returns (indegree', rest ++ released D (ids ordered) cur)
    ∧ counts_ok D indegree' (ordered ++ [cur]).
Proof.
  intros Hg [Hk Hc] Hq. pose proof (current_fresh _ _ _ Hq) as Hfresh.
  destruct (release_blocks D
              (λ t, occurrences (TestTask.id cur) (in_set_deps D t))
              (λ t, waiting D (ids ordered) t)
              (values D) indegree rest)
    as (i' & Hrun & Hk' & Hin & _).
  { rw (ids_values D HD). apply HD. }
  { intros t Ht. split_and!.
    - apply elem_get_Some; [apply HD|]. by apply values_elem.
    - by apply Hc.
    - rw -(waiting_snoc D HD _ (TestTask.id cur) t Hfresh). lia. }
  exists i'. rw Hg /dependents Hrun. split.
  - do 3 f_equal. apply list_filter_iff. intros t.
    rw -(waiting_snoc D HD _ (TestTask.id cur) t Hfresh). split; intros [? ?]; split; lia.
  - split; [congruence|]. intros t Ht. rw Hin // ids_app. do 2 f_equal.
    simpl. rw -(waiting_snoc D HD (ids ordered) (TestTask.id cur) t Hfresh). lia.
Qed.

Lemma released_waits emitted cur t :
  TestTask.id cur ∉ emitted →
  t ∈ released D emitted cur → waiting D emitted t ≠ 0%nat.
Proof.
  intros Hfresh [[Hpos _] _]%list_elem_of_filter.
  rw -(waiting_snoc D HD emitted (TestTask.id cur) t Hfresh). lia.
Qed.

Lemma queue_step cur rest ordered :
  queue_ok D (cur :: rest) ordered →
  queue_ok D (requeue (rest ++ released D (ids ordered) cur))
    (ordered ++ [cur]).
Proof.
  intros Hq. pose proof (current_fresh _ _ _ Hq) as Hfresh.
  destruct Hq as [Hnd Hsub Hzero].
  assert ((ordered ++ [cur]) ++ requeue (rest ++ released D (ids ordered) cur)
          ≡ₚ (ordered ++ cur :: rest) ++ released D (ids ordered) cur)
    as Hperm.
  { rw Hrequeue -!assoc /=. done. }
  split.
  - rw /ids Hperm. fold (ids ((ordered ++ cur :: rest)
                              ++ released D (ids ordered) cur)).
    rw ids_app. apply NoDup_app. split_and!; [done| |].
    + intros k (t & -> & Ht)%list_elem_of_fmap (t' & Heq & Ht')%list_elem_of_fmap.
      assert (t = t') as <-.
      { apply values_id_inj; [by apply Hsub| |done].
        by apply list_elem_of_filter in Ht' as [_ ?]. }
      apply (released_waits _ _ _ Hfresh Ht'). by apply Hzero; [apply Hsub|].
    + apply (sublist_NoDup _ (ids (values D))).
      * rw (ids_values D HD). apply HD.
      * apply fmap_sublist, sublist_filter.
  - intros t. rw Hperm. intros [Ht|Ht]%elem_of_app; [by apply Hsub|].
    by apply list_elem_of_filter in Ht as [_ ?].
  - intros t Ht. rw Hperm elem_of_app ids_app /= (Hzero t Ht).
    pose proof (waiting_snoc D HD (ids ordered) (TestTask.id cur) t Hfresh).
    rw /released list_elem_of_filter. split.
    + intros [?|[[_ ?] _]]; [lia|done].
    + intros Hw. destruct (decide (waiting D (ids ordered) t = 0%nat));
        [by left|right]. split_and!; [lia|done|done].
Qed.

(** *** The loop refines to the schedule *)

Lemma kahn_schedule (graph : gmap string (list string)) fuel indegree
    ready ordered :
  (∀ d, graph !!! d = dependents D d) →
  counts_ok D indegree ordered →
  queue_ok D ready ordered →
  kahn requeue fuel D graph indegree ready ordered
  = match schedule requeue fuel D ready ordered with
    | Some out => Returns out
    | None => Diverges
    end.
Proof.
  intros Hg. revert indegree ready ordered.
  induction fuel as [|fuel IH]; intros indegree [|cur rest] ordered Hc Hq;
    try done.
  destruct (release_all graph indegree cur rest ordered Hg Hc Hq)
    as (i' & Hrun & Hc').
  simpl. rw Hrun /=. apply IH; [done|]. by apply queue_step.
Qed.

(** *** The schedule ends, and what holds of its result *)

Lemma queue_length ready ordered :
  queue_ok D ready ordered →
  (length ordered + length ready ≤ length D)%nat.
Proof.
  intros [Hnd Hsub _]. rw -length_app.
  rw -(length_fmap snd D). apply submseteq_length, NoDup_submseteq; [|done].
  by apply NoDup_fmap_1 in Hnd.
Qed.

Lemma schedule_result (Q : list TestTask.t → list TestTask.t → Prop)
    (P : list TestTask.t → TestTask.t → Prop) :
  (∀ cur rest ordered,
      queue_ok D (cur :: rest) ordered → Q (cur :: rest) ordered →
      P ordered cur
      ∧ Q (requeue (rest ++ released D (ids ordered) cur)) (ordered ++ [cur])) →
  ∀ fuel ready ordered,
    queue_ok D ready ordered → Q ready ordered →
    each_emission P ordered →
    (length D ≤ fuel + length ordered)%nat →
    ∃ out, schedule requeue fuel D ready ordered = Some out
           ∧ queue_ok D [] out ∧ each_emission P out.
Proof.
  intros Hstep fuel.
  induction fuel as [|fuel IH]; intros [|cur rest] ordered Hq HQ HP Hlen.
  - by exists ordered.
  - apply queue_length in Hq. simpl in *. lia.
  - by exists ordered.
  - destruct (Hstep _ _ _ Hq HQ) as [HPcur HQ']. simpl.
    apply IH; [by apply queue_step|done| |rw length_app /=; lia].
    intros pre t post Heq.
    destruct post as [|t' post _] using rev_ind.
    + apply (app_inj_2 _ _ _ [t]) in Heq as [-> [= ->]]; done.
    + rw app_comm_cons assoc in Heq.
      apply (app_inj_2 _ _ _ [t']) in Heq as [-> _]; [|done].
      by apply (HP pre t post).
Qed.
End Kahn.

(** ** From the task list to the dictionary *)

Section TasksById.
Import PyDict PyDictFacts.

Lemma elem_set {V} (d : PyDict.t V) k v k' v' :
  (k', v') ∈ set d k v → (k', v') = (k, v) ∨ (k', v') ∈ d.
Proof.
  induction d as [|[k0 v0] d IH]; [set_solver|].
  rw set_cons. case_decide; set_solver.
Qed.

Lemma well_keyed_set D t :
  well_keyed D → well_keyed (set D (TestTask.id t) t).
Proof.
  intros [Hnd Hid]. split.
  - destruct (decide (TestTask.id t ∈ keys D)).
    + by rw keys_set_elem.
    + rw keys_set_new //. apply NoDup_app. split_and!; [done| |apply NoDup_singleton].
      intros k Hk ->%list_elem_of_singleton. done.
  - intros k' t' [[= -> ->]|Hin]%elem_set; [done|by apply Hid].
Qed.

Lemma fold_set_well_keyed tasks D :
  well_keyed D →
  well_keyed (fold_left (λ d t, set d (TestTask.id t) t) tasks D).
Proof.
  revert D. induction tasks as [|t tasks IH]; intros D HD; [done|].
  simpl. by apply IH, well_keyed_set.
Qed.

Lemma tasks_by_id_well_keyed tasks : well_keyed (tasks_by_id_of tasks).
Proof.
  apply fold_set_well_keyed. split; [apply NoDup_nil_2|].
  intros k t Hin. by apply elem_of_nil in Hin.
Qed.

Lemma set_new {V} (d : PyDict.t V) k v :
  k ∉ keys d → set d k v = d ++ [(k, v)].
Proof.
  induction d as [|[k0 v0] d IH]; [done|].
  rw /keys fmap_cons not_elem_of_cons set_cons /=. intros [? ?].
  rw decide_False; [|congruence]. by rw IH.
Qed.

Lemma fold_set_unique tasks D :
  NoDup (keys D ++ ids tasks) →
  fold_left (λ d t, set d (TestTask.id t) t) tasks D
  = D ++ ((λ t, (TestTask.id t, t)) <$> tasks).
Proof.
  revert D. induction tasks as [|t tasks IH]; intros D Hnd.
  - by rw app_nil_r.
  - simpl. rw set_new.
    2:{ apply NoDup_app in Hnd as (_ & Hdisj & _). intros Hin.
        apply (Hdisj _ Hin). by left. }
    rw IH; [by rw -assoc|].
    by rw /keys fmap_app /= -assoc.
Qed.

(** With unique ids the dictionary lists the tasks as they came. *)
Lemma tasks_by_id_unique tasks :
  NoDup (ids tasks) →
  tasks_by_id_of tasks = (λ t, (TestTask.id t, t)) <$> tasks.
Proof. intros Hnd. by rw /tasks_by_id_of fold_set_unique. Qed.

Lemma values_unique tasks :
  NoDup (ids tasks) → values (tasks_by_id_of tasks) = tasks.
Proof.
  intros Hnd. rw tasks_by_id_unique // /values -list_fmap_compose.
  apply list_fmap_id.
Qed.

Lemma keys_unique tasks :
  NoDup (ids tasks) → keys (tasks_by_id_of tasks) = ids tasks.
Proof.
  intros Hnd. by rw tasks_by_id_unique // /keys -list_fmap_compose.
Qed.
End TasksById.

(** ** The run of the two functions *)

Section Run.
Import PyDict PyDictFacts.
Variable D : PyDict.t TestTask.t.
Hypothesis HD : well_keyed D.

Lemma initial_queue_ok (requeue0 : list TestTask.t → list TestTask.t) :
  (∀ l, requeue0 l ≡ₚ l) → queue_ok D (requeue0 (roots D)) [].
Proof.
  intros Hperm. split; simpl.
  - rw /ids Hperm. apply (sublist_NoDup _ (ids (values D))).
    + rw (ids_values D HD). apply HD.
    + apply fmap_sublist, sublist_filter.
  - intros t. rw Hperm. by intros [_ ?]%list_elem_of_filter.
  - intros t Ht. rw Hperm /roots list_elem_of_filter. naive_solver.
Qed.

Lemma sorter_initial_from (w : TestTask.t → nat) (ind : PyDict.t Z) ts acc :
  keys ind = ids ts →
  (∀ k deg t, (k, deg) ∈ ind → t ∈ ts → k = TestTask.id t →
     deg = Z.of_nat (w t)) →
  (∀ t, t ∈ ts → get D (TestTask.id t) = Some t) →
  for_each
    (fun acc '(tid, deg) =>
       if deg =? 0 then
         task ← getitem D tid; Returns (acc ++ [task])
       else Returns acc)
    ind acc
  = Returns (acc ++ filter (λ t, w t = 0%nat) ts).
Proof.
  revert ts acc. induction ind as [|[k deg] ind IH];
    intros [|t ts] acc Hk Hdeg Hget; try done.
  { simpl. by rw app_nil_r. }
  rw /keys /ids !fmap_cons in Hk. injection Hk as Hkt Hk. simpl in Hkt.
  assert (deg = Z.of_nat (w t)) as ->
    by (apply (Hdeg k _ t); [by left|by left|done]).
  assert (∀ k deg t, (k, deg) ∈ ind → t ∈ ts → k = TestTask.id t →
            deg = Z.of_nat (w t)) as Hdeg'.
  { intros ??? ? ? ?. eapply Hdeg; [by right|by right|done]. }
  assert (∀ t, t ∈ ts → get D (TestTask.id t) = Some t) as Hget'.
  { intros ??. apply Hget. by right. }
  rw filter_cons. simpl. destruct (Z.eqb_spec (Z.of_nat (w t)) 0) as [H0|H0].
  - rw Hkt (getitem_Some _ _ t) /=; [|apply Hget; by left].
    rw decide_True; [|lia]. rw (IH ts) //. by rw -assoc.
  - rw decide_False; [|lia]. by rw bind_Returns (IH ts).
Qed.

(** The ready queue [TaskSorter.sort] starts from. *)
Lemma sorter_initial (indegree : PyDict.t Z) :
  counts_ok D indegree [] →
  for_each
    (fun acc '(tid, deg) =>
       if deg =? 0 then
         task ← getitem D tid; Returns (acc ++ [task])
       else Returns acc)
    indegree []
  = Returns (roots D).
Proof.
  intros [Hk Hc].
  assert (NoDup (keys indegree)) as Hnd by (rw Hk; apply HD).
  apply (sorter_initial_from (waiting D []) indegree (values D) []).
  - by rw (ids_values D HD).
  - intros k deg t Hin Ht ->. apply (elem_get_Some _ _ _ Hnd) in Hin.
    rw Hc // in Hin. by injection Hin as <-.
  - intros t Ht. apply elem_get_Some; [apply HD|]. by apply values_elem.
Qed.

Lemma generator_initial_from (w : TestTask.t → nat) (ind : PyDict.t Z)
    (D1 : PyDict.t TestTask.t) acc :
  (∀ k t, (k, t) ∈ D1 → get ind k = Some (Z.of_nat (w t))) →
  for_each
    (fun acc '(task_id, task) =>
       deg ← getitem ind task_id;
       if deg =? 0 then Returns (acc ++ [task]) else Returns acc)
    D1 acc
  = Returns (acc ++ filter (λ t, w t = 0%nat) (values D1)).
Proof.
  revert acc. induction D1 as [|[k t] D1 IH]; intros acc Hget.
  { simpl. by rw app_nil_r. }
  assert (∀ k t, (k, t) ∈ D1 → get ind k = Some (Z.of_nat (w t))) as Hget'.
  { intros ???. apply Hget. by right. }
  rw /values fmap_cons filter_cons /= (getitem_Some _ _ (Z.of_nat (w t))) /=;
    [|apply Hget; by left].
  destruct (Z.eqb_spec (Z.of_nat (w t)) 0) as [H0|H0].
  - rw decide_True; [|lia]. rw bind_Returns IH //. by rw -assoc.
  - rw decide_False; [|lia]. by rw bind_Returns IH.
Qed.

(** The zero in-degree tasks [generate_plan] sorts into its first queue. *)
Lemma generator_initial (indegree : PyDict.t Z) :
  counts_ok D indegree [] →
  for_each
    (fun acc '(task_id, task) =>
       deg ← getitem indegree task_id;
       if deg =? 0 then Returns (acc ++ [task]) else Returns acc)
    D []
  = Returns (roots D).
Proof.
  intros [_ Hc]. apply (generator_initial_from (waiting D []) indegree D []).
  intros k t [Ht <-]%(elem_values D HD). by apply Hc.
Qed.
End Run.

(** ** Order of occurrence, and the stable sort *)

Section Before.
Context {A : Type}.
Implicit Types (l : list A) (a b : A).

Lemma before_elem l a b : before l a b → a ∈ l ∧ b ∈ l.
Proof.
  induction l as [|x l IH]; [done|].
  intros [[-> ?]|[? ?]%IH]; split; (by left) || (by right).
Qed.

Lemma before_app l1 l2 a b :
  before (l1 ++ l2) a b
  ↔ before l1 a b ∨ (a ∈ l1 ∧ b ∈ l2) ∨ before l2 a b.
Proof.
  induction l1 as [|x l1 IH]; simpl.
  - split; [auto|]. intros [[]|[[[]%elem_of_nil _]|?]]; done.
  - rw IH elem_of_app elem_of_cons. split.
    + intros [[-> [?|?]]|[?|[[? ?]|?]]]; eauto 6.
    + intros [[[-> ?]|?]|[[[->|?] ?]|?]]; eauto 6.
Qed.

Lemma before_split l a b :
  before l a b ↔ ∃ pre post, l = pre ++ a :: post ∧ b ∈ post.
Proof.
  split.
  - induction l as [|x l IH]; [done|].
    intros [[-> ?]|(pre & post & -> & ?)%IH].
    + by exists [], l.
    + by exists (x :: pre), post.
  - intros (pre & post & -> & Hb). apply before_app. right. right.
    simpl. by left.
Qed.

Lemma before_filter (P : A → Prop) `{!∀ x, Decision (P x)} l a b :
  before (filter P l) a b → before l a b.
Proof.
  induction l as [|x l IH]; [done|]. rw filter_cons.
  case_decide; simpl; [|by auto].
  intros [[-> [_ ?]%list_elem_of_filter]|?]; auto.
Qed.

Lemma before_fmap_NoDup {B} (f : A → B) l a b :
  NoDup (f <$> l) → before l a b → f a ≠ f b.
Proof.
  induction l as [|x l IH]; [done|].
  rw fmap_cons NoDup_cons. intros [Hx Hnd] [[-> Hb]|Hab]; [|by apply IH].
  intros Heq. apply Hx. rw Heq. apply list_elem_of_fmap. by exists b.
Qed.
End Before.

Section SortedFacts.
Context {A : Type} (key : A → Z).
Implicit Types (l : list A).

Lemma insert_desc_perm x l : insert_desc key x l ≡ₚ x :: l.
Proof.
  induction l as [|y l IH]; [done|]. simpl.
  destruct (key x <? key y); [|done]. rw IH. apply Permutation_swap.
Qed.

Lemma sorted_desc_perm l : sorted_desc key l ≡ₚ l.
Proof.
  induction l as [|x l IH]; [done|].
  rw /sorted_desc /= insert_desc_perm. by f_equiv.
Qed.

Lemma before_insert_desc x l a b :
  before (insert_desc key x l) a b →
  (a = x ∧ b ∈ l) ∨ (b = x ∧ a ∈ l ∧ key x < key a) ∨ before l a b.
Proof.
  induction l as [|y l IH]; simpl.
  - intros [[_ []%elem_of_nil]|[]].
  - destruct (Z.ltb_spec (key x) (key y)) as [Hlt|Hge]; simpl.
    + intros [[-> Hb]|Hab].
      * rw insert_desc_perm in Hb. apply elem_of_cons in Hb as [->|Hb].
        -- right. left. split_and!; [done|by left|done].
        -- right. right. left. done.
      * destruct (IH Hab) as [[-> ?]|[(-> & ? & ?)|?]].
        -- left. split; [done|by right].
        -- right. left. split_and!; [done|by right|done].
        -- right. right. by right.
    + intros [[-> Hb]|Hab]; [by left|]. by right; right.
Qed.

Lemma insert_desc_descending x l :
  descending key l → descending key (insert_desc key x l).
Proof.
  intros Hl. induction l as [|y l IH]; simpl.
  - intros a b [[_ []%elem_of_nil]|[]].
  - destruct (Z.ltb_spec (key x) (key y)) as [Hlt|Hge].
    + intros a b [[-> Hb]|Hab].
      * rw insert_desc_perm in Hb. apply elem_of_cons in Hb as [->|Hb];
          [lia|]. apply Hl. by left.
      * apply IH; [|done]. intros a' b' ?. apply Hl. by right.
    + intros a b [[-> Hb]|Hab]; [|by apply Hl].
      apply elem_of_cons in Hb as [->|Hb]; [lia|].
      trans (key y); [|lia]. apply Hl. by left.
Qed.

Lemma sorted_desc_descending l : descending key (sorted_desc key l).
Proof.
  induction l as [|x l IH]; [by intros a b []|].
  by apply insert_desc_descending.
Qed.

(** Stability: elements that are not in descending order of their keys in
    the input keep their relative order. *)
Lemma sorted_desc_stable l a b :
  before (sorted_desc key l) a b → key a ≤ key b → before l a b.
Proof.
  revert a b. induction l as [|x l IH]; intros a b; [done|].
  change (sorted_desc key (x :: l))
    with (insert_desc key x (sorted_desc key l)).
  intros Hab Hle.
  destruct (before_insert_desc _ _ _ _ Hab) as [[-> Hb]|[(-> & ? & ?)|?]].
  - left. split; [done|]. by rw sorted_desc_perm in Hb.
  - lia.
  - right. by apply IH.
Qed.
End SortedFacts.

(** ** What holds when a task is emitted *)

Section Emission.
Import PyDict PyDictFacts.
Variable D : PyDict.t TestTask.t.
Hypothesis HD : well_keyed D.

Lemma waiting_zero e t :
  waiting D e t = 0%nat
  ↔ ∀ d, d ∈ TestTask.dependencies t → d ∈ keys D → d ∈ e.
Proof.
  rw /waiting /in_set_deps length_zero_iff_nil. split.
  - intros Hnil d Hd Hk. destruct (decide (d ∈ e)) as [|Hne]; [done|].
    assert (d ∈ filter (λ d, d ∉ e)
                   (filter (λ d, d ∈ keys D) (TestTask.dependencies t)))
      as Hin by (by rw !list_elem_of_filter).
    rw Hnil in Hin. by apply elem_of_nil in Hin.
  - intros Hall. apply elem_of_nil_inv. intros d.
    rw !list_elem_of_filter. intros (Hne & Hk & Hd). by apply Hne, Hall.
Qed.

Lemma eligible_mono p k t : eligible D p t → eligible D (p ++ k) t.
Proof.
  rw /eligible !waiting_zero ids_app. intros Hp d Hd Hk.
  apply elem_of_app. left. by apply Hp.
Qed.

Lemma eligible_prefix p p' t :
  p `prefix_of` p' → eligible D p t → eligible D p' t.
Proof. intros [k ->]. apply eligible_mono. Qed.

Lemma prefix_snoc_inv {A} (p l : list A) x :
  p `prefix_of` l ++ [x] → p `prefix_of` l ∨ p = l ++ [x].
Proof.
  intros [k Hk]. destruct k as [|y k _] using rev_ind.
  - right. by rw app_nil_r in Hk.
  - left. exists k. rw assoc in Hk. by apply app_inj_tail in Hk as [-> _].
Qed.

(** *** Priority and ties in [generate_plan] *)

Variable policy : PriorityPolicy.t.
Local Notation "'prio'" := (TestPlanGenerator._priority policy).

Lemma requeue_perm l : requeue_by_priority policy l ≡ₚ l.
Proof. destruct l; [done|]. apply sorted_desc_perm. Qed.

Lemma requeue_descending l :
  descending prio (requeue_by_priority policy l).
Proof.
  destruct l; [by intros a b []|]. apply sorted_desc_descending.
Qed.

Lemma requeue_stable l a b :
  before (requeue_by_priority policy l) a b → prio a = prio b →
  before l a b.
Proof.
  destruct l; [done|]. intros Hab Heq.
  apply (sorted_desc_stable prio); [done|lia].
Qed.

Lemma sorted_step cur rest ordered :
  queue_ok D (cur :: rest) ordered →
  queue_sorted D policy (cur :: rest) ordered →
  emission_ok D policy ordered cur
  ∧ queue_sorted D policy
      (requeue_by_priority policy (rest ++ released D (ids ordered) cur))
      (ordered ++ [cur]).
Proof.
  intros Hq [Hdesc Htie].
  pose proof (current_fresh D _ _ _ Hq) as Hfresh.
  destruct Hq as [Hnd Hsub Hzero].
  assert (∀ b, b ∈ values D → b ∉ ordered → eligible D ordered b →
            b = cur ∨ b ∈ rest) as Hin.
  { intros b Hb Hnb Hel. apply Hzero in Hel; [|done].
    apply elem_of_app in Hel as [?|Hel]; [done|].
    by apply elem_of_cons in Hel. }
  assert (∀ a, a ∈ rest → eligible D ordered a) as Hrest.
  { intros a Ha. apply Hzero; [apply Hsub|]; apply elem_of_app; right;
      by right. }
  split; [split_and!|split].
  - apply Hzero; [apply Hsub|]; apply elem_of_app; right; by left.
  - intros b Hb Hnb Hel. destruct (Hin b Hb Hnb Hel) as [->|Hr]; [done|].
    apply Hdesc. by left.
  - intros b Hb Hnb Hne Hel Heq.
    destruct (Hin b Hb Hnb Hel) as [->|Hr]; [done|].
    apply Htie; [by left|done].
  - apply requeue_descending.
  - intros a b Hab Heq. apply requeue_stable in Hab; [|done].
    apply before_app in Hab as [Hab|[[Ha Hb]|Hab]].
    + destruct (Htie a b) as [Hfirst Hsame]; [by right|done|].
      split.
      * intros p [Hp| ->]%prefix_snoc_inv Hel; [by apply Hfirst|].
        apply eligible_mono, Hrest. by apply before_elem in Hab as [? _].
      * intros Hp. apply Hsame. intros p Hpre. apply Hp.
        destruct Hpre as [k ->]. exists (k ++ [cur]). by rw assoc.
    + assert (∀ p, p `prefix_of` ordered → ¬ eligible D p b) as Hnot.
      { intros p Hp Hel%(eligible_prefix _ _ _ Hp).
        by apply (released_waits D HD _ _ _ Hfresh Hb). }
      split.
      * intros p [Hp| ->]%prefix_snoc_inv Hel; [by destruct (Hnot p)|].
        by apply eligible_mono, Hrest.
      * intros Hp. destruct (Hnot ordered); [done|].
        apply Hp; [by eexists|by apply Hrest].
    + split.
      * intros p [Hp| ->]%prefix_snoc_inv Hel.
        -- apply before_elem in Hab as [_ Hb].
           destruct (released_waits D HD _ _ _ Hfresh Hb).
           by apply (eligible_prefix _ _ _ Hp).
        -- apply before_elem in Hab as [Ha _].
           apply list_elem_of_filter in Ha as [[_ Ha] _].
           by rw /eligible ids_app.
      * intros _. by apply before_filter in Hab.
Qed.
End Emission.

(** ** What the two functions compute *)

Section Runs.
Import PyDict PyDictFacts.
Variable tasks : list TestTask.t.
Local Notation "'D'" := (tasks_by_id_of tasks).

Lemma build_counts_ok (indegree : PyDict.t Z) :
  keys indegree = keys D →
  (∀ k t, (k, t) ∈ D → get indegree k = Some (Z.of_nat (waiting D [] t))) →
  counts_ok D indegree [].
Proof.
  intros Hk Hc. split; [done|]. intros t Ht. apply Hc.
  apply values_elem; [apply tasks_by_id_well_keyed|done].
Qed.

(** The sorter emits each task when it is eligible, and stops when no
    task that is left is eligible. *)
Lemma sorter_run :
  ∃ out, TaskSorter.emitted tasks = Returns out
         ∧ queue_ok D [] out ∧ each_emission (eligible D) out.
Proof.
  pose proof (tasks_by_id_well_keyed tasks) as HD.
  destruct (build_graph_spec D HD) as (graph & ind & Hb & Hg & Hk & Hc).
  pose proof (build_counts_ok ind Hk Hc) as Hcount.
  destruct (schedule_result D HD (λ r, r) (λ l, reflexivity l)
              (λ _ _, True) (eligible D)) with (length D) (roots D)
              (@nil TestTask.t)
    as (out & Hrun & Hq & Hp).
  - intros cur rest ordered [_ Hsub Hzero] _. split; [|done].
    apply Hzero; [apply Hsub|]; apply elem_of_app; right; by left.
  - by apply (initial_queue_ok D HD (λ r, r)).
  - done.
  - intros pre t post Heq. by destruct pre.
  - simpl. lia.
  - exists out. split; [|done].
    rw /TaskSorter.emitted Hb bind_Returns (sorter_initial D HD) //.
    rw bind_Returns sorter_drain_kahn.
    rw (kahn_schedule D HD (λ r, r) (λ l, reflexivity l)) //.
    + by rw Hrun.
    + by apply (initial_queue_ok D HD (λ r, r)).
Qed.

(** The generator emits each task when it is eligible, no eligible task
    having a higher priority, and ties settled by [tie_order]. *)
Lemma generator_run policy :
  ∃ plan, TestPlanGenerator.emitted policy tasks = Returns plan
          ∧ queue_ok D [] plan
          ∧ each_emission (emission_ok D policy) plan.
Proof.
  pose proof (tasks_by_id_well_keyed tasks) as HD.
  destruct (build_graph_spec D HD) as (graph & ind & Hb & Hg & Hk & Hc).
  pose proof (build_counts_ok ind Hk Hc) as Hcount.
  pose proof (initial_queue_ok D HD
                (sorted_desc (TestPlanGenerator._priority policy))
                (sorted_desc_perm _)) as Hq0.
  destruct (schedule_result D HD (requeue_by_priority policy)
              (requeue_perm policy)
              (queue_sorted D policy) (emission_ok D policy))
    with (length D)
         (sorted_desc (TestPlanGenerator._priority policy) (roots D))
         (@nil TestTask.t)
    as (plan & Hrun & Hq & Hp).
  - intros cur rest ordered. by apply sorted_step.
  - done.
  - split; [apply sorted_desc_descending|].
    intros a b Hab Heq.
    apply (sorted_desc_stable (TestPlanGenerator._priority policy)) in Hab;
      [|lia].
    split.
    + intros p [k Hk']. destruct p; [|done]. intros _.
      apply before_elem in Hab as [Ha _].
      by apply list_elem_of_filter in Ha as [? _].
    + intros _. by apply before_filter in Hab.
  - intros pre t post Heq. by destruct pre.
  - simpl. lia.
  - exists plan. split; [|done].
    rw /TestPlanGenerator.emitted Hb bind_Returns (generator_initial D HD) //.
    rw bind_Returns generator_drain_kahn.
    rw (kahn_schedule D HD (requeue_by_priority policy)
          (requeue_perm policy)) //.
    by rw Hrun.
Qed.
End Runs.

(** ** Cycles *)

Section Chains.
Variable R : relation string.

Lemma chain_tc x l y : chain R (x :: l) → y ∈ l → tc R x y.
Proof.
  revert x. induction l as [|z l IH]; intros x; [by intros _ []%elem_of_nil|].
  intros [Hxz Hl] [->|Hy]%elem_of_cons; [by apply tc_once|].
  eapply tc_l; [done|]. by apply IH.
Qed.

Lemma chain_tail x l : chain R (x :: l) → chain R l.
Proof. destruct l; [done|]. by intros [_ ?]. Qed.

(** A chain that repeats an id goes through a cycle. *)
Lemma chain_repeat l : chain R l → ¬ NoDup l → ∃ x, x ∈ l ∧ tc R x x.
Proof.
  induction l as [|x l IH]; intros Hl Hdup; [destruct Hdup; constructor|].
  destruct (decide (x ∈ l)) as [Hin|Hnin].
  - exists x. split; [by left|]. by apply (chain_tc x l).
  - destruct IH as (y & Hy & Hcyc); [by eapply chain_tail| |].
    + intros Hnd. apply Hdup. by constructor.
    + exists y. split; [by right|done].
Qed.

Lemma tc_target x y : tc R x y → ∃ z, R z y.
Proof. induction 1; eauto. Qed.
End Chains.

Section Cycles.
Import PyDict PyDictFacts.
Variable D : PyDict.t TestTask.t.
Hypothesis HD : well_keyed D.
Variable out : list TestTask.t.
Hypothesis Hq : queue_ok D [] out.
Hypothesis Hp : each_emission (eligible D) out.
Local Notation "'ts'" := (values D).

Lemma out_tasks t : t ∈ out → t ∈ ts.
Proof. intros Ht. apply (queue_tasks _ _ _ Hq). by rw app_nil_r. Qed.

Lemma out_nodup : NoDup (ids out).
Proof. pose proof (queue_nodup _ _ _ Hq) as H. by rw app_nil_r in H. Qed.

Lemma out_zero t : t ∈ ts → t ∈ out ↔ eligible D out t.
Proof.
  intros Ht. pose proof (queue_zero _ _ _ Hq t Ht) as H.
  by rw app_nil_r in H.
Qed.

Lemma key_task k : k ∈ keys D → ∃ t, t ∈ ts ∧ TestTask.id t = k.
Proof.
  rw -(ids_values D HD). intros (t & -> & Ht)%list_elem_of_fmap. eauto.
Qed.

Lemma id_out t : t ∈ ts → TestTask.id t ∈ ids out → t ∈ out.
Proof.
  intros Ht (t' & Heq & Ht')%list_elem_of_fmap.
  by rw (values_id_inj D HD t t' Ht (out_tasks _ Ht') Heq).
Qed.

(** The dependencies of an emitted task were emitted before it. *)
Lemma edge_emitted d pre t post :
  out = pre ++ t :: post → dep_edge ts d (TestTask.id t) → d ∈ ids pre.
Proof.
  intros Hout (task & Htask & Hid & Hd & Hk).
  assert (task = t) as ->.
  { apply (values_id_inj D HD); [done| |done].
    apply out_tasks. rw Hout. apply elem_of_app. right. by left. }
  apply (waiting_zero D (ids pre) t); [by apply (Hp pre t post)|done|].
  by rw -(ids_values D HD).
Qed.

Lemma path_emitted x y :
  tc (dep_edge ts) x y →
  ∀ pre t post, out = pre ++ t :: post → TestTask.id t = y → x ∈ ids pre.
Proof.
  induction 1 as [x y Hxy|x z y Hxz Hzy IH]; intros pre t post Hout <-.
  - by eapply edge_emitted.
  - pose proof (IH pre t post Hout eq_refl) as Hz.
    apply list_elem_of_fmap in Hz as (tz & -> & Htz).
    apply list_elem_of_split in Htz as (pre1 & post1 & ->).
    rw ids_app. apply elem_of_app. left.
    apply (edge_emitted x pre1 tz (post1 ++ t :: post)); [|done].
    by rw Hout -assoc.
Qed.

(** A task on a cycle is never emitted. *)
Lemma cycle_not_emitted k : tc (dep_edge ts) k k → k ∉ ids out.
Proof.
  intros Hcyc (t & -> & Ht)%list_elem_of_fmap.
  apply list_elem_of_split in Ht as (pre & post & Hout).
  pose proof (path_emitted _ _ Hcyc pre t post Hout eq_refl) as Hin.
  pose proof out_nodup as Hnd. rw Hout ids_app in Hnd.
  apply NoDup_app in Hnd as (_ & Hdisj & _). apply (Hdisj _ Hin). by left.
Qed.

(** Nor is a task that depends on a task that is never emitted. *)
Lemma downstream_not_emitted c k :
  c ∉ ids out → rtc (dep_edge ts) c k → k ∉ ids out.
Proof.
  intros Hc Hck. revert Hc.
  induction Hck as [|c d k Hcd Hdk IH]; [done|]. intros Hc. apply IH.
  intros (t & -> & Ht)%list_elem_of_fmap.
  apply list_elem_of_split in Ht as (pre & post & Hout).
  apply Hc. rw Hout ids_app. apply elem_of_app. left.
  by apply (edge_emitted c pre t post).
Qed.

(** A task that is not emitted waits for one that is not emitted. *)
Lemma unemitted_edge k :
  k ∈ keys D → k ∉ ids out →
  ∃ d, dep_edge ts d k ∧ d ∈ keys D ∧ d ∉ ids out.
Proof.
  intros (t & Ht & <-)%key_task Hno.
  assert (waiting D (ids out) t ≠ 0%nat) as Hw.
  { intros Hw. apply Hno, elem_ids, out_zero; done. }
  rw /waiting in Hw.
  destruct (filter _ (in_set_deps D t)) as [|d l] eqn:Hf; [done|].
  assert (d ∈ d :: l) as Hd by (by left). rw -Hf in Hd.
  apply list_elem_of_filter in Hd as [Hdo Hd].
  apply list_elem_of_filter in Hd as [Hdk Hd].
  exists d. split_and!; [|done|done].
  exists t. split_and!; try done. by rw (ids_values D HD).
Qed.

Lemma unemitted_chain k n :
  k ∈ keys D → k ∉ ids out →
  ∃ l, length l = S n ∧ chain (dep_edge ts) l
       ∧ Forall (λ x, x ∈ keys D ∧ (x ∉ ids out) ∧ rtc (dep_edge ts) x k) l.
Proof.
  intros Hk Hno. induction n as [|n (l & Hlen & Hch & Hall)].
  - exists [k]. split_and!; [done..|]. by constructor.
  - destruct l as [|x l]; [done|].
    apply Forall_cons in Hall as [(Hxk & Hxo & Hxr) Hall].
    destruct (unemitted_edge x Hxk Hxo) as (d & Hdx & Hdk & Hdo).
    exists (d :: x :: l). split_and!; [by rw /= -Hlen|done|].
    constructor; [|by constructor].
    split_and!; [done..|]. by eapply rtc_l.
Qed.

(** A task is left over exactly when a cycle leads to it. *)
Lemma unemitted_iff_cycle k :
  k ∈ keys D ∧ k ∉ ids out
  ↔ ∃ c, tc (dep_edge ts) c c ∧ rtc (dep_edge ts) c k.
Proof.
  split.
  - intros [Hk Hno].
    destruct (unemitted_chain k (length D) Hk Hno) as (l & Hlen & Hch & Hall).
    destruct (chain_repeat _ l Hch) as (c & Hc & Hcyc).
    + intros Hnd.
      assert (length l ≤ length (keys D))%nat as Hle.
      { apply submseteq_length, NoDup_submseteq; [done|].
        intros x Hx. by apply (proj1 (Forall_forall _ _) Hall x Hx). }
      rw length_fmap in Hle. lia.
    + exists c. split; [done|].
      by apply (proj1 (Forall_forall _ _) Hall c Hc).
  - intros (c & Hcyc & Hck). split.
    + apply rtc_tc in Hck as [<-|Hck].
      * apply tc_target in Hcyc as (z & t & Ht & <- & _).
        rw -(ids_values D HD). by apply elem_ids.
      * apply tc_target in Hck as (z & t & Ht & <- & _).
        rw -(ids_values D HD). by apply elem_ids.
    + eapply downstream_not_emitted; [|done]. by apply cycle_not_emitted.
Qed.

(** Everything is emitted exactly when there is no cycle. *)
Lemma complete_iff_acyclic : (∀ t, t ∈ ts → t ∈ out) ↔ acyclic ts.
Proof.
  split.
  - intros Hall k Hcyc.
    destruct (proj2 (unemitted_iff_cycle k)) as [Hk Hno];
      [exists k; split; [done|apply rtc_refl]|].
    apply key_task in Hk as (t & Ht & <-). by apply Hno, elem_ids, Hall.
  - intros Hac t Ht. apply id_out; [done|].
    destruct (decide (TestTask.id t ∈ ids out)) as [|Hno]; [done|].
    destruct (proj1 (unemitted_iff_cycle (TestTask.id t))) as (c & Hcyc & _).
    + split; [|done]. rw -(ids_values D HD). by apply elem_ids.
    + by destruct (Hac c).
Qed.

(** The length test of the code separates the two cases. *)
Lemma complete_iff_length : (∀ t, t ∈ ts → t ∈ out) ↔ length out = length D.
Proof.
  assert (NoDup out) as Hnd by (eapply NoDup_fmap_1, out_nodup).
  assert (NoDup ts) as Hnts.
  { apply (NoDup_fmap_1 TestTask.id). fold (ids ts).
    rw (ids_values D HD). apply HD. }
  rw -(length_fmap snd D). split.
  - intros Hall. apply Permutation_length, NoDup_Permutation; [done..|].
    intros t. split; [apply out_tasks|apply Hall].
  - intros Hlen t Ht.
    assert (out ≡ₚ ts) as Hperm; [|by rw Hperm].
    apply submseteq_length_Permutation; [|by rw Hlen].
    apply NoDup_submseteq; [done|]. apply out_tasks.
Qed.

Lemma check_complete_acyclic :
  acyclic ts → check_complete D out = Returns out.
Proof.
  intros Hac.
  pose proof (proj1 complete_iff_length (proj2 complete_iff_acyclic Hac)).
  rw /check_complete. by case_decide.
Qed.

Lemma check_complete_cyclic :
  ¬ acyclic ts →
  ∃ missing, check_complete D out = Raises (ValueError missing)
    ∧ ∀ k, k ∈ missing ↔ k ∈ keys D ∧ k ∉ ids out.
Proof.
  intros Hcyc. rw /check_complete. case_decide as Hlen.
  - eexists. split; [done|]. intros k.
    by rw elem_of_difference !elem_of_list_to_set.
  - destruct Hcyc. apply complete_iff_acyclic, complete_iff_length.
    by destruct (decide (length out = length D)).
Qed.
End Cycles.

(** ** The ordering theorems *)

Section Ordering.
Import PyDict PyDictFacts.
Variable tasks : list TestTask.t.
Hypothesis Hunique : NoDup (ids tasks).
Local Notation "'D'" := (tasks_by_id_of tasks).

Lemma eligible_ready_after pre t :
  eligible D pre t ↔ ready_after tasks pre t.
Proof.
  rw /eligible (waiting_zero D) /ready_after. by rw keys_unique.
Qed.

Lemma emissions_dependencies_first out :
  each_emission (eligible D) out → dependencies_first tasks out.
Proof.
  intros Hp i t d Hi Hd Hk.
  pose proof (take_drop_middle out i t Hi) as Hout. symmetry in Hout.
  apply Hp, eligible_ready_after in Hout.
  destruct (proj1 (list_elem_of_fmap _ _ _) (Hout d Hd Hk))
    as (u & -> & Hu).
  apply list_elem_of_lookup in Hu as [j Hj].
  exists j, u. pose proof (lookup_lt_Some _ _ _ Hj) as Hlt.
  rw length_take in Hlt. split_and!; [lia| |done].
  rw lookup_take_lt in Hj; [done|lia].
Qed.

Lemma sort_outcome out :
  TaskSorter.emitted tasks = Returns out →
  TaskSorter.sort tasks = check_complete D out.
Proof. intros H. by rw /TaskSorter.sort H. Qed.

Lemma generate_plan_outcome policy plan :
  TestPlanGenerator.emitted policy tasks = Returns plan →
  TestPlanGenerator.generate_plan policy tasks = check_complete D plan.
Proof. intros H. by rw /TestPlanGenerator.generate_plan H. Qed.

Lemma generator_emissions_eligible policy plan :
  each_emission (emission_ok D policy) plan →
  each_emission (eligible D) plan.
Proof. intros Hp pre t post Heq. by destruct (Hp pre t post Heq). Qed.
End Ordering.

(** A ranking of the ids that every dependency respects shows that a task
    set has no cycle. *)
Lemma acyclic_ranked (tasks : list TestTask.t) (rank : string → nat) :
  Forall (λ t, Forall (λ d, d ∈ ids tasks → (rank d < rank (TestTask.id t))%nat)
                 (TestTask.dependencies t)) tasks →
  acyclic tasks.
Proof.
  intros Hall k Hcyc.
  assert (∀ x y, tc (dep_edge tasks) x y → (rank x < rank y)%nat) as Hlt.
  { induction 1 as [x y Hxy|x z y Hxz _ IH].
    - destruct Hxy as (t & Ht & <- & Hd & Hk).
      rw Forall_forall in Hall. specialize (Hall t Ht).
      rw Forall_forall in Hall. by apply Hall.
    - trans (rank z); [|done].
      destruct Hxz as (t & Ht & <- & Hd & Hk).
      rw Forall_forall in Hall. specialize (Hall t Ht).
      rw Forall_forall in Hall. by apply Hall. }
  specialize (Hlt k k Hcyc). lia.
Qed.

Lemma before_total {A} (l : list A) (a b : A) :
  a ∈ l → b ∈ l → a ≠ b → before l a b ∨ before l b a.
Proof.
  induction l as [|x l IH]; [by intros []%elem_of_nil|].
  intros [->|Ha]%elem_of_cons [->|Hb]%elem_of_cons Hne; simpl; try done.
  - left. by left.
  - right. by left.
  - destruct (IH Ha Hb Hne); auto.
Qed.

Lemma prefix_before_element {A} (p pre post : list A) (b : A) :
  p `prefix_of` pre ++ b :: post → b ∉ p → p `prefix_of` pre.
Proof.
  intros Hp Hb.
  destruct (prefix_weak_total p pre (pre ++ b :: post) Hp) as [|[k ->]];
    [by apply prefix_app_r|done|].
  destruct k as [|x k]; [by rw app_nil_r|]. destruct Hb.
  apply prefix_app_inv, prefix_cons_inv_1 in Hp as ->.
  apply elem_of_app. right. by left.
Qed.

Lemma check_complete_cases D plan :
  check_complete D plan = Returns plan
  ∨ ∃ missing, check_complete D plan = Raises (ValueError missing).
Proof. rw /check_complete. case_decide; eauto. Qed.

(** On every input, also with repeated ids or cycles, the loops end within
    the fuel they are given and no dictionary access fails: the two
    functions return a list or raise the [ValueError] of the final check. *)
Lemma sort_outcomes (tasks : list TestTask.t) :
  ∃ out, TaskSorter.emitted tasks = Returns out
         ∧ (TaskSorter.sort tasks = Returns out
            ∨ ∃ missing, TaskSorter.sort tasks = Raises (ValueError missing)).
Proof.
  destruct (sorter_run tasks) as (out & Hrun & _).
  exists out. split; [done|]. rw /TaskSorter.sort Hrun.
  apply check_complete_cases.
Qed.

Lemma generate_plan_outcomes (policy : PriorityPolicy.t)
    (tasks : list TestTask.t) :
  ∃ plan, TestPlanGenerator.emitted policy tasks = Returns plan
          ∧ (TestPlanGenerator.generate_plan policy tasks = Returns plan
             ∨ ∃ missing, TestPlanGenerator.generate_plan policy tasks
                          = Raises (ValueError missing)).
Proof.
  destruct (generator_run tasks policy) as (plan & Hrun & _).
  exists plan. split; [done|]. rw /TestPlanGenerator.generate_plan Hrun.
  apply check_complete_cases.
Qed.

(** A run over a task set without a cycle emits every task, once. *)
Lemma acyclic_run_permutation (D : PyDict.t TestTask.t)
    (out : list TestTask.t) :
  well_keyed D → queue_ok D [] out → each_emission (eligible D) out →
  acyclic (PyDict.values D) → out ≡ₚ PyDict.values D.
Proof.
  intros HD Hq Hp Hac. apply NoDup_Permutation.
  - eapply NoDup_fmap_1, (out_nodup D out Hq).
  - apply (NoDup_fmap_1 TestTask.id). fold (ids (PyDict.values D)).
    rw (ids_values D HD). apply HD.
  - intros t. split; [apply (out_tasks D out Hq)|].
    by apply (complete_iff_acyclic D HD out Hq Hp).
Qed.

(** C1. Topological validity: for a task set with unique ids and no cycle
    among its in-set dependencies, [TaskSorter.sort] and
    [TestPlanGenerator.generate_plan] return a list that holds every task
    of the input, each once, and in which every dependency of a task that
    is an id of the set is at an index strictly before the task. *)
Theorem topological_validity (policy : PriorityPolicy.t)
    (tasks : list TestTask.t) :
  NoDup (ids tasks) → acyclic tasks →
  (∃ out, TaskSorter.sort tasks = Returns out
          ∧ out ≡ₚ tasks
          ∧ dependencies_first tasks out)
  ∧ (∃ plan, TestPlanGenerator.generate_plan policy tasks = Returns plan
             ∧ plan ≡ₚ tasks
             ∧ dependencies_first tasks plan).
Proof.
  intros Hunique Hac.
  pose proof (tasks_by_id_well_keyed tasks) as HD.
  pose proof (values_unique tasks Hunique) as Hv.
  rw -Hv in Hac. split.
  - destruct (sorter_run tasks) as (out & Hrun & Hq & Hp).
    exists out. split_and!; [| |by apply emissions_dependencies_first].
    + rw (sort_outcome tasks out Hrun).
      by apply check_complete_acyclic.
    + rw -Hv. by apply acyclic_run_permutation.
  - destruct (generator_run tasks policy) as (plan & Hrun & Hq & Hp).
    apply generator_emissions_eligible in Hp.
    exists plan. split_and!; [| |by apply emissions_dependencies_first].
    + rw (generate_plan_outcome tasks policy plan Hrun).
      by apply check_complete_acyclic.
    + rw -Hv. by apply acyclic_run_permutation.
Qed.

(** C2. Completeness and cycle failure: for a task set with unique ids,
    without a cycle both functions return a list as long as the input; with
    a cycle both raise the error that carries exactly the ids the loop did
    not emit, and return no list. *)
Theorem completeness_or_cycle_error (policy : PriorityPolicy.t)
    (tasks : list TestTask.t) :
  NoDup (ids tasks) →
  (acyclic tasks →
     (∃ out, TaskSorter.sort tasks = Returns out
             ∧ length out = length tasks)
     ∧ (∃ plan, TestPlanGenerator.generate_plan policy tasks = Returns plan
                ∧ length plan = length tasks))
  ∧ (¬ acyclic tasks →
       raises_unemitted tasks (TaskSorter.emitted tasks)
         (TaskSorter.sort tasks)
       ∧ raises_unemitted tasks (TestPlanGenerator.emitted policy tasks)
           (TestPlanGenerator.generate_plan policy tasks)).
Proof.
  intros Hunique.
  pose proof (tasks_by_id_well_keyed tasks) as HD.
  assert (length (tasks_by_id_of tasks) = length tasks) as Hlen.
  { by rw tasks_by_id_unique // length_fmap. }
  destruct (sorter_run tasks) as (out & Hrun & Hq & Hp).
  destruct (generator_run tasks policy) as (plan & Hrun' & Hq' & Hp').
  apply generator_emissions_eligible in Hp'.
  rw (sort_outcome tasks out Hrun).
  rw (generate_plan_outcome tasks policy plan Hrun').
  pose proof (values_unique tasks Hunique) as Hv.
  pose proof (keys_unique tasks Hunique) as Hk. split.
  - intros Hac. rw -Hv in Hac. split.
    + exists out. split; [by apply check_complete_acyclic|].
      rw -Hlen. by apply (complete_iff_length _ HD out Hq),
                         (complete_iff_acyclic _ HD out Hq Hp).
    + exists plan. split; [by apply check_complete_acyclic|].
      rw -Hlen. by apply (complete_iff_length _ HD plan Hq'),
                         (complete_iff_acyclic _ HD plan Hq' Hp').
  - intros Hcyc. rw -Hv in Hcyc. split.
    + destruct (check_complete_cyclic _ HD out Hq Hp Hcyc) as (m & Hm & Hin).
      exists out, m. split_and!; [done..|]. intros k. by rw Hin Hk.
    + destruct (check_complete_cyclic _ HD plan Hq' Hp' Hcyc) as (m & Hm & Hin).
      exists plan, m. split_and!; [done..|]. intros k. by rw Hin Hk.
Qed.

(** C5, as the code has it. Priority bias: in the plan that [generate_plan]
    builds for a task set with unique ids, under any policy, the task
    emitted at each step has the highest priority among the tasks that are
    eligible and not yet emitted; so of two tasks that are eligible together
    at some point of the run (after a prefix [p] of the plan; at the start,
    when neither has an in-set dependency) the one with the higher priority
    comes first. The plan is the list the call returns: without a cycle the
    call returns it, and it holds every task of the input once; with a
    cycle the call raises. Two tasks that are not eligible together are not
    ordered by priority, also when neither depends on the other. *)
Theorem priority_bias (policy : PriorityPolicy.t) (tasks : list TestTask.t) :
  NoDup (ids tasks) →
  ∃ plan,
    TestPlanGenerator.emitted policy tasks = Returns plan
    ∧ (TestPlanGenerator.generate_plan policy tasks = Returns plan
       ∨ ∃ missing, TestPlanGenerator.generate_plan policy tasks
                    = Raises (ValueError missing))
    ∧ (acyclic tasks →
       TestPlanGenerator.generate_plan policy tasks = Returns plan
       ∧ plan ≡ₚ tasks)
    ∧ (∀ pre t post u,
         plan = pre ++ t :: post →
         u ∈ tasks → u ∉ pre → ready_after tasks pre u →
         TestPlanGenerator._priority policy u
         ≤ TestPlanGenerator._priority policy t)
    ∧ (∀ p a b,
         p `prefix_of` plan →
         a ∈ tasks → b ∈ tasks → a ∉ p → b ∉ p →
         ready_after tasks p a → ready_after tasks p b →
         TestPlanGenerator._priority policy b
         < TestPlanGenerator._priority policy a →
         before plan a b)
    ∧ (∀ a b,
         a ∈ tasks → b ∈ tasks →
         ready_after tasks [] a → ready_after tasks [] b →
         TestPlanGenerator._priority policy b
         < TestPlanGenerator._priority policy a →
         before plan a b).
Proof.
  intros Hunique.
  pose proof (tasks_by_id_well_keyed tasks) as HD.
  pose proof (values_unique tasks Hunique) as Hv.
  destruct (generator_run tasks policy) as (plan & Hrun & Hq & Hp).
  assert (∀ p a b,
            p `prefix_of` plan →
            a ∈ tasks → b ∈ tasks → a ∉ p → b ∉ p →
            ready_after tasks p a → ready_after tasks p b →
            TestPlanGenerator._priority policy b
            < TestPlanGenerator._priority policy a →
            before plan a b) as Htogether.
  { intros p a b Hp' Ha Hb Hna Hnb Hra Hrb Hlt.
    assert (∀ t, t ∈ tasks → ready_after tasks p t → t ∈ plan) as Hin.
    { intros t Ht Hr. apply (out_zero _ plan Hq); [by rw Hv|].
      apply (eligible_prefix _ p); [done|].
      by apply eligible_ready_after. }
    destruct (before_total plan a b) as [Hab|Hba]; [by apply Hin..| |done|].
    { intros ->. lia. }
    apply before_split in Hba as (pre & post & Hplan & Hpost).
    pose proof (out_nodup _ plan Hq) as Hnd.
    assert (p `prefix_of` pre) as Hpre.
    { apply (prefix_before_element p pre post b); [by rw -Hplan|done]. }
    destruct (Hp pre b post Hplan) as (_ & Hmax & _).
    assert (TestPlanGenerator._priority policy a
            ≤ TestPlanGenerator._priority policy b); [|lia].
    apply Hmax; [by rw Hv| |].
    + intros Hin'. rw Hplan ids_app in Hnd.
      apply NoDup_app in Hnd as (_ & Hdisj & _).
      apply (Hdisj (TestTask.id a)); [by apply elem_ids|].
      right. by apply elem_ids.
    + apply (eligible_prefix _ p); [done|]. by apply eligible_ready_after. }
  exists plan. split_and!; [done| | | |done|].
  - rw (generate_plan_outcome tasks policy plan Hrun).
    apply check_complete_cases.
  - intros Hac. rw -Hv in Hac.
    pose proof (generator_emissions_eligible tasks policy plan Hp) as Hel.
    split.
    + rw (generate_plan_outcome tasks policy plan Hrun).
      by apply check_complete_acyclic.
    + rw -Hv. by apply acyclic_run_permutation.
  - intros pre t post u Hplan Hu Hnu Hready.
    destruct (Hp pre t post Hplan) as (_ & Hmax & _).
    apply Hmax; [by rw Hv|done|by apply eligible_ready_after].
  - intros a b Ha Hb Hra Hrb Hlt.
    apply (Htogether [] a b); try done; try apply not_elem_of_nil.
    apply prefix_nil.
Qed.

(** C6, as the code has it. Ties are settled by the order in which tasks
    entered the ready queue: when [a] is emitted while a task [b] of the
    same priority is eligible and not yet emitted, [a] was eligible
    whenever [b] was; and if the two became eligible together, [a] comes
    before [b] in the input. *)
Theorem tie_break_by_queue_order (policy : PriorityPolicy.t)
    (tasks : list TestTask.t) :
  NoDup (ids tasks) →
  ∃ plan,
    TestPlanGenerator.emitted policy tasks = Returns plan
    ∧ (TestPlanGenerator.generate_plan policy tasks = Returns plan
       ∨ ∃ missing, TestPlanGenerator.generate_plan policy tasks
                    = Raises (ValueError missing))
    ∧ ∀ pre a post b,
        plan = pre ++ a :: post →
        b ∈ tasks → b ∉ pre → b ≠ a → ready_after tasks pre b →
        TestPlanGenerator._priority policy a
        = TestPlanGenerator._priority policy b →
        (∀ p, p `prefix_of` pre →
           ready_after tasks p b → ready_after tasks p a)
        ∧ ((∀ p, p `prefix_of` pre →
              ready_after tasks p a → ready_after tasks p b) →
           before tasks a b).
Proof.
  intros Hunique.
  pose proof (values_unique tasks Hunique) as Hv.
  destruct (generator_run tasks policy) as (plan & Hrun & Hq & Hp).
  exists plan. split_and!; [done| |].
  - rw (generate_plan_outcome tasks policy plan Hrun).
    apply check_complete_cases.
  - intros pre a post b Hplan Hb Hnb Hne Hready Heq.
    destruct (Hp pre a post Hplan) as (_ & _ & Htie).
    destruct (Htie b) as [Hfirst Hsame];
      [by rw Hv|done|done|by apply eligible_ready_after|done|].
    split.
    + intros p Hpre Hrb. apply eligible_ready_after; [done|].
      apply Hfirst; [done|]. by apply eligible_ready_after.
    + intros Hboth. rw -Hv. apply Hsame. intros p Hpre Hea.
      apply eligible_ready_after; [done|]. apply Hboth; [done|].
      by apply eligible_ready_after.
Qed.

(** ** The dependency gate *)

Section Gate.
Variable notifier : list status_change → status_change → bool.
Implicit Types (w : world) (task : TestTask.t).

Lemma all_done_true (s : gmap string TestTask.t) deps :
  TaskDependencies.all_done s deps = true
  ↔ ∀ d, d ∈ deps →
      ∃ dep, s !! d = Some dep ∧ TestTask.status dep = TaskStatus.DONE.
Proof.
  induction deps as [|d deps IH]; simpl.
  - split; [|done]. by intros _ d []%elem_of_nil.
  - rw /TestTaskDAL.get_task. destruct (s !! d) as [dep|] eqn:Hd.
    + case_decide as Hst.
      * split; [done|]. intros Hall.
        destruct (Hall d) as (dep' & Hd' & Hdone); [by left|]. congruence.
      * rw IH. split.
        -- intros Hall d' [->|Hin]%elem_of_cons; [eauto|by apply Hall].
        -- intros Hall d' Hin. apply Hall. by right.
    + split; [done|]. intros Hall.
      destruct (Hall d) as (dep' & Hd' & _); [by left|]. congruence.
Qed.

Lemma dependencies_complete_present w task_id task :
  session w !! task_id = Some task →
  ∃ b, TaskDependencies.dependencies_complete w task_id = Some b
       ∧ (b = true ↔ deps_done (session w) task).
Proof.
  intros Hget. rw /TaskDependencies.dependencies_complete.
  rw /TestTaskDAL.get_task Hget /deps_done.
  destruct (TestTask.dependencies task) as [|d deps] eqn:Hdeps.
  - exists true. split; [done|]. split; [|done].
    by intros _ d []%elem_of_nil.
  - eexists. split; [done|]. apply all_done_true.
Qed.

Lemma can_start_true w task_id task :
  session w !! task_id = Some task →
  DependencyResolver.can_start w task_id = true ↔ deps_done (session w) task.
Proof.
  intros Hget. rw /DependencyResolver.can_start.
  by destruct (dependencies_complete_present w task_id task Hget)
    as (b & -> & <-).
Qed.

Lemma mark_in_progress_if_ready_shape w task_id :
  TaskDependencies.mark_in_progress_if_ready w task_id
  = write_if_ready TaskStatus.IN_PROGRESS w task_id.
Proof. done. Qed.

Lemma complete_task_shape w task_id :
  TaskDependencies.complete_task w task_id
  = write_if_ready TaskStatus.DONE w task_id.
Proof. done. Qed.

Lemma write_if_ready_blocked target w task_id task :
  session w !! task_id = Some task → ¬ deps_done (session w) task →
  write_if_ready target w task_id = (false, w).
Proof.
  intros Hget Hno. rw /write_if_ready.
  rw /TestTaskDAL.get_task Hget.
  destruct (dependencies_complete_present w task_id task Hget)
    as (b & -> & Hb).
  destruct b; [|done]. destruct Hno. by apply Hb.
Qed.

Lemma write_if_ready_ready target w task_id task :
  session w !! task_id = Some task → deps_done (session w) task →
  write_if_ready target w task_id
  = (true, mk_world (<[task_id := set_status task target]> (session w))
             (S (commits w)) (notified w) (warnings w)).
Proof.
  intros Hget Hyes. rw /write_if_ready.
  rw /TestTaskDAL.get_task Hget.
  destruct (dependencies_complete_present w task_id task Hget)
    as (b & -> & Hb).
  destruct b; [done|]. by apply Hb in Hyes.
Qed.

Lemma update_status_present w task_id task arg status changed_by :
  session w !! task_id = Some task →
  coerce_status arg = Some status →
  ∃ w', TaskStatusManager.update_status notifier w task_id arg changed_by
        = (Returns true, w')
        ∧ session w' = <[task_id := set_status task status]> (session w)
        ∧ commits w' = S (commits w)
        ∧ notified w'
          = notified w
            ++ (if decide (TestTask.status task ≠ status)
                then [mk_status_change task_id (TestTask.description task)
                        (TestTask.status task) status (TestTask.owner task)
                        changed_by]
                else []).
Proof.
  intros Hget Hco. rw /TaskStatusManager.update_status.
  rw /TestTaskDAL.get_task Hget Hco /=.
  case_decide; [|eexists; by rw app_nil_r].
  destruct (notifier _ _); by eexists.
Qed.
End Gate.

(** C3, as stated, fails: in the store of scenario 6 every dependency of
    [Z] that is in the store is done (there is none), and
    [dependencies_complete] does not return true. *)
Lemma absent_dependency_not_satisfied :
  ¬ (TaskDependencies.dependencies_complete ghost_world "Z" = Some true
     ↔ present_deps_done (session ghost_world) ghost_task).
Proof.
  intros [_ Hback].
  assert (present_deps_done (session ghost_world) ghost_task) as Hp.
  { intros d dep [->|[]%elem_of_nil]%elem_of_cons. by vm_compute. }
  specialize (Hback Hp). by vm_compute in Hback.
Qed.

(** C3, as the code has it: for a task in the store
    [dependencies_complete] returns true exactly when every dependency id of
    the task is a task of the store with status done, so a dependency that
    is not in the store blocks; for a task that is not in the store the
    result is the separate value [None]. *)
Theorem dependencies_complete_spec (w : world) (task_id : string) :
  (session w !! task_id = None →
   TaskDependencies.dependencies_complete w task_id = None)
  ∧ (∀ task, session w !! task_id = Some task →
       ∃ b, TaskDependencies.dependencies_complete w task_id = Some b
            ∧ (b = true ↔ deps_done (session w) task)
            ∧ ((∃ d, d ∈ TestTask.dependencies task ∧ session w !! d = None)
               → b = false)).
Proof.
  split.
  - intros Hnone. rw /TaskDependencies.dependencies_complete.
    by rw /TestTaskDAL.get_task Hnone.
  - intros task Hget.
    destruct (dependencies_complete_present w task_id task Hget)
      as (b & Hb & Hiff).
    exists b. split_and!; [done..|].
    intros (d & Hd & Hnone). destruct b; [|done].
    destruct (proj1 Hiff eq_refl d Hd) as (dep & Hdep & _). congruence.
Qed.

(** C4, as stated, fails in its second half: in the store of scenario 6 no
    dependency of [Z] that is in the store is short of done, and yet
    [start_if_ready] returns false and changes nothing. *)
Lemma start_blocked_by_absent_dependency :
  ¬ (present_deps_done (session ghost_world) ghost_task →
     ∃ w', DependencyResolver.start_if_ready (λ _ _, true) ghost_world "Z"
           = (Returns true, w')).
Proof.
  intros Hclaim. destruct Hclaim as (w' & Hrun).
  - intros d dep [->|[]%elem_of_nil]%elem_of_cons. by vm_compute.
  - by vm_compute in Hrun.
Qed.

(** C4, as the code has it. Gate correctness: for a task in the store,
    when some dependency id is not in the store or names a task that is not
    done, [start_if_ready], [complete_if_ready], [mark_in_progress_if_ready]
    and [complete_task] return false and leave the whole state as it was
    (no status change, no commit, no notification); otherwise they return
    true and the status of the task is in progress (done for the two
    completing calls). *)
Theorem gate_correctness
    (notifier : list status_change → status_change → bool)
    (w : world) (task_id : string) (task : TestTask.t) :
  session w !! task_id = Some task →
  (¬ deps_done (session w) task →
     DependencyResolver.start_if_ready notifier w task_id = (Returns false, w)
     ∧ DependencyResolver.complete_if_ready notifier w task_id
       = (Returns false, w)
     ∧ TaskDependencies.mark_in_progress_if_ready w task_id = (false, w)
     ∧ TaskDependencies.complete_task w task_id = (false, w))
  ∧ (deps_done (session w) task →
       (∃ w', DependencyResolver.start_if_ready notifier w task_id
              = (Returns true, w')
              ∧ session w'
                = <[task_id := set_status task TaskStatus.IN_PROGRESS]>
                    (session w))
       ∧ (∃ w', DependencyResolver.complete_if_ready notifier w task_id
                = (Returns true, w')
                ∧ session w'
                  = <[task_id := set_status task TaskStatus.DONE]>
                      (session w))
       ∧ (∃ w', TaskDependencies.mark_in_progress_if_ready w task_id
                = (true, w')
                ∧ session w'
                  = <[task_id := set_status task TaskStatus.IN_PROGRESS]>
                      (session w))
       ∧ (∃ w', TaskDependencies.complete_task w task_id = (true, w')
                ∧ session w'
                  = <[task_id := set_status task TaskStatus.DONE]>
                      (session w))).
Proof.
  intros Hget. split.
  - intros Hno.
    assert (DependencyResolver.can_start w task_id = false) as Hcs.
    { apply not_true_is_false. by rw (can_start_true w task_id task Hget). }
    rw /DependencyResolver.start_if_ready /DependencyResolver.complete_if_ready.
    rw Hcs /=. split_and!; [done..| |];
      by apply (write_if_ready_blocked _ w task_id task).
  - intros Hyes.
    pose proof (proj2 (can_start_true w task_id task Hget) Hyes) as Hcs.
    rw /DependencyResolver.start_if_ready /DependencyResolver.complete_if_ready.
    rw Hcs /=. split_and!.
    + destruct (update_status_present notifier w task_id task
                  (StatusEnum TaskStatus.IN_PROGRESS) TaskStatus.IN_PROGRESS
                  None Hget eq_refl) as (w' & Hrun & Hs & _).
      by exists w'.
    + destruct (update_status_present notifier w task_id task
                  (StatusEnum TaskStatus.DONE) TaskStatus.DONE
                  None Hget eq_refl) as (w' & Hrun & Hs & _).
      by exists w'.
    + eexists. split; [by apply write_if_ready_ready|done].
    + eexists. split; [by apply write_if_ready_ready|done].
Qed.

(** C10, as stated, fails: a task that is done and whose only dependency is
    not in the store has all its in-store dependencies done, and
    [start_if_ready] does not move it to in progress. *)
Lemma start_of_done_task_blocked_by_absent_dependency :
  let task := set_status ghost_task TaskStatus.DONE in
  let w := mk_world {[ "Z" := task ]} 0 [] 0 in
  ¬ (present_deps_done (session w) task →
     ∃ w', DependencyResolver.start_if_ready (λ _ _, true) w "Z"
           = (Returns true, w')
           ∧ TestTask.status <$> session w' !! "Z"
             = Some TaskStatus.IN_PROGRESS).
Proof.
  intros task w Hclaim. destruct Hclaim as (w' & Hrun & _).
  - intros d dep [->|[]%elem_of_nil]%elem_of_cons. by vm_compute.
  - by vm_compute in Hrun.
Qed.

(** C10, as the code has it: the gate never looks at the status of the task
    itself. For a task in the store, whatever its status [s0], when every
    dependency id names a task of the store that is done, [start_if_ready]
    and [mark_in_progress_if_ready] succeed and leave the task in progress,
    and [complete_if_ready] and [complete_task] leave it done; so a task
    that is done or blocked goes back to in progress. *)
Theorem gate_ignores_own_status
    (notifier : list status_change → status_change → bool)
    (w : world) (task_id : string) (task : TestTask.t) (s0 : TaskStatus.t) :
  session w !! task_id = Some task →
  TestTask.status task = s0 →
  deps_done (session w) task →
  (∃ w', DependencyResolver.start_if_ready notifier w task_id
         = (Returns true, w')
         ∧ TestTask.status <$> session w' !! task_id
           = Some TaskStatus.IN_PROGRESS)
  ∧ (∃ w', TaskDependencies.mark_in_progress_if_ready w task_id = (true, w')
           ∧ TestTask.status <$> session w' !! task_id
             = Some TaskStatus.IN_PROGRESS)
  ∧ (∃ w', DependencyResolver.complete_if_ready notifier w task_id
           = (Returns true, w')
           ∧ TestTask.status <$> session w' !! task_id
             = Some TaskStatus.DONE)
  ∧ (∃ w', TaskDependencies.complete_task w task_id = (true, w')
           ∧ TestTask.status <$> session w' !! task_id
             = Some TaskStatus.DONE).
Proof.
  intros Hget _ Hyes.
  pose proof (proj2 (can_start_true w task_id task Hget) Hyes) as Hcs.
  rw /DependencyResolver.start_if_ready /DependencyResolver.complete_if_ready.
  rw Hcs /=. split_and!.
  - destruct (update_status_present notifier w task_id task
                (StatusEnum TaskStatus.IN_PROGRESS) TaskStatus.IN_PROGRESS
                None Hget eq_refl) as (w' & Hrun & Hs & _).
    exists w'. split; [done|]. by rw Hs lookup_insert_eq.
  - eexists. split; [by apply write_if_ready_ready|].
    by rw /= lookup_insert_eq.
  - destruct (update_status_present notifier w task_id task
                (StatusEnum TaskStatus.DONE) TaskStatus.DONE
                None Hget eq_refl) as (w' & Hrun & Hs & _).
    exists w'. split; [done|]. by rw Hs lookup_insert_eq.
  - eexists. split; [by apply write_if_ready_ready|].
    by rw /= lookup_insert_eq.
Qed.

(** A string that is not the value of a status makes [update_status] raise
    before anything is written. *)
Lemma update_status_invalid_string
    (notifier : list status_change → status_change → bool)
    (w : world) (task_id : string) (task : TestTask.t) (s : string)
    (changed_by : option string) :
  session w !! task_id = Some task →
  TaskStatus.of_string s = None →
  TaskStatusManager.update_status notifier w task_id (StatusStr s) changed_by
  = (Raises (InvalidStatus s), w).
Proof.
  intros Hget Hs. rw /TaskStatusManager.update_status.
  by rw /TestTaskDAL.get_task Hget /= Hs.
Qed.

(** C8. [update_status]: for a status, or a string that names one, the
    call returns false and changes nothing when the task is not in the
    store, and only then; otherwise it writes the status, whatever the
    dependencies, commits, returns true, and hands one notification to the
    notification service exactly when the old status differs from the new
    one. Neither the store nor the result depends on whether the
    notification goes through. *)
Theorem update_status_semantics
    (notifier : list status_change → status_change → bool)
    (w : world) (task_id : string) (arg : status_arg) (status : TaskStatus.t)
    (changed_by : option string) :
  coerce_status arg = Some status →
  (session w !! task_id = None →
   TaskStatusManager.update_status notifier w task_id arg changed_by
   = (Returns false, w))
  ∧ (∀ task, session w !! task_id = Some task →
       ∃ w', TaskStatusManager.update_status notifier w task_id arg changed_by
             = (Returns true, w')
             ∧ session w' = <[task_id := set_status task status]> (session w)
             ∧ commits w' = S (commits w)
             ∧ notified w'
               = notified w
                 ++ (if decide (TestTask.status task ≠ status)
                     then [mk_status_change task_id
                             (TestTask.description task)
                             (TestTask.status task) status
                             (TestTask.owner task) changed_by]
                     else []))
  ∧ ((TaskStatusManager.update_status notifier w task_id arg changed_by).1
     = Returns false
     ↔ session w !! task_id = None).
Proof.
  intros Hco.
  assert (session w !! task_id = None →
          TaskStatusManager.update_status notifier w task_id arg changed_by
          = (Returns false, w)) as Hnone.
  { intros Hget. rw /TaskStatusManager.update_status.
    by rw /TestTaskDAL.get_task Hget. }
  split_and!; [done| |].
  - intros task Hget. by apply update_status_present.
  - split; [|by intros ->%Hnone].
    destruct (session w !! task_id) as [task|] eqn:Hget; [|done].
    destruct (update_status_present notifier w task_id task arg status
                changed_by Hget Hco) as (w' & -> & _).
    done.
Qed.

(** ** Sequences of operations *)






(** ** Coverage gaps *)

Lemma sorted_desc_filter_key {A} (key : A → Z) (p : Z) (l : list A) :
  filter (λ x, key x = p) (sorted_desc key l) = filter (λ x, key x = p) l.
Proof.
  induction l as [|x l IH]; [done|].
  change (sorted_desc key (x :: l))
    with (insert_desc key x (sorted_desc key l)).
  rw filter_cons -IH. generalize (sorted_desc key l) as s. clear IH.
  intros s. destruct (decide (key x = p)) as [Hx|Hx].
  - induction s as [|y s IH]; simpl; [by rw filter_cons decide_True|].
    destruct (Z.ltb_spec (key x) (key y)) as [Hlt|Hge].
    + rw !filter_cons IH. rw !(decide_False (P := key y = p)); [done|lia..].
    + by rw filter_cons decide_True.
  - induction s as [|y s IH]; simpl; [by rw filter_cons decide_False|].
    destruct (Z.ltb_spec (key x) (key y)) as [Hlt|Hge].
    + by rw !filter_cons IH.
    + by rw filter_cons decide_False.
Qed.

Lemma is_missing_coverage_missing (task : TestTask.t) :
  CoverageAnalyzer._is_missing task = true ↔ coverage_missing task.
Proof.
  rw /CoverageAnalyzer._is_missing /coverage_missing.
  destruct (TestTask.coverage_status task) as [c|s|].
  - rw bool_decide_eq_true. split; [intros ->; by left|].
    intros [[= ->]|(s & [=] & _)]. done.
  - rw bool_decide_eq_true. split; [intros ?; right; by exists s|].
    by intros [[=]|(s' & [= <-] & ?)].
  - split; [done|]. by intros [[=]|(s & [=] & _)].
Qed.

Lemma priority_by_test_type (task : TestTask.t) :
  CoverageAnalyzer.priority task
  = match TestTask.test_type task with
    | TestType.E2E => 5
    | TestType.INTEGRATION | TestType.SECURITY => 4
    | TestType.PERFORMANCE => 3
    | TestType.EXPLORATORY => 2
    | TestType.UNIT => 1
    end.
Proof. rw /CoverageAnalyzer.priority. by destruct (TestTask.test_type task). Qed.

(** C9. Coverage gap prioritization: [prioritize_tests] returns exactly the
    tasks whose coverage status is the member [MISSING] or a string that
    normalizes to one of the three spellings, each as often as it occurs in
    the input, in descending order of the test-type priority of their
    category, and with the input order kept among tasks of equal priority;
    a task that is not missing coverage is never in the result. *)
Theorem prioritize_tests_spec (tasks : list TestTask.t) :
  (∀ t, t ∈ CoverageAnalyzer.prioritize_tests tasks
        ↔ t ∈ tasks ∧ coverage_missing t)
  ∧ CoverageAnalyzer.prioritize_tests tasks
    ≡ₚ filter (λ t, CoverageAnalyzer._is_missing t = true) tasks
  ∧ descending CoverageAnalyzer.priority
      (CoverageAnalyzer.prioritize_tests tasks)
  ∧ (∀ p, filter (λ t, CoverageAnalyzer.priority t = p)
            (CoverageAnalyzer.prioritize_tests tasks)
          = filter (λ t, CoverageAnalyzer.priority t = p)
              (filter (λ t, CoverageAnalyzer._is_missing t = true) tasks))
  ∧ (∀ a b, before (CoverageAnalyzer.prioritize_tests tasks) a b →
            CoverageAnalyzer.priority a = CoverageAnalyzer.priority b →
            before tasks a b)
  ∧ (∀ t, t ∈ CoverageAnalyzer.prioritize_tests tasks →
          CoverageAnalyzer.priority t
          = match TestTask.test_type t with
            | TestType.E2E => 5
            | TestType.INTEGRATION | TestType.SECURITY => 4
            | TestType.PERFORMANCE => 3
            | TestType.EXPLORATORY => 2
            | TestType.UNIT => 1
            end).
Proof.
  rw /CoverageAnalyzer.prioritize_tests /CoverageAnalyzer.find_missing_coverage.
  split_and!.
  - intros t. rw sorted_desc_perm list_elem_of_filter.
    rw is_missing_coverage_missing. tauto.
  - apply sorted_desc_perm.
  - apply sorted_desc_descending.
  - intros p. apply sorted_desc_filter_key.
  - intros a b Hab Heq.
    apply (sorted_desc_stable CoverageAnalyzer.priority) in Hab; [|lia].
    by apply before_filter in Hab.
  - intros t _. apply priority_by_test_type.
Qed.

(** ** Scenarios of the specification *)

Lemma chain_tasks_unique : NoDup (ids chain_tasks).
Proof. by apply (bool_decide_unpack _). Defined.

Lemma chain_tasks_acyclic : acyclic chain_tasks.
Proof.
  apply (acyclic_ranked _ chain_rank). by apply (bool_decide_unpack _).
Defined.

Example scenario_1 :
  TestPlanGenerator.generate_plan PriorityPolicy.fallback chain_tasks
  = Returns chain_tasks.
Proof. by vm_compute. Qed.

Example scenario_2 :
  TaskSorter.sort cycle_tasks = Raises (ValueError {[ "A"; "B" ]})
  ∧ TestPlanGenerator.generate_plan PriorityPolicy.fallback cycle_tasks
    = Raises (ValueError {[ "A"; "B" ]}).
Proof. split; by vm_compute. Qed.

Example scenario_3 :
  TestPlanGenerator.generate_plan PriorityPolicy.fallback priority_tasks
  = Returns [new_task "E" TestType.E2E []; new_task "U" TestType.UNIT []].
Proof. by vm_compute. Qed.

Example tie_plan :
  TestPlanGenerator.generate_plan PriorityPolicy.fallback tie_tasks
  = Returns [new_task "R" TestType.E2E []; new_task "Y" TestType.UNIT [];
             new_task "X" TestType.UNIT ["R"]].
Proof. by vm_compute. Qed.

Lemma topological_validity_witness :
  NoDup (ids chain_tasks) ∧ acyclic chain_tasks
  ∧ (∃ out, TaskSorter.sort chain_tasks = Returns out
            ∧ out ≡ₚ chain_tasks
            ∧ dependencies_first chain_tasks out)
  ∧ (∃ plan, TestPlanGenerator.generate_plan PriorityPolicy.fallback
               chain_tasks = Returns plan
             ∧ plan ≡ₚ chain_tasks
             ∧ dependencies_first chain_tasks plan).
Proof.
  split; [exact chain_tasks_unique|].
  split; [exact chain_tasks_acyclic|].
  exact (topological_validity PriorityPolicy.fallback chain_tasks
           chain_tasks_unique chain_tasks_acyclic).
Defined.

Lemma completeness_or_cycle_error_witness :
  NoDup (ids chain_tasks)
  ∧ ((acyclic chain_tasks →
        (∃ out, TaskSorter.sort chain_tasks = Returns out
                ∧ length out = length chain_tasks)
        ∧ (∃ plan, TestPlanGenerator.generate_plan PriorityPolicy.fallback
                     chain_tasks = Returns plan
                   ∧ length plan = length chain_tasks))
     ∧ (¬ acyclic chain_tasks →
          raises_unemitted chain_tasks (TaskSorter.emitted chain_tasks)
            (TaskSorter.sort chain_tasks)
          ∧ raises_unemitted chain_tasks
              (TestPlanGenerator.emitted PriorityPolicy.fallback chain_tasks)
              (TestPlanGenerator.generate_plan PriorityPolicy.fallback
                 chain_tasks))).
Proof.
  split; [exact chain_tasks_unique|].
  exact (completeness_or_cycle_error PriorityPolicy.fallback chain_tasks
           chain_tasks_unique).
Defined.

(** The plan of [readiness_tasks]: [A] has to wait for [C]. *)
Example readiness_plan :
  TestPlanGenerator.generate_plan PriorityPolicy.fallback readiness_tasks
  = Returns [new_task "B" TestType.UNIT []; new_task "C" TestType.UNIT [];
             new_task "A" TestType.E2E ["C"]].
Proof. by vm_compute. Qed.

(** C5, as stated, fails in its last clause: in [readiness_tasks] the tasks
    [A] and [B] have no dependency relation, not even through other tasks,
    and priorities 5 and 1; the plan has [B] before [A], since [A] is not
    eligible before [C] is emitted. *)
Lemma unrelated_tasks_not_in_priority_order :
  ¬ (∀ plan a b,
       TestPlanGenerator.generate_plan PriorityPolicy.fallback readiness_tasks
       = Returns plan →
       a ∈ readiness_tasks → b ∈ readiness_tasks →
       ¬ tc (dep_edge readiness_tasks) (TestTask.id a) (TestTask.id b) →
       ¬ tc (dep_edge readiness_tasks) (TestTask.id b) (TestTask.id a) →
       TestPlanGenerator._priority PriorityPolicy.fallback a = 5 →
       TestPlanGenerator._priority PriorityPolicy.fallback b = 1 →
       before plan a b).
Proof.
  intros Hclaim.
  specialize (Hclaim _ (new_task "A" TestType.E2E ["C"])
                (new_task "B" TestType.UNIT []) readiness_plan).
  assert (∀ z, ¬ dep_edge readiness_tasks z "B") as Hinto.
  { intros z (task & Ht & Hid & Hd & _).
    repeat (apply elem_of_cons in Ht as [->|Ht]); try done.
    - by apply elem_of_nil in Hd.
    - by apply elem_of_nil in Ht. }
  assert (∀ z, ¬ dep_edge readiness_tasks "B" z) as Hfrom.
  { intros z (task & Ht & Hid & Hd & _).
    repeat (apply elem_of_cons in Ht as [->|Ht]).
    - by apply elem_of_nil in Hd.
    - by apply elem_of_nil in Hd.
    - by apply list_elem_of_singleton in Hd.
    - by apply elem_of_nil in Ht. }
  destruct Hclaim as [[[=] _]|[[[=] _]|[[_ Hin]|[]]]].
  - do 2 right. by left.
  - by left.
  - intros (z & Hz)%tc_target. by apply (Hinto z).
  - intros Htc. inversion Htc; subst; by eapply Hfrom.
  - done.
  - done.
  - by apply elem_of_nil in Hin.
Qed.

Lemma priority_tasks_unique : NoDup (ids priority_tasks).
Proof. by apply (bool_decide_unpack _). Defined.

Lemma priority_bias_witness :
  NoDup (ids priority_tasks)
  ∧ ∃ plan,
      TestPlanGenerator.emitted PriorityPolicy.fallback priority_tasks
      = Returns plan
      ∧ (TestPlanGenerator.generate_plan PriorityPolicy.fallback
           priority_tasks = Returns plan
         ∨ ∃ missing,
             TestPlanGenerator.generate_plan PriorityPolicy.fallback
               priority_tasks = Raises (ValueError missing))
      ∧ (acyclic priority_tasks →
         TestPlanGenerator.generate_plan PriorityPolicy.fallback
           priority_tasks = Returns plan
         ∧ plan ≡ₚ priority_tasks)
      ∧ (∀ pre t post u,
           plan = pre ++ t :: post →
           u ∈ priority_tasks → u ∉ pre →
           ready_after priority_tasks pre u →
           TestPlanGenerator._priority PriorityPolicy.fallback u
           ≤ TestPlanGenerator._priority PriorityPolicy.fallback t)
      ∧ (∀ p a b,
           p `prefix_of` plan →
           a ∈ priority_tasks → b ∈ priority_tasks → a ∉ p → b ∉ p →
           ready_after priority_tasks p a →
           ready_after priority_tasks p b →
           TestPlanGenerator._priority PriorityPolicy.fallback b
           < TestPlanGenerator._priority PriorityPolicy.fallback a →
           before plan a b)
      ∧ (∀ a b,
           a ∈ priority_tasks → b ∈ priority_tasks →
           ready_after priority_tasks [] a →
           ready_after priority_tasks [] b →
           TestPlanGenerator._priority PriorityPolicy.fallback b
           < TestPlanGenerator._priority PriorityPolicy.fallback a →
           before plan a b).
Proof.
  split; [exact priority_tasks_unique|].
  exact (priority_bias PriorityPolicy.fallback priority_tasks
           priority_tasks_unique).
Defined.

Lemma tie_tasks_unique : NoDup (ids tie_tasks).
Proof. by apply (bool_decide_unpack _). Defined.

(** C6, as stated, fails: after [R] is emitted the unit tasks [X] and [Y]
    are both eligible and tie on the highest priority; [X] comes before [Y]
    in the input, and the plan has [Y] before [X]. *)
Lemma tie_not_in_input_order :
  ¬ (∀ plan pre a post b,
       TestPlanGenerator.generate_plan PriorityPolicy.fallback tie_tasks
       = Returns plan →
       plan = pre ++ a :: post → b ∈ post →
       ready_after tie_tasks pre a → ready_after tie_tasks pre b →
       TestPlanGenerator._priority PriorityPolicy.fallback a
       = TestPlanGenerator._priority PriorityPolicy.fallback b →
       before tie_tasks a b).
Proof.
  intros Hclaim.
  specialize (Hclaim _ [new_task "R" TestType.E2E []]
                (new_task "Y" TestType.UNIT [])
                [new_task "X" TestType.UNIT ["R"]]
                (new_task "X" TestType.UNIT ["R"]) tie_plan eq_refl).
  destruct Hclaim as [[[=] _]|[[_ Hin]|[[[=] _]|[]]]].
  - by left.
  - by intros d []%elem_of_nil.
  - intros d [->|[]%elem_of_nil]%elem_of_cons _. by left.
  - done.
  - by apply list_elem_of_singleton in Hin.
Qed.

Lemma tie_break_by_queue_order_witness :
  NoDup (ids tie_tasks)
  ∧ ∃ plan,
      TestPlanGenerator.emitted PriorityPolicy.fallback tie_tasks
      = Returns plan
      ∧ (TestPlanGenerator.generate_plan PriorityPolicy.fallback tie_tasks
         = Returns plan
         ∨ ∃ missing,
             TestPlanGenerator.generate_plan PriorityPolicy.fallback
               tie_tasks = Raises (ValueError missing))
      ∧ ∀ pre a post b,
          plan = pre ++ a :: post →
          b ∈ tie_tasks → b ∉ pre → b ≠ a → ready_after tie_tasks pre b →
          TestPlanGenerator._priority PriorityPolicy.fallback a
          = TestPlanGenerator._priority PriorityPolicy.fallback b →
          (∀ p, p `prefix_of` pre →
             ready_after tie_tasks p b → ready_after tie_tasks p a)
          ∧ ((∀ p, p `prefix_of` pre →
                ready_after tie_tasks p a → ready_after tie_tasks p b) →
             before tie_tasks a b).
Proof.
  split; [exact tie_tasks_unique|].
  exact (tie_break_by_queue_order PriorityPolicy.fallback tie_tasks
           tie_tasks_unique).
Defined.

Lemma scenario_x_in_store : session scenario_world !! "X" = Some scenario_x.
Proof. by vm_compute. Defined.

Lemma gate_correctness_witness :
  session scenario_world !! "X" = Some scenario_x
  ∧ ((¬ deps_done (session scenario_world) scenario_x →
        DependencyResolver.start_if_ready (λ _ _, true) scenario_world "X"
        = (Returns false, scenario_world)
        ∧ DependencyResolver.complete_if_ready (λ _ _, true) scenario_world
            "X" = (Returns false, scenario_world)
        ∧ TaskDependencies.mark_in_progress_if_ready scenario_world "X"
          = (false, scenario_world)
        ∧ TaskDependencies.complete_task scenario_world "X"
          = (false, scenario_world))
     ∧ (deps_done (session scenario_world) scenario_x →
          (∃ w', DependencyResolver.start_if_ready (λ _ _, true)
                   scenario_world "X" = (Returns true, w')
                 ∧ session w'
                   = <["X" := set_status scenario_x TaskStatus.IN_PROGRESS]>
                       (session scenario_world))
          ∧ (∃ w', DependencyResolver.complete_if_ready (λ _ _, true)
                     scenario_world "X" = (Returns true, w')
                   ∧ session w'
                     = <["X" := set_status scenario_x TaskStatus.DONE]>
                         (session scenario_world))
          ∧ (∃ w', TaskDependencies.mark_in_progress_if_ready scenario_world
                     "X" = (true, w')
                   ∧ session w'
                     = <["X" := set_status scenario_x TaskStatus.IN_PROGRESS]>
                         (session scenario_world))
          ∧ (∃ w', TaskDependencies.complete_task scenario_world "X"
                   = (true, w')
                   ∧ session w'
                     = <["X" := set_status scenario_x TaskStatus.DONE]>
                         (session scenario_world)))).
Proof.
  split; [exact scenario_x_in_store|].
  exact (gate_correctness (λ _ _, true) scenario_world "X" scenario_x
           scenario_x_in_store).
Defined.

Lemma done_x_in_store :
  session done_world !! "X" = Some (set_status scenario_x TaskStatus.DONE).
Proof. by vm_compute. Defined.

Lemma done_x_deps_done :
  deps_done (session done_world) (set_status scenario_x TaskStatus.DONE).
Proof.
  intros d Hd. exists (set_status scenario_y TaskStatus.DONE).
  apply list_elem_of_singleton in Hd as ->. split; by vm_compute.
Defined.

Lemma gate_ignores_own_status_witness :
  session done_world !! "X" = Some (set_status scenario_x TaskStatus.DONE)
  ∧ TestTask.status (set_status scenario_x TaskStatus.DONE) = TaskStatus.DONE
  ∧ deps_done (session done_world) (set_status scenario_x TaskStatus.DONE)
  ∧ (∃ w', DependencyResolver.start_if_ready (λ _ _, true) done_world "X"
           = (Returns true, w')
           ∧ TestTask.status <$> session w' !! "X"
             = Some TaskStatus.IN_PROGRESS)
  ∧ (∃ w', TaskDependencies.mark_in_progress_if_ready done_world "X"
           = (true, w')
           ∧ TestTask.status <$> session w' !! "X"
             = Some TaskStatus.IN_PROGRESS)
  ∧ (∃ w', DependencyResolver.complete_if_ready (λ _ _, true) done_world "X"
           = (Returns true, w')
           ∧ TestTask.status <$> session w' !! "X" = Some TaskStatus.DONE)
  ∧ (∃ w', TaskDependencies.complete_task done_world "X" = (true, w')
           ∧ TestTask.status <$> session w' !! "X" = Some TaskStatus.DONE).
Proof.
  split; [exact done_x_in_store|]. split; [reflexivity|].
  split; [exact done_x_deps_done|].
  exact (gate_ignores_own_status (λ _ _, true) done_world "X"
           (set_status scenario_x TaskStatus.DONE) TaskStatus.DONE
           done_x_in_store eq_refl done_x_deps_done).
Defined.


Lemma update_status_semantics_witness :
  coerce_status (StatusStr "done") = Some TaskStatus.DONE
  ∧ (session scenario_world !! "Y" = None →
     TaskStatusManager.update_status (λ _ _, false) scenario_world "Y"
       (StatusStr "done") (Some "admin")
     = (Returns false, scenario_world))
  ∧ (∀ task, session scenario_world !! "Y" = Some task →
       ∃ w', TaskStatusManager.update_status (λ _ _, false) scenario_world
               "Y" (StatusStr "done") (Some "admin")
             = (Returns true, w')
             ∧ session w'
               = <["Y" := set_status task TaskStatus.DONE]>
                   (session scenario_world)
             ∧ commits w' = S (commits scenario_world)
             ∧ notified w'
               = notified scenario_world
                 ++ (if decide (TestTask.status task ≠ TaskStatus.DONE)
                     then [mk_status_change "Y" (TestTask.description task)
                             (TestTask.status task) TaskStatus.DONE
                             (TestTask.owner task) (Some "admin")]
                     else []))
  ∧ ((TaskStatusManager.update_status (λ _ _, false) scenario_world "Y"
        (StatusStr "done") (Some "admin")).1
     = Returns false
     ↔ session scenario_world !! "Y" = None).
Proof.
  split; [reflexivity|].
  exact (update_status_semantics (λ _ _, false) scenario_world "Y"
           (StatusStr "done") TaskStatus.DONE (Some "admin") eq_refl).
Defined.

(** Scenario 4: [X] cannot start while [Y] is pending; once [Y] is marked
    done, [X] starts. *)
Example scenario_4 :
  (DependencyResolver.start_if_ready (λ _ _, true) scenario_world "X").1
  = Returns false
  ∧ let w := (TaskStatusManager.update_status (λ _ _, true) scenario_world
                "Y" (StatusEnum TaskStatus.DONE) None).2 in
    let r := DependencyResolver.start_if_ready (λ _ _, true) w "X" in
    r.1 = Returns true
    ∧ TestTask.status <$> session r.2 !! "X" = Some TaskStatus.IN_PROGRESS.
Proof. by vm_compute. Qed.

(** Scenario 5: the covered task is left out and the end-to-end gap comes
    before the unit gap. *)
Example scenario_5 :
  let P := TestTask.mk "P" "" TestType.UNIT [] TaskStatus.PENDING None
             (CovEnum CoverageStatus.COMPLETE) in
  let Q := TestTask.mk "Q" "" TestType.E2E [] TaskStatus.PENDING None
             (CovStr " Not Covered ") in
  let R := TestTask.mk "R" "" TestType.UNIT [] TaskStatus.PENDING None
             (CovEnum CoverageStatus.MISSING) in
  CoverageAnalyzer.prioritize_tests [P; R; Q] = [Q; R].
Proof. by vm_compute. Qed.

(** Scenario 6 as the code has it: the absent dependency blocks. *)
Example scenario_6 :
  TaskDependencies.dependencies_complete ghost_world "Z" = Some false.
Proof. by vm_compute. Qed.

(** * Further properties of the ordering functions *)

(** ** The two functions as schedules *)

Section Schedules.
Import PyDict PyDictFacts.
Variable tasks : list TestTask.t.
Local Notation "'D'" := (tasks_by_id_of tasks).

Lemma sorter_emitted_schedule :
  TaskSorter.emitted tasks
  = match schedule (λ r, r) (length D) D (roots D) [] with
    | Some out => Returns out
    | None => Diverges
    end.
Proof.
  pose proof (tasks_by_id_well_keyed tasks) as HD.
  destruct (build_graph_spec D HD) as (graph & ind & Hb & Hg & Hk & Hc).
  pose proof (build_counts_ok tasks ind Hk Hc) as Hcount.
  rw /TaskSorter.emitted Hb bind_Returns (sorter_initial D HD) //.
  rw bind_Returns sorter_drain_kahn.
  rw (kahn_schedule D HD (λ r, r) (λ l, reflexivity l)) //.
  by apply (initial_queue_ok D HD (λ r, r)).
Qed.

Lemma generator_emitted_schedule policy :
  TestPlanGenerator.emitted policy tasks
  = match schedule (requeue_by_priority policy) (length D) D
            (sorted_desc (TestPlanGenerator._priority policy) (roots D)) []
    with
    | Some out => Returns out
    | None => Diverges
    end.
Proof.
  pose proof (tasks_by_id_well_keyed tasks) as HD.
  destruct (build_graph_spec D HD) as (graph & ind & Hb & Hg & Hk & Hc).
  pose proof (build_counts_ok tasks ind Hk Hc) as Hcount.
  rw /TestPlanGenerator.emitted Hb bind_Returns (generator_initial D HD) //.
  rw bind_Returns generator_drain_kahn.
  rw (kahn_schedule D HD (requeue_by_priority policy)
        (requeue_perm policy)) //.
  apply (initial_queue_ok D HD
           (sorted_desc (TestPlanGenerator._priority policy))
           (sorted_desc_perm _)).
Qed.
End Schedules.

Lemma schedule_ext (f g : list TestTask.t → list TestTask.t) fuel D ready
    ordered :
  (∀ l, f l = g l) →
  schedule f fuel D ready ordered = schedule g fuel D ready ordered.
Proof.
  intros Hfg. revert ready ordered.
  induction fuel as [|fuel IH]; intros [|cur rest] ordered; try done.
  simpl. by rw Hfg IH.
Qed.

Lemma descending_cons {A} (key : A → Z) x l :
  descending key (x :: l) →
  (∀ b, b ∈ l → key b ≤ key x) ∧ descending key l.
Proof.
  intros Hd. split.
  - intros b Hb. apply Hd. by left.
  - intros a b Hab. apply Hd. by right.
Qed.

(** A list that is descending already is left as it is. *)
Lemma sorted_desc_descending_id {A} (key : A → Z) l :
  descending key l → sorted_desc key l = l.
Proof.
  induction l as [|x l IH]; [done|]. intros [Hx Hl]%descending_cons.
  rw /sorted_desc /=. fold (sorted_desc key l). rw IH //.
  destruct l as [|y l]; [done|]. simpl.
  destruct (Z.ltb_spec (key x) (key y)) as [Hlt|]; [|done].
  assert (key y ≤ key x) by (apply Hx; by left). lia.
Qed.

Lemma requeue_flat policy l :
  (∀ a b, PriorityPolicy.get_priority_for_test_type policy a
          = PriorityPolicy.get_priority_for_test_type policy b) →
  requeue_by_priority policy l = l.
Proof.
  intros Hflat. destruct l as [|x l]; [done|].
  apply sorted_desc_descending_id. intros a b _.
  rw /TestPlanGenerator._priority.
  by rw (Hflat (TestTask.test_type b) (TestTask.test_type a)).
Qed.

(** ** What a returned plan and a raised error hold *)

Section Returned.
Import PyDict PyDictFacts.
Variable D : PyDict.t TestTask.t.
Hypothesis HD : well_keyed D.
Variable out : list TestTask.t.
Hypothesis Hq : queue_ok D [] out.

Lemma values_nodup : NoDup (values D).
Proof.
  apply (NoDup_fmap_1 TestTask.id). fold (ids (values D)).
  rw (ids_values D HD). apply HD.
Qed.

Lemma check_complete_returns out' :
  check_complete D out = Returns out' → out' = out ∧ out ≡ₚ values D.
Proof.
  rw /check_complete. case_decide as Hlen; [done|]. intros [= <-].
  split; [done|].
  assert (length out = length D) as Hlen'
    by (by destruct (decide (length out = length D))).
  apply NoDup_Permutation.
  - eapply NoDup_fmap_1, (out_nodup D out Hq).
  - apply values_nodup.
  - intros t. split; [apply (out_tasks D out Hq)|].
    by apply (complete_iff_length D HD out Hq).
Qed.

Lemma check_complete_raises e :
  check_complete D out = Raises e →
  e = ValueError (list_to_set (keys D) ∖ list_to_set (ids out)).
Proof. rw /check_complete. case_decide; [|done]. by intros [= <-]. Qed.
End Returned.

(** Both runs emit the same tasks, whatever the policy. *)
Lemma runs_emit_the_same D out plan :
  well_keyed D →
  queue_ok D [] out → each_emission (eligible D) out →
  queue_ok D [] plan → each_emission (eligible D) plan →
  out ≡ₚ plan.
Proof.
  intros HD Hq Hp Hq' Hp'.
  assert (∀ o o', queue_ok D [] o → each_emission (eligible D) o →
            queue_ok D [] o' → each_emission (eligible D) o' →
            ∀ t, t ∈ o → t ∈ o') as Hsub.
  { intros o o' Ho Hpo Ho' Hpo' t Ht.
    pose proof (out_tasks D o Ho t Ht) as Hts.
    apply (id_out D HD o' Ho' t Hts).
    destruct (decide (TestTask.id t ∈ ids o')) as [|Hno]; [done|].
    destruct (proj1 (unemitted_iff_cycle D HD o' Ho' Hpo' (TestTask.id t)))
      as (c & Hcyc & Hck).
    { split; [|done]. rw -(ids_values D HD). by apply elem_ids. }
    destruct (proj2 (unemitted_iff_cycle D HD o Ho Hpo (TestTask.id t)))
      as [_ Hno']; [by exists c|].
    destruct Hno'. by apply elem_ids. }
  apply NoDup_Permutation.
  - eapply NoDup_fmap_1, (out_nodup D out Hq).
  - eapply NoDup_fmap_1, (out_nodup D plan Hq').
  - intros t. split; by apply Hsub.
Qed.

Lemma generator_flat_emitted policy tasks :
  (∀ a b, PriorityPolicy.get_priority_for_test_type policy a
          = PriorityPolicy.get_priority_for_test_type policy b) →
  TestPlanGenerator.emitted policy tasks = TaskSorter.emitted tasks.
Proof.
  intros Hflat. rw generator_emitted_schedule sorter_emitted_schedule.
  rw (schedule_ext _ (λ r, r) _ _ _ _ (λ l, requeue_flat policy l Hflat)).
  rw sorted_desc_descending_id //. intros a b _.
  rw /TestPlanGenerator._priority.
  by rw (Hflat (TestTask.test_type b) (TestTask.test_type a)).
Qed.

Lemma flat_empty_policy a b :
  PriorityPolicy.get_priority_for_test_type (PriorityPolicy.mk ∅ 0) a
  = PriorityPolicy.get_priority_for_test_type (PriorityPolicy.mk ∅ 0) b.
Proof. by rw /PriorityPolicy.get_priority_for_test_type /= !lookup_empty. Qed.

(** What a call that returns or raises says about the run behind it. *)
Lemma sort_run_of tasks :
  ∃ out, queue_ok (tasks_by_id_of tasks) [] out
         ∧ each_emission (eligible (tasks_by_id_of tasks)) out
         ∧ TaskSorter.emitted tasks = Returns out
         ∧ TaskSorter.sort tasks = check_complete (tasks_by_id_of tasks) out.
Proof.
  destruct (sorter_run tasks) as (out & Hrun & Hq & Hp).
  exists out. split_and!; [done..|]. by rw /TaskSorter.sort Hrun.
Qed.

Lemma generate_plan_run_of policy tasks :
  ∃ plan, queue_ok (tasks_by_id_of tasks) [] plan
          ∧ each_emission (eligible (tasks_by_id_of tasks)) plan
          ∧ TestPlanGenerator.emitted policy tasks = Returns plan
          ∧ TestPlanGenerator.generate_plan policy tasks
            = check_complete (tasks_by_id_of tasks) plan.
Proof.
  destruct (generator_run tasks policy) as (plan & Hrun & Hq & Hp).
  exists plan. split_and!; [done| |done|].
  - intros pre t post Heq. by destruct (Hp pre t post Heq).
  - by rw /TestPlanGenerator.generate_plan Hrun.
Qed.

(** Either call, when it returns [out], returns the emitted list of a run
    that left nothing over. *)
Lemma returned_run policy tasks out :
  TaskSorter.sort tasks = Returns out
  ∨ TestPlanGenerator.generate_plan policy tasks = Returns out →
  queue_ok (tasks_by_id_of tasks) [] out
  ∧ each_emission (eligible (tasks_by_id_of tasks)) out
  ∧ out ≡ₚ PyDict.values (tasks_by_id_of tasks).
Proof.
  pose proof (tasks_by_id_well_keyed tasks) as HD.
  intros [Hret|Hret].
  - destruct (sort_run_of tasks) as (o & Hq & Hp & _ & Hsort).
    rw Hsort in Hret.
    by apply (check_complete_returns _ HD o Hq) in Hret as [-> ?].
  - destruct (generate_plan_run_of policy tasks) as (o & Hq & Hp & _ & Hgen).
    rw Hgen in Hret.
    by apply (check_complete_returns _ HD o Hq) in Hret as [-> ?].
Qed.

(** X1. A plan that [TaskSorter.sort] or [generate_plan] returns for a task
    set with unique ids is a rearrangement of the input: every task of the
    input occurs in it exactly once, and nothing else does. *)
Theorem returned_plan_is_permutation (policy : PriorityPolicy.t)
    (tasks out : list TestTask.t) :
  NoDup (ids tasks) →
  TaskSorter.sort tasks = Returns out
  ∨ TestPlanGenerator.generate_plan policy tasks = Returns out →
  out ≡ₚ tasks.
Proof.
  intros Hunique Hret.
  destruct (returned_run policy tasks out Hret) as (_ & _ & Hperm).
  by rw (values_unique tasks Hunique) in Hperm.
Qed.

(** X2. The ids that the [ValueError] of [TaskSorter.sort] and of
    [generate_plan] carries are exactly the tasks that cannot be ordered:
    those on a cycle of in-set dependencies and those that depend, directly
    or through other tasks, on a task of such a cycle. *)
Theorem cycle_error_names_blocked_tasks (policy : PriorityPolicy.t)
    (tasks : list TestTask.t) (missing : gset string) :
  NoDup (ids tasks) →
  TaskSorter.sort tasks = Raises (ValueError missing)
  ∨ TestPlanGenerator.generate_plan policy tasks
    = Raises (ValueError missing) →
  ∀ k, k ∈ missing
       ↔ ∃ c, tc (dep_edge tasks) c c ∧ rtc (dep_edge tasks) c k.
Proof.
  intros Hunique Hraise k.
  pose proof (tasks_by_id_well_keyed tasks) as HD.
  assert (∃ out, queue_ok (tasks_by_id_of tasks) [] out
            ∧ each_emission (eligible (tasks_by_id_of tasks)) out
            ∧ check_complete (tasks_by_id_of tasks) out
              = Raises (ValueError missing)) as (out & Hq & Hp & Hc).
  { destruct Hraise as [Hr|Hr].
    - destruct (sort_run_of tasks) as (o & Hq & Hp & _ & Hsort).
      exists o. by rw -Hsort.
    - destruct (generate_plan_run_of policy tasks) as (o & Hq & Hp & _ & Hgen).
      exists o. by rw -Hgen. }
  apply check_complete_raises in Hc. injection Hc as ->.
  rw elem_of_difference !elem_of_list_to_set.
  rw (unemitted_iff_cycle _ HD out Hq Hp k).
  by rw (values_unique tasks Hunique).
Qed.

(** X3. The two ordering functions agree on every input, whatever the
    policy: either both return, and the two lists hold the same tasks, or
    both raise the error with the same set of ids. *)
Theorem sort_and_plan_agree (policy : PriorityPolicy.t)
    (tasks : list TestTask.t) :
  (∃ out plan,
     TaskSorter.sort tasks = Returns out
     ∧ TestPlanGenerator.generate_plan policy tasks = Returns plan
     ∧ out ≡ₚ plan)
  ∨ (∃ missing,
       TaskSorter.sort tasks = Raises (ValueError missing)
       ∧ TestPlanGenerator.generate_plan policy tasks
         = Raises (ValueError missing)).
Proof.
  pose proof (tasks_by_id_well_keyed tasks) as HD.
  destruct (sort_run_of tasks) as (out & Hq & Hp & _ & ->).
  destruct (generate_plan_run_of policy tasks) as (plan & Hq' & Hp' & _ & ->).
  pose proof (runs_emit_the_same _ out plan HD Hq Hp Hq' Hp') as Hperm.
  assert (list_to_set (ids plan) =@{gset string} list_to_set (ids out))
    as Hset.
  { apply set_eq. intros k. by rw !elem_of_list_to_set /ids Hperm. }
  rw /check_complete -(Permutation_length Hperm) Hset. case_decide.
  - right. by eexists.
  - left. by exists out, plan.
Qed.

(** X4. Under a policy that gives every test type the same priority (an
    empty priority table, for one) [generate_plan] is [TaskSorter.sort]:
    the same list or the same error on every input. *)
Theorem flat_policy_plan_is_sort (policy : PriorityPolicy.t)
    (tasks : list TestTask.t) :
  (∀ a b, PriorityPolicy.get_priority_for_test_type policy a
          = PriorityPolicy.get_priority_for_test_type policy b) →
  TestPlanGenerator.generate_plan policy tasks = TaskSorter.sort tasks.
Proof.
  intros Hflat.
  by rw /TestPlanGenerator.generate_plan /TaskSorter.sort
       generator_flat_emitted.
Qed.

(** X5. [TaskSorter.sort] is first in, first out: when it emits [a] while
    another task [b] is eligible and not yet emitted, [a] was eligible
    whenever [b] was, and if the two became eligible together [a] comes
    before [b] in the input. *)
Theorem sort_first_in_first_out (tasks : list TestTask.t) :
  NoDup (ids tasks) →
  ∃ out,
    TaskSorter.emitted tasks = Returns out
    ∧ (TaskSorter.sort tasks = Returns out
       ∨ ∃ missing, TaskSorter.sort tasks = Raises (ValueError missing))
    ∧ ∀ pre a post b,
        out = pre ++ a :: post →
        b ∈ tasks → b ∉ pre → b ≠ a → ready_after tasks pre b →
        (∀ p, p `prefix_of` pre →
           ready_after tasks p b → ready_after tasks p a)
        ∧ ((∀ p, p `prefix_of` pre →
              ready_after tasks p a → ready_after tasks p b) →
           before tasks a b).
Proof.
  intros Hunique.
  pose proof (values_unique tasks Hunique) as Hv.
  destruct (generator_run tasks (PriorityPolicy.mk ∅ 0))
    as (out & Hrun & Hq & Hp).
  rw (generator_flat_emitted _ tasks flat_empty_policy) in Hrun.
  exists out. split_and!; [done| |].
  - rw /TaskSorter.sort Hrun. apply check_complete_cases.
  - intros pre a post b Hout Hb Hnb Hne Hready.
    destruct (Hp pre a post Hout) as (_ & _ & Htie).
    destruct (Htie b) as [Hfirst Hsame];
      [by rw Hv|done|done|by apply eligible_ready_after| |].
    { rw /TestPlanGenerator._priority. apply flat_empty_policy. }
    split.
    + intros p Hpre Hrb. apply eligible_ready_after; [done|].
      apply Hfirst; [done|]. by apply eligible_ready_after.
    + intros Hboth. rw -Hv. apply Hsame. intros p Hpre Hea.
      apply eligible_ready_after; [done|]. apply Hboth; [done|].
      by apply eligible_ready_after.
Qed.

(** ** Task sets without dependencies inside the set *)

Lemma filter_none {A} (P : A → Prop) `{!∀ x, Decision (P x)} (l : list A) :
  (∀ x, x ∈ l → ¬ P x) → filter P l = [].
Proof.
  induction l as [|x l IH]; [done|]. intros Hall.
  rw filter_cons decide_False; [|apply Hall; by left].
  apply IH. intros y Hy. apply Hall. by right.
Qed.

Lemma filter_all {A} (P : A → Prop) `{!∀ x, Decision (P x)} (l : list A) :
  (∀ x, x ∈ l → P x) → filter P l = l.
Proof.
  induction l as [|x l IH]; [done|]. intros Hall.
  rw filter_cons decide_True; [|apply Hall; by left].
  f_equal. apply IH. intros y Hy. apply Hall. by right.
Qed.

(** When nothing is ever released the queue is emitted as it stands,
    provided the requeueing leaves its tails alone. *)
Lemma schedule_no_release (Q : list TestTask.t → Prop)
    (f : list TestTask.t → list TestTask.t) D fuel ready ordered :
  (∀ e cur, released D e cur = []) →
  (∀ x l, Q (x :: l) → Q l ∧ f l = l) →
  Q ready → (length ready ≤ fuel)%nat →
  schedule f fuel D ready ordered = Some (ordered ++ ready).
Proof.
  intros Hrel Hstep. revert ready ordered.
  induction fuel as [|fuel IH]; intros [|cur rest] ordered HQ Hlen;
    simpl in *; try (by rw app_nil_r); [lia|].
  destruct (Hstep _ _ HQ) as [HQ' Hf].
  rw Hrel app_nil_r Hf IH //; [|lia]. by rw -assoc.
Qed.

Section Independent.
Import PyDict PyDictFacts.
Variable tasks : list TestTask.t.
Hypothesis Hunique : NoDup (ids tasks).
Hypothesis Hfree :
  ∀ t d, t ∈ tasks → d ∈ TestTask.dependencies t → d ∉ ids tasks.
Local Notation "'D'" := (tasks_by_id_of tasks).

Lemma free_in_set_deps t : t ∈ tasks → in_set_deps D t = [].
Proof.
  intros Ht. apply filter_none. intros d Hd.
  rw (keys_unique tasks Hunique). by apply (Hfree t).
Qed.

Lemma free_roots : roots D = tasks.
Proof.
  rw /roots (values_unique tasks Hunique). apply filter_all.
  intros t Ht. by rw /waiting free_in_set_deps.
Qed.

Lemma free_released e cur : released D e cur = [].
Proof.
  rw /released (values_unique tasks Hunique). apply filter_none.
  intros t Ht [Hpos _]. rw free_in_set_deps // in Hpos.
  rw /occurrences /= in Hpos. lia.
Qed.

Lemma free_length : length D = length tasks.
Proof. by rw tasks_by_id_unique // length_fmap. Qed.

Lemma free_sort : TaskSorter.sort tasks = Returns tasks.
Proof.
  rw /TaskSorter.sort sorter_emitted_schedule free_roots.
  rw (schedule_no_release (λ _, True) (λ r, r));
    [|apply free_released|done|done|by rw free_length].
  rw bind_Returns /check_complete /= decide_False //.
  rw free_length. by intros [].
Qed.

Lemma free_generate_plan policy :
  TestPlanGenerator.generate_plan policy tasks
  = Returns (sorted_desc (TestPlanGenerator._priority policy) tasks).
Proof.
  rw /TestPlanGenerator.generate_plan generator_emitted_schedule free_roots.
  rw (schedule_no_release
        (descending (TestPlanGenerator._priority policy))
        (requeue_by_priority policy));
    [|apply free_released| |apply sorted_desc_descending
     |by rw sorted_desc_perm free_length].
  - rw bind_Returns /check_complete /= decide_False //.
    rw sorted_desc_perm free_length. by intros [].
  - intros x l [_ Hl]%descending_cons. split; [done|].
    destruct l as [|y l]; [done|]. by apply sorted_desc_descending_id.
Qed.
End Independent.

(** X6. A task set with unique ids in which no task names another task of
    the set (or itself) as a dependency is returned by [TaskSorter.sort] in
    the order it came, and by [generate_plan] stably sorted by descending
    priority; the empty task set gives the empty plan. *)
Theorem independent_tasks_keep_order (policy : PriorityPolicy.t)
    (tasks : list TestTask.t) :
  NoDup (ids tasks) →
  (∀ t d, t ∈ tasks → d ∈ TestTask.dependencies t → d ∉ ids tasks) →
  TaskSorter.sort tasks = Returns tasks
  ∧ TestPlanGenerator.generate_plan policy tasks
    = Returns (sorted_desc (TestPlanGenerator._priority policy) tasks).
Proof.
  intros Hunique Hfree. split.
  - by apply free_sort.
  - by apply free_generate_plan.
Qed.

(** ** Repeated ids *)

Lemma tasks_by_id_snoc tasks t :
  tasks_by_id_of (tasks ++ [t])
  = PyDict.set (tasks_by_id_of tasks) (TestTask.id t) t.
Proof. by rw /tasks_by_id_of fold_left_app. Qed.

(** The dictionary holds, for each id, the last task of the input that has
    it. *)
Lemma tasks_by_id_last tasks k t :
  PyDict.get (tasks_by_id_of tasks) k = Some t →
  TestTask.id t = k
  ∧ ∃ l1 l2, tasks = l1 ++ t :: l2 ∧ k ∉ ids l2.
Proof.
  induction tasks as [|x tasks IH] using rev_ind; [done|].
  rw tasks_by_id_snoc PyDictFacts.get_set. case_decide as Hk.
  - intros [= <-]. split; [done|]. exists tasks, [].
    split; [done|]. apply not_elem_of_nil.
  - intros (Hid & l1 & l2 & -> & Hl2)%IH. split; [done|].
    exists l1, (l2 ++ [x]). split; [by rw -assoc|].
    rw ids_app. intros [?|Hx%list_elem_of_singleton]%elem_of_app; done.
Qed.

Lemma tasks_by_id_keys tasks k :
  k ∈ PyDict.keys (tasks_by_id_of tasks) ↔ k ∈ ids tasks.
Proof.
  rw -PyDictFacts.get_is_Some.
  induction tasks as [|x tasks IH] using rev_ind.
  - split; [by intros [? ?]|by intros ?%elem_of_nil].
  - rw tasks_by_id_snoc PyDictFacts.get_set ids_app elem_of_app -IH.
    rw list_elem_of_singleton. case_decide; naive_solver.
Qed.

(** X7. Repeated ids do not fail: of the tasks of the input that share an
    id, the last one replaces the others. A list that [TaskSorter.sort] or
    [generate_plan] returns has each id of the input exactly once, and the
    task it has for an id is the last task of the input with that id. *)
Theorem repeated_ids_last_wins (policy : PriorityPolicy.t)
    (tasks out : list TestTask.t) :
  TaskSorter.sort tasks = Returns out
  ∨ TestPlanGenerator.generate_plan policy tasks = Returns out →
  NoDup (ids out)
  ∧ (∀ k, k ∈ ids out ↔ k ∈ ids tasks)
  ∧ ∀ t, t ∈ out →
      ∃ l1 l2, tasks = l1 ++ t :: l2 ∧ TestTask.id t ∉ ids l2.
Proof.
  intros Hret.
  pose proof (tasks_by_id_well_keyed tasks) as HD.
  destruct (returned_run policy tasks out Hret) as (Hq & _ & Hperm).
  split_and!.
  - apply (out_nodup _ out Hq).
  - intros k. by rw -(tasks_by_id_keys tasks k) -(ids_values _ HD) /ids Hperm.
  - intros t Ht. rw Hperm in Ht.
    apply (values_elem _ HD), (PyDictFacts.elem_get_Some _ _ _ (proj1 HD)) in Ht.
    by apply tasks_by_id_last in Ht as [_ ?].
Qed.

(** ** Instances of the ordering properties *)

Lemma returned_plan_is_permutation_witness :
  NoDup (ids tie_tasks)
  ∧ (TaskSorter.sort tie_tasks
     = Returns [new_task "Y" TestType.UNIT []; new_task "R" TestType.E2E [];
                new_task "X" TestType.UNIT ["R"]]
     ∨ TestPlanGenerator.generate_plan PriorityPolicy.fallback tie_tasks
       = Returns [new_task "Y" TestType.UNIT []; new_task "R" TestType.E2E [];
                  new_task "X" TestType.UNIT ["R"]])
  ∧ [new_task "Y" TestType.UNIT []; new_task "R" TestType.E2E [];
     new_task "X" TestType.UNIT ["R"]] ≡ₚ tie_tasks.
Proof.
  assert (TaskSorter.sort tie_tasks
          = Returns [new_task "Y" TestType.UNIT [];
                     new_task "R" TestType.E2E [];
                     new_task "X" TestType.UNIT ["R"]]) as Hsort
    by (by vm_compute).
  split; [exact tie_tasks_unique|]. split; [by left|].
  exact (returned_plan_is_permutation PriorityPolicy.fallback tie_tasks _
           tie_tasks_unique (or_introl Hsort)).
Defined.

Lemma cycle_tasks_unique : NoDup (ids cycle_tasks).
Proof. by apply (bool_decide_unpack _). Defined.

Lemma cycle_error_names_blocked_tasks_witness :
  NoDup (ids cycle_tasks)
  ∧ (TaskSorter.sort cycle_tasks = Raises (ValueError {[ "A"; "B" ]})
     ∨ TestPlanGenerator.generate_plan PriorityPolicy.fallback cycle_tasks
       = Raises (ValueError {[ "A"; "B" ]}))
  ∧ ∀ k, k ∈ ({[ "A"; "B" ]} : gset string)
         ↔ ∃ c, tc (dep_edge cycle_tasks) c c ∧ rtc (dep_edge cycle_tasks) c k.
Proof.
  assert (TaskSorter.sort cycle_tasks = Raises (ValueError {[ "A"; "B" ]}))
    as Hsort by (by vm_compute).
  split; [exact cycle_tasks_unique|]. split; [by left|].
  exact (cycle_error_names_blocked_tasks PriorityPolicy.fallback cycle_tasks
           _ cycle_tasks_unique (or_introl Hsort)).
Defined.

Lemma flat_policy_plan_is_sort_witness :
  (∀ a b, PriorityPolicy.get_priority_for_test_type (PriorityPolicy.mk ∅ 0) a
          = PriorityPolicy.get_priority_for_test_type (PriorityPolicy.mk ∅ 0)
              b)
  ∧ TestPlanGenerator.generate_plan (PriorityPolicy.mk ∅ 0) tie_tasks
    = TaskSorter.sort tie_tasks.
Proof.
  split; [exact flat_empty_policy|].
  exact (flat_policy_plan_is_sort (PriorityPolicy.mk ∅ 0) tie_tasks
           flat_empty_policy).
Defined.

Lemma sort_first_in_first_out_witness :
  NoDup (ids tie_tasks)
  ∧ ∃ out,
      TaskSorter.emitted tie_tasks = Returns out
      ∧ (TaskSorter.sort tie_tasks = Returns out
         ∨ ∃ missing, TaskSorter.sort tie_tasks = Raises (ValueError missing))
      ∧ ∀ pre a post b,
          out = pre ++ a :: post →
          b ∈ tie_tasks → b ∉ pre → b ≠ a → ready_after tie_tasks pre b →
          (∀ p, p `prefix_of` pre →
             ready_after tie_tasks p b → ready_after tie_tasks p a)
          ∧ ((∀ p, p `prefix_of` pre →
                ready_after tie_tasks p a → ready_after tie_tasks p b) →
             before tie_tasks a b).
Proof.
  split; [exact tie_tasks_unique|].
  exact (sort_first_in_first_out tie_tasks tie_tasks_unique).
Defined.

Lemma independent_tasks_unique : NoDup (ids independent_tasks).
Proof. by apply (bool_decide_unpack _). Defined.

Lemma independent_tasks_free t d :
  t ∈ independent_tasks → d ∈ TestTask.dependencies t →
  d ∉ ids independent_tasks.
Proof.
  intros Ht Hd.
  repeat (apply elem_of_cons in Ht as [->|Ht]);
    [|by apply elem_of_nil in Hd..|by apply elem_of_nil in Ht].
  apply list_elem_of_singleton in Hd as ->.
  by apply (bool_decide_unpack _).
Defined.

Lemma independent_tasks_keep_order_witness :
  NoDup (ids independent_tasks)
  ∧ (∀ t d, t ∈ independent_tasks → d ∈ TestTask.dependencies t →
            d ∉ ids independent_tasks)
  ∧ TaskSorter.sort independent_tasks = Returns independent_tasks
  ∧ TestPlanGenerator.generate_plan PriorityPolicy.fallback independent_tasks
    = Returns (sorted_desc (TestPlanGenerator._priority PriorityPolicy.fallback)
                 independent_tasks).
Proof.
  split; [exact independent_tasks_unique|].
  split; [exact independent_tasks_free|].
  exact (independent_tasks_keep_order PriorityPolicy.fallback
           independent_tasks independent_tasks_unique independent_tasks_free).
Defined.

Lemma repeated_ids_last_wins_witness :
  (TaskSorter.sort repeated_tasks
   = Returns [new_task "A" TestType.E2E []; new_task "B" TestType.UNIT ["A"]]
   ∨ TestPlanGenerator.generate_plan PriorityPolicy.fallback repeated_tasks
     = Returns [new_task "A" TestType.E2E [];
                new_task "B" TestType.UNIT ["A"]])
  ∧ NoDup (ids [new_task "A" TestType.E2E [];
                new_task "B" TestType.UNIT ["A"]])
  ∧ (∀ k, k ∈ ids [new_task "A" TestType.E2E [];
                   new_task "B" TestType.UNIT ["A"]]
          ↔ k ∈ ids repeated_tasks)
  ∧ ∀ t, t ∈ [new_task "A" TestType.E2E []; new_task "B" TestType.UNIT ["A"]] →
      ∃ l1 l2, repeated_tasks = l1 ++ t :: l2 ∧ TestTask.id t ∉ ids l2.
Proof.
  assert (TaskSorter.sort repeated_tasks
          = Returns [new_task "A" TestType.E2E [];
                     new_task "B" TestType.UNIT ["A"]]) as Hsort
    by (by vm_compute).
  split; [by left|].
  exact (repeated_ids_last_wins PriorityPolicy.fallback repeated_tasks _
           (or_introl Hsort)).
Defined.

(** * Further properties of the dependency gate *)

Section Steps.
Variable notifier : list status_change → status_change → bool.
Implicit Types (w : world) (task : TestTask.t) (op : operation).

Lemma can_start_absent w task_id :
  session w !! task_id = None → DependencyResolver.can_start w task_id = false.
Proof.
  intros Hget. rw /DependencyResolver.can_start.
  by rw /TaskDependencies.dependencies_complete /TestTaskDAL.get_task Hget.
Qed.

(** An operation on a task that is not in the store changes nothing. *)
Lemma apply_operation_absent op w :
  session w !! operation_task op = None → apply_operation notifier op w = w.
Proof.
  intros Hget. destruct op; simpl in *.
  - by rw /DependencyResolver.start_if_ready can_start_absent.
  - by rw /DependencyResolver.complete_if_ready can_start_absent.
  - by rw /TaskDependencies.mark_in_progress_if_ready /TestTaskDAL.get_task
         Hget.
  - by rw /TaskDependencies.complete_task /TestTaskDAL.get_task Hget.
  - by rw /TaskStatusManager.update_status /TestTaskDAL.get_task Hget.
Qed.

(** A gated operation on a task with a dependency that is absent or not
    done changes nothing. *)
Lemma apply_operation_blocked op w task :
  gated op → session w !! operation_task op = Some task →
  ¬ deps_done (session w) task →
  apply_operation notifier op w = w.
Proof.
  intros Hop Hget Hno.
  assert (DependencyResolver.can_start w (operation_task op) = false) as Hcs.
  { destruct (DependencyResolver.can_start w (operation_task op)) eqn:Hcs;
      [|done].
    by apply (can_start_true w _ task Hget) in Hcs. }
  destruct op; simpl in *; try done.
  - by rw /DependencyResolver.start_if_ready Hcs.
  - by rw /DependencyResolver.complete_if_ready Hcs.
  - by rw mark_in_progress_if_ready_shape
         (write_if_ready_blocked _ w task_id task).
  - by rw complete_task_shape (write_if_ready_blocked _ w task_id task).
Qed.

(** Any other operation writes its status into the row and commits. *)
Lemma apply_operation_ready op w task :
  session w !! operation_task op = Some task →
  (gated op → deps_done (session w) task) →
  session (apply_operation notifier op w)
  = <[operation_task op := set_status task (operation_status op)]> (session w)
  ∧ commits (apply_operation notifier op w) = S (commits w)
  ∧ notified w `prefix_of` notified (apply_operation notifier op w).
Proof.
  intros Hget Hdone.
  assert (gated op → DependencyResolver.can_start w (operation_task op) = true)
    as Hcs.
  { intros Hop. by apply (can_start_true w _ task Hget), Hdone. }
  assert (∀ s,
            let w' := (TaskStatusManager.update_status notifier w
                         (operation_task op) (StatusEnum s) None).2 in
            session w' = <[operation_task op := set_status task s]> (session w)
            ∧ commits w' = S (commits w)
            ∧ notified w `prefix_of` notified w') as Hupdate.
  { intros s.
    destruct (update_status_present notifier w (operation_task op) task
                (StatusEnum s) s None Hget eq_refl)
      as (w' & -> & Hs & Hc & Hn).
    simpl. split_and!; [done..|]. rw Hn. by eexists. }
  destruct op; simpl in *.
  - rw /DependencyResolver.start_if_ready Hcs //. apply Hupdate.
  - rw /DependencyResolver.complete_if_ready Hcs //. apply Hupdate.
  - rw mark_in_progress_if_ready_shape
      (write_if_ready_ready _ w task_id task Hget (Hdone I)) /=.
    by split_and!.
  - rw complete_task_shape
      (write_if_ready_ready _ w task_id task Hget (Hdone I)) /=.
    by split_and!.
  - apply Hupdate.
Qed.

(** The three cases together. *)
Lemma apply_operation_cases op w :
  apply_operation notifier op w = w
  ∨ ∃ task, session w !! operation_task op = Some task
            ∧ (gated op → deps_done (session w) task)
            ∧ session (apply_operation notifier op w)
              = <[operation_task op := set_status task (operation_status op)]>
                  (session w)
            ∧ commits (apply_operation notifier op w) = S (commits w)
            ∧ notified w `prefix_of` notified (apply_operation notifier op w).
Proof.
  destruct (session w !! operation_task op) as [task|] eqn:Hget;
    [|left; by apply apply_operation_absent].
  assert (gated op ∨ ¬ gated op) as [Hop|Hop]
    by (destruct op; simpl; auto).
  - destruct (DependencyResolver.can_start w (operation_task op)) eqn:Hcs.
    + apply (can_start_true w _ task Hget) in Hcs.
      right. exists task. split; [done|]. split; [done|].
      by apply apply_operation_ready.
    + left. apply (apply_operation_blocked op w task); [done..|].
      rw -(can_start_true w _ task Hget) Hcs. done.
  - right. exists task. split; [done|]. split; [done|].
    by apply apply_operation_ready.
Qed.

Lemma apply_operations_cons op ops w :
  apply_operations notifier (op :: ops) w
  = apply_operations notifier ops (apply_operation notifier op w).
Proof. done. Qed.

Lemma apply_operations_app ops1 ops2 w :
  apply_operations notifier (ops1 ++ ops2) w
  = apply_operations notifier ops2 (apply_operations notifier ops1 w).
Proof. apply foldl_app. Qed.
End Steps.

Lemma set_status_same (task : TestTask.t) :
  set_status task (TestTask.status task) = task.
Proof. by destruct task. Qed.

Lemma ids_inj (l : list TestTask.t) (x y : TestTask.t) :
  NoDup (ids l) → x ∈ l → y ∈ l → TestTask.id x = TestTask.id y → x = y.
Proof.
  intros Hnd Hx Hy Heq.
  apply list_elem_of_lookup in Hx as [i Hi].
  apply list_elem_of_lookup in Hy as [j Hj].
  assert (i = j) as ->; [|congruence].
  apply (NoDup_lookup (ids l) i j (TestTask.id x)); [done|..].
  - by rw /ids list_lookup_fmap Hi.
  - by rw /ids list_lookup_fmap Hj /= Heq.
Qed.

(** The rows after a sequence of operations. *)
Lemma apply_operations_rows
    (notifier : list status_change → status_change → bool)
    (ops : list operation) (w : world) (k : string) :
  match session w !! k with
  | None => session (apply_operations notifier ops w) !! k = None
  | Some task =>
      ∃ s, session (apply_operations notifier ops w) !! k
           = Some (set_status task s)
  end
  ∧ (commits w ≤ commits (apply_operations notifier ops w))%nat
  ∧ notified w `prefix_of` notified (apply_operations notifier ops w).
Proof.
  revert w. induction ops as [|op ops IH]; intros w.
  { simpl. split; [|done]. destruct (session w !! k) as [task|]; [|done].
    exists (TestTask.status task). by rw set_status_same. }
  rw apply_operations_cons.
  destruct (IH (apply_operation notifier op w)) as (Hrow & Hc & Hn).
  destruct (apply_operation_cases notifier op w)
    as [Heq|(task & Hget & _ & Hs & Hc' & Hn')].
  { by rw Heq in Hrow Hc Hn |- *. }
  split; [|split; [lia|by etrans]].
  rw Hs in Hrow. destruct (decide (operation_task op = k)) as [<-|Hne].
  - rw lookup_insert_eq in Hrow. rw Hget. destruct Hrow as [s' Hrow].
    by exists s'.
  - by rw lookup_insert_ne // in Hrow.
Qed.

(** X8. No operation, gated or not, does anything to the store but write
    the status of rows that exist: across every sequence of operations no
    row is added or removed, every row keeps its id, description, test
    type, dependencies, owner and coverage status, the number of commits
    does not go down, and the notifications sent so far stay as they
    are. *)
Theorem operations_only_write_status
    (notifier : list status_change → status_change → bool)
    (ops : list operation) (w : world) (k : string) :
  match session w !! k with
  | None => session (apply_operations notifier ops w) !! k = None
  | Some task =>
      ∃ s, session (apply_operations notifier ops w) !! k
           = Some (set_status task s)
  end
  ∧ (commits w ≤ commits (apply_operations notifier ops w))%nat
  ∧ notified w `prefix_of` notified (apply_operations notifier ops w).
Proof. apply apply_operations_rows. Qed.

(** Tasks that block each other are not moved by gated operations. *)
Lemma deadlocked_rows_fixed
    (notifier : list status_change → status_change → bool)
    (ops : list operation) (w : world) (B : gset string) :
  deadlocked (session w) B → Forall gated ops →
  ∀ b, b ∈ B →
    session (apply_operations notifier ops w) !! b = session w !! b.
Proof.
  intros Hdead Hops. revert w Hdead.
  induction Hops as [|op ops Hop _ IH]; intros w Hdead b Hb; [done|].
  rw apply_operations_cons.
  destruct (apply_operation_cases notifier op w)
    as [Heq|(task & Hget & Hdone & Hs & _)].
  { rw Heq. by apply IH. }
  specialize (Hdone Hop).
  assert (operation_task op ∉ B) as Hout.
  { intros Hin. destruct (Hdead _ Hin) as (task' & d & Hget' & Hd & Hblock).
    assert (task' = task) as -> by congruence.
    destruct (Hdone d Hd) as (dep & Hdep & Hst). rw Hdep in Hblock.
    by destruct Hblock. }
  rw IH //.
  - rw Hs lookup_insert_ne //. by intros <-.
  - intros b' Hb'. destruct (Hdead _ Hb') as (task' & d & Hget' & Hd & Hblock).
    exists task', d. rw Hs. split_and!; [|done|].
    + rw lookup_insert_ne //. by intros <-.
    + destruct (decide (operation_task op = d)) as [<-|Hne];
        [|by rw lookup_insert_ne].
      rw Hget in Hblock. by destruct Hblock.
Qed.

(** X9. Deadlock: tasks that block each other stay as they are. When each
    task of a set has a dependency that is missing from the store, or that
    is a task of the set and not done, no sequence of gated operations
    changes the row of any task of the set; a dependency cycle of unfinished
    tasks, a task that depends on itself and a task with a dependency that
    was never stored can only be moved by [update_status]. *)
Theorem deadlocked_tasks_never_move
    (notifier : list status_change → status_change → bool)
    (ops : list operation) (w : world) (B : gset string) :
  deadlocked (session w) B → Forall gated ops →
  ∀ b, b ∈ B →
    session (apply_operations notifier ops w) !! b = session w !! b.
Proof. apply deadlocked_rows_fixed. Qed.

Lemma update_all_done
    (notifier : list status_change → status_change → bool)
    (ds : list string) (w : world) :
  (∀ d, d ∈ ds → is_Some (session w !! d)) →
  ∀ k row, session w !! k = Some row →
    session (apply_operations notifier
               ((λ d, UpdateStatus d TaskStatus.DONE) <$> ds) w) !! k
    = Some (if decide (k ∈ ds) then set_status row TaskStatus.DONE else row).
Proof.
  revert w. induction ds as [|d ds IH]; intros w Hall k row Hk; [done|].
  rw fmap_cons apply_operations_cons.
  destruct (Hall d) as [rd Hd]; [by left|].
  destruct (apply_operation_ready notifier (UpdateStatus d TaskStatus.DONE)
              w rd Hd) as (Hs & _); [done|]. simpl in Hs.
  assert (∀ d', d' ∈ ds →
            is_Some (session (apply_operation notifier
                                (UpdateStatus d TaskStatus.DONE) w) !! d'))
    as Hall'.
  { intros d' Hd'. rw Hs. apply lookup_insert_is_Some'. right.
    apply Hall. by right. }
  destruct (decide (d = k)) as [->|Hne].
  - rw (IH _ Hall' k (set_status rd TaskStatus.DONE));
      [|by rw Hs lookup_insert_eq].
    assert (rd = row) as -> by congruence.
    rw (decide_True (P := k ∈ k :: ds)); [|by left]. by case_decide.
  - rw (IH _ Hall' k row); [|by rw Hs lookup_insert_ne].
    f_equal. repeat case_decide; set_solver.
Qed.

(** X10. Marking the dependencies done unblocks a task: when every
    dependency of a stored task is itself in the store, after
    [update_status(d, DONE)] for each dependency [d] the call
    [start_if_ready] succeeds and leaves the task in progress. *)
Theorem done_dependencies_unblock
    (notifier : list status_change → status_change → bool)
    (w : world) (task_id : string) (task : TestTask.t) :
  session w !! task_id = Some task →
  (∀ d, d ∈ TestTask.dependencies task → is_Some (session w !! d)) →
  ∃ w',
    DependencyResolver.start_if_ready notifier
      (apply_operations notifier
         ((λ d, UpdateStatus d TaskStatus.DONE) <$> TestTask.dependencies task)
         w)
      task_id
    = (Returns true, w')
    ∧ TestTask.status <$> session w' !! task_id = Some TaskStatus.IN_PROGRESS.
Proof.
  intros Hget Hall.
  set (w1 := apply_operations notifier _ w).
  pose proof (update_all_done notifier (TestTask.dependencies task) w Hall)
    as Hrows. fold w1 in Hrows.
  set (row := if decide (task_id ∈ TestTask.dependencies task)
              then set_status task TaskStatus.DONE else task).
  assert (session w1 !! task_id = Some row) as Hget1 by (by apply Hrows).
  assert (TestTask.dependencies row = TestTask.dependencies task) as Hdeps.
  { rw /row. by case_decide. }
  assert (DependencyResolver.can_start w1 task_id = true) as Hcs.
  { apply (can_start_true w1 task_id row Hget1). intros d Hd.
    rw Hdeps in Hd. destruct (Hall d Hd) as [rd Hrd].
    exists (set_status rd TaskStatus.DONE).
    by rw (Hrows d rd Hrd) decide_True. }
  destruct (update_status_present notifier w1 task_id row
              (StatusEnum TaskStatus.IN_PROGRESS) TaskStatus.IN_PROGRESS None
              Hget1 eq_refl) as (w' & Hrun & Hs & _).
  exists w'. rw /DependencyResolver.start_if_ready Hcs /= Hrun.
  split; [done|]. by rw Hs lookup_insert_eq.
Qed.

(** X11. A gated call that succeeded can be repeated: for a stored task
    whose dependencies are all done and that does not depend on itself,
    a second [start_if_ready] (or [complete_if_ready]) right after the
    first returns true again, leaves the store as it is and sends no
    notification; it only commits once more. *)
Theorem repeated_gated_call
    (notifier : list status_change → status_change → bool)
    (w : world) (task_id : string) (task : TestTask.t) :
  session w !! task_id = Some task →
  deps_done (session w) task →
  task_id ∉ TestTask.dependencies task →
  (∃ w2,
     DependencyResolver.start_if_ready notifier
       (DependencyResolver.start_if_ready notifier w task_id).2 task_id
     = (Returns true, w2)
     ∧ session w2
       = session (DependencyResolver.start_if_ready notifier w task_id).2
     ∧ notified w2
       = notified (DependencyResolver.start_if_ready notifier w task_id).2
     ∧ commits w2
       = S (commits (DependencyResolver.start_if_ready notifier w task_id).2))
  ∧ (∃ w2,
       DependencyResolver.complete_if_ready notifier
         (DependencyResolver.complete_if_ready notifier w task_id).2 task_id
       = (Returns true, w2)
       ∧ session w2
         = session (DependencyResolver.complete_if_ready notifier w task_id).2
       ∧ notified w2
         = notified
             (DependencyResolver.complete_if_ready notifier w task_id).2
       ∧ commits w2
         = S (commits
                (DependencyResolver.complete_if_ready notifier w task_id).2)).
Proof.
  intros Hget Hdone Hself.
  assert (∀ s,
            let w1 := (TaskStatusManager.update_status notifier w task_id
                         (StatusEnum s) None).2 in
            ∃ w2, (if negb (DependencyResolver.can_start w1 task_id)
                   then (Returns false, w1)
                   else TaskStatusManager.update_status notifier w1 task_id
                          (StatusEnum s) None)
                  = (Returns true, w2)
                  ∧ session w2 = session w1 ∧ notified w2 = notified w1
                  ∧ commits w2 = S (commits w1)) as Htwice.
  { intros s.
    destruct (update_status_present notifier w task_id task (StatusEnum s) s
                None Hget eq_refl) as (w1 & -> & Hs1 & _). simpl.
    assert (session w1 !! task_id = Some (set_status task s)) as Hget1
      by (by rw Hs1 lookup_insert_eq).
    assert (DependencyResolver.can_start w1 task_id = true) as ->.
    { apply (can_start_true w1 task_id _ Hget1). intros d Hd.
      destruct (Hdone d Hd) as (dep & Hdep & Hst). exists dep.
      split; [|done]. rw Hs1 lookup_insert_ne //. by intros ->. }
    destruct (update_status_present notifier w1 task_id (set_status task s)
                (StatusEnum s) s None Hget1 eq_refl)
      as (w2 & -> & Hs2 & Hc2 & Hn2).
    exists w2. split_and!; [done| | |done].
    - rw Hs2 Hs1 insert_insert_eq. done.
    - rw Hn2 /=. destruct (decide (s ≠ s)); [done|]. by rw app_nil_r. }
  assert (DependencyResolver.can_start w task_id = true) as Hcs
    by (by apply (can_start_true w task_id task Hget)).
  rw /DependencyResolver.start_if_ready /DependencyResolver.complete_if_ready.
  rw Hcs /=. split; apply Htwice.
Qed.

(** X12. The two implementations of the gate agree on the store: for every
    store and task id, [DependencyResolver.start_if_ready] returns what
    [TaskDependencies.mark_in_progress_if_ready] returns and leaves the same
    rows and the same number of commits, and so do [complete_if_ready] and
    [complete_task]; the resolver only adds the notification. *)
Theorem resolver_agrees_with_task_dependencies
    (notifier : list status_change → status_change → bool)
    (w : world) (task_id : string) :
  ((DependencyResolver.start_if_ready notifier w task_id).1
   = Returns (TaskDependencies.mark_in_progress_if_ready w task_id).1
   ∧ session (DependencyResolver.start_if_ready notifier w task_id).2
     = session (TaskDependencies.mark_in_progress_if_ready w task_id).2
   ∧ commits (DependencyResolver.start_if_ready notifier w task_id).2
     = commits (TaskDependencies.mark_in_progress_if_ready w task_id).2)
  ∧ ((DependencyResolver.complete_if_ready notifier w task_id).1
     = Returns (TaskDependencies.complete_task w task_id).1
     ∧ session (DependencyResolver.complete_if_ready notifier w task_id).2
       = session (TaskDependencies.complete_task w task_id).2
     ∧ commits (DependencyResolver.complete_if_ready notifier w task_id).2
       = commits (TaskDependencies.complete_task w task_id).2).
Proof.
  assert (∀ s,
            let r := if negb (DependencyResolver.can_start w task_id)
                     then (Returns false, w)
                     else TaskStatusManager.update_status notifier w task_id
                            (StatusEnum s) None in
            r.1 = Returns (write_if_ready s w task_id).1
            ∧ session r.2 = session (write_if_ready s w task_id).2
            ∧ commits r.2 = commits (write_if_ready s w task_id).2) as Hboth.
  { intros s. destruct (session w !! task_id) as [task|] eqn:Hget.
    - destruct (DependencyResolver.can_start w task_id) eqn:Hcs; simpl.
      + apply (can_start_true w task_id task Hget) in Hcs.
        rw (write_if_ready_ready s w task_id task Hget Hcs) /=.
        destruct (update_status_present notifier w task_id task
                    (StatusEnum s) s None Hget eq_refl)
          as (w' & -> & Hs' & Hc' & _).
        by rw /= Hs' Hc'.
      + rw (write_if_ready_blocked s w task_id task Hget) //.
        rw -(can_start_true w task_id task Hget) Hcs. done.
    - rw can_start_absent //=.
      by rw /write_if_ready /TestTaskDAL.get_task Hget. }
  rw mark_in_progress_if_ready_shape complete_task_shape.
  split; apply Hboth.
Qed.

(** ** Working a plan off *)

Lemma work_off_cons t plan :
  work_off (t :: plan)
  = StartIfReady (TestTask.id t) :: CompleteIfReady (TestTask.id t)
      :: work_off plan.
Proof. done. Qed.

(** Starting and completing a stored task whose dependencies are done
    leaves it done and touches no other row. *)
Lemma start_then_complete
    (notifier : list status_change → status_change → bool)
    (w : world) (task_id : string) (row : TestTask.t) :
  session w !! task_id = Some row →
  deps_done (session w) row →
  task_id ∉ TestTask.dependencies row →
  session (apply_operations notifier
             [StartIfReady task_id; CompleteIfReady task_id] w)
  = <[task_id := set_status row TaskStatus.DONE]> (session w)
  ∧ commits (apply_operations notifier
               [StartIfReady task_id; CompleteIfReady task_id] w)
    = S (S (commits w)).
Proof.
  intros Hget Hdone Hself. rw !apply_operations_cons.
  destruct (apply_operation_ready notifier (StartIfReady task_id) w row Hget)
    as (Hs1 & Hc1 & _); [done|]. simpl in Hs1.
  set (w1 := apply_operation notifier (StartIfReady task_id) w) in *.
  assert (session w1 !! task_id
          = Some (set_status row TaskStatus.IN_PROGRESS)) as Hget1
    by (by rw Hs1 lookup_insert_eq).
  destruct (apply_operation_ready notifier (CompleteIfReady task_id) w1 _
              Hget1) as (Hs2 & Hc2 & _).
  { intros _ d Hd. destruct (Hdone d Hd) as (dep & Hdep & Hst).
    exists dep. split; [|done]. rw Hs1 lookup_insert_ne //. by intros <-. }
  simpl in *. by rw Hs2 Hc2 Hc1 Hs1 insert_insert_eq.
Qed.

Lemma work_off_steps
    (notifier : list status_change → status_change → bool)
    (rest pre : list TestTask.t) (w : world) :
  NoDup (ids (pre ++ rest)) →
  (∀ pre' t post, rest = pre' ++ t :: post →
     ∀ d, d ∈ TestTask.dependencies t → d ∈ ids (pre ++ pre')) →
  stored (session w) (pre ++ rest) →
  (∀ t, t ∈ pre →
     ∃ row, session w !! TestTask.id t = Some row
            ∧ TestTask.status row = TaskStatus.DONE) →
  (∀ t, t ∈ pre ++ rest →
     ∃ row, session (apply_operations notifier (work_off rest) w)
              !! TestTask.id t = Some row
            ∧ TestTask.status row = TaskStatus.DONE)
  ∧ commits (apply_operations notifier (work_off rest) w)
    = (commits w + 2 * length rest)%nat.
Proof.
  revert pre w. induction rest as [|t rest IH]; intros pre w Hnd Hready Hst Hpre.
  { rw app_nil_r /=. split; [done|lia]. }
  rw work_off_cons.
  change (StartIfReady (TestTask.id t) :: CompleteIfReady (TestTask.id t)
            :: work_off rest)
    with ([StartIfReady (TestTask.id t); CompleteIfReady (TestTask.id t)]
            ++ work_off rest).
  rw apply_operations_app.
  assert (t ∈ pre ++ t :: rest) as Ht
    by (apply elem_of_app; right; by left).
  destruct (Hst t Ht) as (row & Hrow & Hdeps).
  assert (TestTask.id t ∉ ids pre) as Hfresh.
  { rw ids_app in Hnd. apply NoDup_app in Hnd as (_ & Hdisj & _).
    intros Hin. apply (Hdisj _ Hin). by left. }
  assert (∀ d, d ∈ TestTask.dependencies t → d ∈ ids pre) as Hin.
  { intros d Hd. specialize (Hready [] t rest eq_refl d Hd).
    by rw app_nil_r in Hready. }
  destruct (start_then_complete notifier w (TestTask.id t) row Hrow)
    as [Hs Hc].
  { intros d Hd. rw Hdeps in Hd.
    apply Hin, list_elem_of_fmap in Hd as (u & -> & Hu). by apply Hpre. }
  { rw Hdeps. intros Hd. by apply Hfresh, Hin. }
  set (w2 := apply_operations notifier _ w) in *.
  destruct (IH (pre ++ [t]) w2) as [Hdone Hcommits].
  - by rw -assoc.
  - intros pre' u post -> d Hd. rw -assoc /=.
    by apply (Hready (t :: pre') u post).
  - rw -assoc /=. intros u Hu. destruct (Hst u Hu) as (ru & Hru & Hdu).
    rw Hs. destruct (decide (TestTask.id t = TestTask.id u)) as [Heq|Hne].
    + rw Heq lookup_insert_eq. eexists. split; [done|].
      assert (t = u) as <- by (by apply (ids_inj (pre ++ t :: rest))).
      done.
    + rw lookup_insert_ne //. by exists ru.
  - intros u [Hu| ->%list_elem_of_singleton]%elem_of_app.
    + destruct (Hpre u Hu) as (ru & Hru & Hdu). rw Hs lookup_insert_ne.
      * by exists ru.
      * intros Heq. apply Hfresh. rw Heq. by apply elem_ids.
    + rw Hs lookup_insert_eq. by eexists.
  - split; [by rw -assoc in Hdone|]. rw Hcommits Hc /=. lia.
Qed.

(** X13. A plan can be worked off in its order: when every dependency
    named by a task set with unique ids is a task of the set, and the tasks
    are in the store with these dependencies, then starting and completing
    the tasks through the gate in the order that [TaskSorter.sort] or
    [generate_plan] returned leaves every task done. Each of the two calls
    for each task commits, which a call that is turned down does not do, so
    none of them was blocked. *)
Theorem plan_order_passes_gate
    (notifier : list status_change → status_change → bool)
    (policy : PriorityPolicy.t) (tasks out : list TestTask.t) (w : world) :
  NoDup (ids tasks) →
  (∀ t d, t ∈ tasks → d ∈ TestTask.dependencies t → d ∈ ids tasks) →
  TaskSorter.sort tasks = Returns out
  ∨ TestPlanGenerator.generate_plan policy tasks = Returns out →
  stored (session w) tasks →
  (∀ t, t ∈ tasks →
     ∃ row, session (apply_operations notifier (work_off out) w)
              !! TestTask.id t = Some row
            ∧ TestTask.status row = TaskStatus.DONE)
  ∧ commits (apply_operations notifier (work_off out) w)
    = (commits w + 2 * length tasks)%nat.
Proof.
  intros Hunique Hclosed Hret Hst.
  destruct (returned_run policy tasks out Hret) as (Hq & Hp & Hperm).
  rw (values_unique tasks Hunique) in Hperm.
  destruct (work_off_steps notifier out [] w) as [Hdone Hc].
  - simpl. by rw /ids Hperm.
  - intros pre' t post Hout d Hd. simpl.
    assert (t ∈ tasks) as Ht.
    { rw -Hperm Hout. apply elem_of_app. right. by left. }
    apply (eligible_ready_after tasks Hunique pre' t); [|done|].
    + by apply (Hp pre' t post).
    + by apply (Hclosed t).
  - simpl. intros t Ht. apply Hst. by rw -Hperm.
  - by intros t Ht%elem_of_nil.
  - simpl in Hdone. split.
    + intros t Ht. apply Hdone. by rw Hperm.
    + by rw Hc Hperm.
Qed.

(** ** Instances of the gate properties *)

Lemma cycle_world_deadlocked :
  deadlocked (session cycle_world) {[ "A"; "B" ]}.
Proof.
  intros b [->%elem_of_singleton| ->%elem_of_singleton]%elem_of_union.
  - exists (new_task "A" TestType.UNIT ["B"]), "B".
    split_and!; [by vm_compute|by left|].
    replace (session cycle_world !! "B")
      with (Some (new_task "B" TestType.UNIT ["A"])) by (by vm_compute).
    split; [|done]. apply elem_of_union. right. by apply elem_of_singleton.
  - exists (new_task "B" TestType.UNIT ["A"]), "A".
    split_and!; [by vm_compute|by left|].
    replace (session cycle_world !! "A")
      with (Some (new_task "A" TestType.UNIT ["B"])) by (by vm_compute).
    split; [|done]. apply elem_of_union. left. by apply elem_of_singleton.
Defined.

Lemma deadlocked_tasks_never_move_witness :
  deadlocked (session cycle_world) {[ "A"; "B" ]}
  ∧ Forall gated [StartIfReady "A"; CompleteTask "B";
                  MarkInProgressIfReady "A"; CompleteIfReady "B"]
  ∧ ∀ b, b ∈ ({[ "A"; "B" ]} : gset string) →
      session (apply_operations (λ _ _, true)
                 [StartIfReady "A"; CompleteTask "B";
                  MarkInProgressIfReady "A"; CompleteIfReady "B"]
                 cycle_world) !! b
      = session cycle_world !! b.
Proof.
  assert (Forall gated [StartIfReady "A"; CompleteTask "B";
                        MarkInProgressIfReady "A"; CompleteIfReady "B"])
    as Hops by (repeat constructor).
  split; [exact cycle_world_deadlocked|]. split; [exact Hops|].
  exact (deadlocked_tasks_never_move (λ _ _, true) _ cycle_world _
           cycle_world_deadlocked Hops).
Defined.

Lemma scenario_x_deps_stored d :
  d ∈ TestTask.dependencies scenario_x → is_Some (session scenario_world !! d).
Proof.
  intros ->%list_elem_of_singleton. exists scenario_y. by vm_compute.
Defined.

Lemma done_dependencies_unblock_witness :
  session scenario_world !! "X" = Some scenario_x
  ∧ (∀ d, d ∈ TestTask.dependencies scenario_x →
          is_Some (session scenario_world !! d))
  ∧ ∃ w',
      DependencyResolver.start_if_ready (λ _ _, true)
        (apply_operations (λ _ _, true)
           ((λ d, UpdateStatus d TaskStatus.DONE)
              <$> TestTask.dependencies scenario_x)
           scenario_world)
        "X"
      = (Returns true, w')
      ∧ TestTask.status <$> session w' !! "X" = Some TaskStatus.IN_PROGRESS.
Proof.
  split; [exact scenario_x_in_store|]. split; [exact scenario_x_deps_stored|].
  exact (done_dependencies_unblock (λ _ _, true) scenario_world "X"
           scenario_x scenario_x_in_store scenario_x_deps_stored).
Defined.

Lemma done_x_not_own_dependency :
  "X" ∉ TestTask.dependencies (set_status scenario_x TaskStatus.DONE).
Proof. by apply (bool_decide_unpack _). Defined.

Lemma repeated_gated_call_witness :
  session done_world !! "X" = Some (set_status scenario_x TaskStatus.DONE)
  ∧ deps_done (session done_world) (set_status scenario_x TaskStatus.DONE)
  ∧ ("X" ∉ TestTask.dependencies (set_status scenario_x TaskStatus.DONE))
  ∧ (∃ w2,
       DependencyResolver.start_if_ready (λ _ _, true)
         (DependencyResolver.start_if_ready (λ _ _, true) done_world "X").2
         "X"
       = (Returns true, w2)
       ∧ session w2
         = session
             (DependencyResolver.start_if_ready (λ _ _, true) done_world "X").2
       ∧ notified w2
         = notified
             (DependencyResolver.start_if_ready (λ _ _, true) done_world "X").2
       ∧ commits w2
         = S (commits
                (DependencyResolver.start_if_ready (λ _ _, true) done_world
                   "X").2))
  ∧ (∃ w2,
       DependencyResolver.complete_if_ready (λ _ _, true)
         (DependencyResolver.complete_if_ready (λ _ _, true) done_world "X").2
         "X"
       = (Returns true, w2)
       ∧ session w2
         = session
             (DependencyResolver.complete_if_ready (λ _ _, true) done_world
                "X").2
       ∧ notified w2
         = notified
             (DependencyResolver.complete_if_ready (λ _ _, true) done_world
                "X").2
       ∧ commits w2
         = S (commits
                (DependencyResolver.complete_if_ready (λ _ _, true) done_world
                   "X").2)).
Proof.
  split; [exact done_x_in_store|]. split; [exact done_x_deps_done|].
  split; [exact done_x_not_own_dependency|].
  exact (repeated_gated_call (λ _ _, true) done_world "X" _ done_x_in_store
           done_x_deps_done done_x_not_own_dependency).
Defined.

Lemma chain_tasks_closed t d :
  t ∈ chain_tasks → d ∈ TestTask.dependencies t → d ∈ ids chain_tasks.
Proof.
  intros Ht Hd.
  repeat (apply elem_of_cons in Ht as [->|Ht]);
    [by apply elem_of_nil in Hd| | |by apply elem_of_nil in Ht];
    apply list_elem_of_singleton in Hd as ->;
    by apply (bool_decide_unpack _).
Defined.

Lemma chain_tasks_stored : stored (session chain_world) chain_tasks.
Proof.
  intros t Ht.
  repeat (apply elem_of_cons in Ht as [->|Ht]);
    [| | |by apply elem_of_nil in Ht];
    (eexists; split; [by vm_compute|done]).
Defined.

Lemma chain_tasks_sorted : TaskSorter.sort chain_tasks = Returns chain_tasks.
Proof. by vm_compute. Defined.

Lemma plan_order_passes_gate_witness :
  NoDup (ids chain_tasks)
  ∧ (∀ t d, t ∈ chain_tasks → d ∈ TestTask.dependencies t →
            d ∈ ids chain_tasks)
  ∧ (TaskSorter.sort chain_tasks = Returns chain_tasks
     ∨ TestPlanGenerator.generate_plan PriorityPolicy.fallback chain_tasks
       = Returns chain_tasks)
  ∧ stored (session chain_world) chain_tasks
  ∧ (∀ t, t ∈ chain_tasks →
       ∃ row, session (apply_operations (λ _ _, true) (work_off chain_tasks)
                         chain_world) !! TestTask.id t = Some row
              ∧ TestTask.status row = TaskStatus.DONE)
  ∧ commits (apply_operations (λ _ _, true) (work_off chain_tasks) chain_world)
    = (commits chain_world + 2 * length chain_tasks)%nat.
Proof.
  split; [exact chain_tasks_unique|]. split; [exact chain_tasks_closed|].
  split; [left; exact chain_tasks_sorted|]. split; [exact chain_tasks_stored|].
  exact (plan_order_passes_gate (λ _ _, true) PriorityPolicy.fallback
           chain_tasks chain_tasks chain_world chain_tasks_unique
           chain_tasks_closed (or_introl chain_tasks_sorted)
           chain_tasks_stored).
Defined.

(** * The dependencies column *)

(** ** Trimming, splitting and joining *)

Section StringFacts.
Import PyStr.
Implicit Types (s d : string) (c : ascii).

Lemma lstrip_no_lead s :
  match lstrip s with
  | String c _ => isspace c = false
  | EmptyString => True
  end.
Proof.
  induction s as [|c r IH]; [done|]. simpl.
  by destruct (isspace c) eqn:Hc.
Qed.

Lemma lstrip_id s :
  match s with String c _ => isspace c = false | EmptyString => True end →
  lstrip s = s.
Proof. destruct s as [|c r]; [done|]. simpl. by intros ->. Qed.

Lemma rstrip_cons c s :
  rstrip (String c s)
  = match rstrip s with
    | EmptyString => if isspace c then EmptyString else String c EmptyString
    | r => String c r
    end.
Proof. done. Qed.

Lemma rstrip_head c s :
  isspace c = false → ∃ r, rstrip (String c s) = String c r.
Proof.
  intros Hc. rw rstrip_cons Hc. destruct (rstrip s); by eexists.
Qed.

Lemma rstrip_rstrip s : rstrip (rstrip s) = rstrip s.
Proof.
  induction s as [|c r IH]; [done|]. rw rstrip_cons.
  destruct (rstrip r) as [|c' r'] eqn:Hr.
  - destruct (isspace c) eqn:Hc; [done|]. by rw rstrip_cons /= Hc.
  - by rw rstrip_cons IH.
Qed.

Lemma strip_strip s : strip (strip s) = strip s.
Proof.
  rw /strip. pose proof (lstrip_no_lead s) as Hlead.
  destruct (lstrip s) as [|c r] eqn:Hs; [done|].
  destruct (rstrip_head c r Hlead) as [r' Hr]. rw Hr lstrip_id //.
  by rw -Hr rstrip_rstrip.
Qed.

Lemma lstrip_chars c s :
  c ∈ String.list_ascii_of_string (lstrip s) →
  c ∈ String.list_ascii_of_string s.
Proof.
  induction s as [|c' r IH]; [done|]. simpl.
  destruct (isspace c'); [|done]. intros ?%IH. by right.
Qed.

Lemma rstrip_chars c s :
  c ∈ String.list_ascii_of_string (rstrip s) →
  c ∈ String.list_ascii_of_string s.
Proof.
  induction s as [|c' r IH]; [done|]. rw rstrip_cons.
  destruct (rstrip r) as [|c'' r'] eqn:Hr.
  - destruct (isspace c'); [by intros ?%elem_of_nil|].
    simpl. intros [->|[]%elem_of_nil]%elem_of_cons. by left.
  - change (String.list_ascii_of_string (String c' (String c'' r')))
      with (c' :: String.list_ascii_of_string (String c'' r')).
    simpl. intros [->|Hin]%elem_of_cons; [by left|]. right. by apply IH.
Qed.

Lemma strip_comma_free d : comma_free d → comma_free (strip d).
Proof. intros Hd Hin. by apply Hd, lstrip_chars, rstrip_chars. Qed.

Lemma comma_free_cons c d :
  comma_free (String c d) ↔ c ≠ ","%char ∧ comma_free d.
Proof.
  rw /comma_free /= not_elem_of_cons. naive_solver.
Qed.

Lemma split_nonempty c s : split c s ≠ [].
Proof.
  destruct s as [|c' r]; [done|]. simpl.
  destruct (Ascii.eqb c' c); [done|]. by destruct (split c r).
Qed.

Lemma split_cons sep c s :
  split sep (String c s)
  = if decide (c = sep) then EmptyString :: split sep s
    else match split sep s with
         | piece :: pieces => String c piece :: pieces
         | [] => [String c EmptyString]
         end.
Proof.
  simpl. destruct (Ascii.eqb_spec c sep); by case_decide.
Qed.

(** A string without a comma is one piece. *)
Lemma split_comma_free d : comma_free d → split "," d = [d].
Proof.
  induction d as [|c r IH]; [done|].
  intros [Hc Hr]%comma_free_cons. by rw split_cons decide_False // IH.
Qed.

Lemma split_append a b :
  split "," (String.append a (String "," b)) = split "," a ++ split "," b.
Proof.
  induction a as [|c r IH]; [done|].
  change (String.append (String c r) (String "," b))
    with (String c (String.append r (String "," b))).
  rw !split_cons IH. case_decide; [done|].
  pose proof (split_nonempty "," r). by destruct (split "," r).
Qed.

(** The pieces have no comma. *)
Lemma split_pieces s : Forall comma_free (split "," s).
Proof.
  induction s as [|c r IH].
  - constructor; [|done]. by intros ?%elem_of_nil.
  - rw split_cons. case_decide as Hc.
    + constructor; [|done]. by intros ?%elem_of_nil.
    + destruct (split "," r) as [|p ps].
      * constructor; [|done]. apply comma_free_cons.
        split; [done|by intros ?%elem_of_nil].
      * apply Forall_cons in IH as [Hp Hps]. constructor; [|done].
        by apply comma_free_cons.
Qed.

(** Joining strings without commas and splitting again gives them back. *)
Lemma split_join l :
  l ≠ [] → Forall comma_free l → split "," (join "," l) = l.
Proof.
  induction l as [|x l IH]; [done|]. intros _ [Hx Hl]%Forall_cons.
  destruct l as [|y l]; [by apply split_comma_free|].
  change (join "," (x :: y :: l))
    with (String.append x (String "," (join "," (y :: l)))).
  by rw split_append split_comma_free // IH.
Qed.

Lemma join_nonempty sep x l : x ≠ EmptyString → join sep (x :: l) ≠ EmptyString.
Proof. destruct x; [done|]. by destruct l. Qed.
End StringFacts.

(** ** The getter after the setter *)

Lemma getter_Some raw :
  TestTaskModel.dependencies (Some raw)
  = PyStr.strip
      <$> filter (λ d, PyStr.strip d ≠ EmptyString) (PyStr.split "," raw).
Proof. by destruct raw. Qed.

Lemma trimmed_filter deps :
  trimmed deps
  = PyStr.strip <$> filter (λ d, PyStr.strip d ≠ EmptyString) deps.
Proof.
  rw /trimmed. induction deps as [|d deps IH]; [done|].
  rw fmap_cons !filter_cons IH. by case_decide.
Qed.

Lemma trimmed_normal deps : Forall comma_free deps → normal_ids (trimmed deps).
Proof.
  intros Hfree. apply Forall_forall. intros d.
  rw /trimmed list_elem_of_filter list_elem_of_fmap.
  intros [Hne (d' & -> & Hd')]. split_and!; [done|apply strip_strip|].
  apply strip_comma_free. by apply (proj1 (Forall_forall _ _) Hfree).
Qed.

Lemma trimmed_id l : normal_ids l → trimmed l = l.
Proof.
  intros Hl. rw /trimmed. induction Hl as [|d l (Hne & Hs & _) _ IH]; [done|].
  by rw fmap_cons filter_cons Hs decide_True // IH.
Qed.

Lemma getter_join l :
  normal_ids l → TestTaskModel.dependencies (Some (PyStr.join "," l)) = l.
Proof.
  intros Hl. destruct l as [|x l]; [done|].
  rw getter_Some split_join //.
  - rw -trimmed_filter. by apply trimmed_id.
  - apply Forall_forall. intros d Hd.
    by apply (proj1 (Forall_forall _ _) Hl d Hd).
Qed.

Lemma getter_setter deps :
  Forall comma_free deps →
  TestTaskModel.dependencies (TestTaskModel.dependencies_setter deps)
  = trimmed deps.
Proof.
  intros Hfree. destruct deps as [|d deps]; [done|].
  rw /TestTaskModel.dependencies_setter -trimmed_filter.
  by apply getter_join, trimmed_normal.
Qed.

Lemma getter_normal raw : normal_ids (TestTaskModel.dependencies raw).
Proof.
  destruct raw as [raw|]; [|constructor]. rw getter_Some.
  apply Forall_forall. intros d.
  rw list_elem_of_fmap. intros (p & -> & [Hne Hp]%list_elem_of_filter).
  split_and!; [done|apply strip_strip|].
  apply strip_comma_free.
  by apply (proj1 (Forall_forall _ _) (split_pieces raw)).
Qed.

(** X14. Round trip through the column: a list of dependency ids none of
    which has a comma in it, written with the setter of the row class and
    read back with the getter, comes back with each id trimmed and the ids
    that are empty after trimming dropped, in the same order; a list of
    trimmed, non-empty ids comes back as it is. *)
Theorem dependencies_round_trip (deps : list string) :
  Forall comma_free deps →
  TestTaskModel.dependencies (TestTaskModel.dependencies_setter deps)
  = trimmed deps
  ∧ (normal_ids deps →
     TestTaskModel.dependencies (TestTaskModel.dependencies_setter deps)
     = deps).
Proof.
  intros Hfree. split; [by apply getter_setter|].
  intros Hn. by rw getter_setter // trimmed_id.
Qed.

(** X15. Whatever the column holds, the ids that the getter returns are
    trimmed, not empty and without a comma, and writing the list back and
    reading it again gives the same list. *)
Theorem dependencies_read_is_normal (raw : option string) :
  normal_ids (TestTaskModel.dependencies raw)
  ∧ TestTaskModel.dependencies
      (TestTaskModel.dependencies_setter (TestTaskModel.dependencies raw))
    = TestTaskModel.dependencies raw.
Proof.
  pose proof (getter_normal raw) as Hn. split; [done|].
  rw getter_setter; [by apply trimmed_id|].
  apply Forall_forall. intros d Hd.
  by apply (proj1 (Forall_forall _ _) Hn d Hd).
Qed.

(** ** Setting the dependencies of a stored task *)

Lemma set_dependencies_present w task_id task deps :
  session w !! task_id = Some task →
  TaskDependencies.set_dependencies w task_id deps
  = (true,
     mk_world (<[task_id := assign_dependencies task deps]> (session w))
       (S (commits w)) (notified w) (warnings w)).
Proof.
  intros Hget.
  by rw /TaskDependencies.set_dependencies /TestTaskDAL.get_task Hget.
Qed.

(** X16. [set_dependencies] and [get_dependencies]: for a task of the store
    and ids without commas, [set_dependencies] returns true and commits,
    [get_dependencies] then returns the ids trimmed and without the empty
    ones, the status of the task and every other row are as before, and no
    notification is sent. *)
Theorem set_then_get_dependencies (w : world) (task_id : string)
    (task : TestTask.t) (deps : list string) :
  session w !! task_id = Some task →
  Forall comma_free deps →
  ∃ w',
    TaskDependencies.set_dependencies w task_id deps = (true, w')
    ∧ TaskDependencies.get_dependencies w' task_id = Some (trimmed deps)
    ∧ TestTask.status <$> session w' !! task_id = Some (TestTask.status task)
    ∧ (∀ k, k ≠ task_id → session w' !! k = session w !! k)
    ∧ commits w' = S (commits w)
    ∧ notified w' = notified w.
Proof.
  intros Hget Hfree. eexists.
  split; [by apply set_dependencies_present|]. simpl. split_and!; try done.
  - rw /TaskDependencies.get_dependencies /TestTaskDAL.get_task /=.
    by rw lookup_insert_eq /= getter_setter.
  - by rw lookup_insert_eq.
  - intros k Hk. by rw lookup_insert_ne.
Qed.

(** X17. The gate reads the list as the column gives it back: after
    [set_dependencies] on a task of the store, with ids without commas,
    [dependencies_complete] is true exactly when every trimmed, non-empty
    id of the list is a task of the store that is done; so an id written
    with blanks around it names the task with the trimmed id, and an empty
    list always opens the gate. *)
Theorem gate_after_set_dependencies (w : world) (task_id : string)
    (task : TestTask.t) (deps : list string) :
  session w !! task_id = Some task →
  Forall comma_free deps →
  TaskDependencies.dependencies_complete
    (TaskDependencies.set_dependencies w task_id deps).2 task_id
  = Some true
  ↔ ∀ d, d ∈ trimmed deps →
      ∃ dep, session w !! d = Some dep
             ∧ TestTask.status dep = TaskStatus.DONE.
Proof.
  intros Hget Hfree. rw (set_dependencies_present w task_id task deps Hget) /=.
  set (w' := mk_world _ _ _ _).
  assert (session w' !! task_id = Some (assign_dependencies task deps))
    as Hget' by (by rw /= lookup_insert_eq).
  destruct (dependencies_complete_present w' task_id _ Hget')
    as (b & -> & Hb).
  assert (Some b = Some true ↔ b = true) as -> by naive_solver.
  rw Hb /deps_done /= getter_setter //.
  apply forall_proper. intros d. apply forall_proper. intros Hd.
  destruct (decide (d = task_id)) as [->|Hne].
  - rw lookup_insert_eq Hget. split; intros (dep & [= <-] & Hst); by eexists.
  - by rw lookup_insert_ne.
Qed.

(** X18. A task id that is not in the store is refused by every operation:
    [dependencies_complete] and [get_dependencies] return [None],
    [can_start], [start_if_ready], [complete_if_ready],
    [mark_in_progress_if_ready], [complete_task] and [set_dependencies]
    return false, and none of them changes the store, commits or
    notifies. *)
Theorem unknown_task_is_refused
    (notifier : list status_change → status_change → bool)
    (w : world) (task_id : string) (deps : list string) :
  session w !! task_id = None →
  TaskDependencies.dependencies_complete w task_id = None
  ∧ TaskDependencies.get_dependencies w task_id = None
  ∧ TaskDependencies.set_dependencies w task_id deps = (false, w)
  ∧ TaskDependencies.mark_in_progress_if_ready w task_id = (false, w)
  ∧ TaskDependencies.complete_task w task_id = (false, w)
  ∧ DependencyResolver.can_start w task_id = false
  ∧ DependencyResolver.start_if_ready notifier w task_id = (Returns false, w)
  ∧ DependencyResolver.complete_if_ready notifier w task_id
    = (Returns false, w).
Proof.
  intros Hget.
  rw /DependencyResolver.start_if_ready /DependencyResolver.complete_if_ready.
  rw can_start_absent //.
  rw /TaskDependencies.dependencies_complete /TaskDependencies.get_dependencies.
  rw /TaskDependencies.set_dependencies.
  rw /TaskDependencies.mark_in_progress_if_ready.
  rw /TaskDependencies.complete_task /TestTaskDAL.get_task Hget. done.
Qed.

(** ** Instances of the properties of the column *)

Lemma spaced_ids_comma_free : Forall comma_free spaced_ids.
Proof.
  repeat constructor; rw /comma_free; by apply (bool_decide_unpack _).
Defined.

Lemma dependencies_round_trip_witness :
  Forall comma_free spaced_ids
  ∧ TestTaskModel.dependencies (TestTaskModel.dependencies_setter spaced_ids)
    = trimmed spaced_ids
  ∧ (normal_ids spaced_ids →
     TestTaskModel.dependencies (TestTaskModel.dependencies_setter spaced_ids)
     = spaced_ids).
Proof.
  split; [exact spaced_ids_comma_free|].
  exact (dependencies_round_trip spaced_ids spaced_ids_comma_free).
Defined.

Lemma set_then_get_dependencies_witness :
  session scenario_world !! "X" = Some scenario_x
  ∧ Forall comma_free spaced_ids
  ∧ ∃ w',
      TaskDependencies.set_dependencies scenario_world "X" spaced_ids
      = (true, w')
      ∧ TaskDependencies.get_dependencies w' "X" = Some (trimmed spaced_ids)
      ∧ TestTask.status <$> session w' !! "X"
        = Some (TestTask.status scenario_x)
      ∧ (∀ k, k ≠ "X" → session w' !! k = session scenario_world !! k)
      ∧ commits w' = S (commits scenario_world)
      ∧ notified w' = notified scenario_world.
Proof.
  split; [exact scenario_x_in_store|]. split; [exact spaced_ids_comma_free|].
  exact (set_then_get_dependencies scenario_world "X" scenario_x spaced_ids
           scenario_x_in_store spaced_ids_comma_free).
Defined.

Lemma gate_after_set_dependencies_witness :
  session scenario_world !! "X" = Some scenario_x
  ∧ Forall comma_free spaced_ids
  ∧ (TaskDependencies.dependencies_complete
       (TaskDependencies.set_dependencies scenario_world "X" spaced_ids).2 "X"
     = Some true
     ↔ ∀ d, d ∈ trimmed spaced_ids →
         ∃ dep, session scenario_world !! d = Some dep
                ∧ TestTask.status dep = TaskStatus.DONE).
Proof.
  split; [exact scenario_x_in_store|]. split; [exact spaced_ids_comma_free|].
  exact (gate_after_set_dependencies scenario_world "X" scenario_x spaced_ids
           scenario_x_in_store spaced_ids_comma_free).
Defined.

Lemma ghost_id_not_stored : session ghost_world !! "ghost-id" = None.
Proof. by vm_compute. Defined.

Lemma unknown_task_is_refused_witness :
  session ghost_world !! "ghost-id" = None
  ∧ TaskDependencies.dependencies_complete ghost_world "ghost-id" = None
  ∧ TaskDependencies.get_dependencies ghost_world "ghost-id" = None
  ∧ TaskDependencies.set_dependencies ghost_world "ghost-id" ["Z"]
    = (false, ghost_world)
  ∧ TaskDependencies.mark_in_progress_if_ready ghost_world "ghost-id"
    = (false, ghost_world)
  ∧ TaskDependencies.complete_task ghost_world "ghost-id"
    = (false, ghost_world)
  ∧ DependencyResolver.can_start ghost_world "ghost-id" = false
  ∧ DependencyResolver.start_if_ready (λ _ _, true) ghost_world "ghost-id"
    = (Returns false, ghost_world)
  ∧ DependencyResolver.complete_if_ready (λ _ _, true) ghost_world "ghost-id"
    = (Returns false, ghost_world).
Proof.
  split; [exact ghost_id_not_stored|].
  exact (unknown_task_is_refused (λ _ _, true) ghost_world "ghost-id" ["Z"]
           ghost_id_not_stored).
Defined.

(** ** Ids with commas *)

Section Commas.
Import PyStr.
Implicit Types (s d : string) (c : ascii) (l : list string).

Lemma comma_not_space c : isspace c = true → c ≠ ","%char.
Proof. by intros Hc ->. Qed.

Lemma lstrip_rstrip s : rstrip (lstrip s) = lstrip (rstrip s).
Proof.
  induction s as [|c r IH]; [done|]. rw rstrip_cons /=.
  destruct (isspace c) eqn:Hc.
  - rw IH. destruct (rstrip r) as [|c' r']; [done|]. by rw /= Hc.
  - rw rstrip_cons Hc. destruct (rstrip r); by rw /= Hc.
Qed.

Lemma strip_rstrip a b : rstrip a = rstrip b → strip a = strip b.
Proof. intros Heq. by rw /strip !lstrip_rstrip Heq. Qed.

(** The pieces read from a list of pieces: trimmed, the empty ones
    dropped. *)
Lemma read_cons p l :
  strip <$> filter (λ d, strip d ≠ EmptyString) (p :: l)
  = (if decide (strip p ≠ EmptyString) then [strip p] else [])
    ++ (strip <$> filter (λ d, strip d ≠ EmptyString) l).
Proof. rw filter_cons. by case_decide. Qed.

Lemma read_app l1 l2 :
  strip <$> filter (λ d, strip d ≠ EmptyString) (l1 ++ l2)
  = (strip <$> filter (λ d, strip d ≠ EmptyString) l1)
    ++ (strip <$> filter (λ d, strip d ≠ EmptyString) l2).
Proof. by rw filter_app fmap_app. Qed.

Lemma read_Forall2 l1 l2 :
  Forall2 (λ a b, rstrip a = rstrip b) l1 l2 →
  strip <$> filter (λ d, strip d ≠ EmptyString) l1
  = strip <$> filter (λ d, strip d ≠ EmptyString) l2.
Proof.
  induction 1 as [|a b l1 l2 Hab _ IH]; [done|].
  by rw !read_cons IH (strip_rstrip a b Hab).
Qed.

Lemma split_rstrip s :
  Forall2 (λ a b, rstrip a = rstrip b) (split "," (rstrip s)) (split "," s).
Proof.
  induction s as [|c r IH]; [by repeat constructor|].
  rw rstrip_cons (split_cons _ c r).
  destruct (rstrip r) as [|c' r'] eqn:Hr.
  - simpl in IH. inversion IH as [|a b l1 l2 Hb Hl Ha Hsplit]; subst.
    inversion Hl; subst. simpl in Hb.
    destruct (isspace c) eqn:Hc.
    + rw decide_False; [|by apply comma_not_space].
      repeat constructor. by rw rstrip_cons -Hb Hc.
    + case_decide as Hcomma.
      * subst. by repeat constructor.
      * rw split_cons decide_False //=. repeat constructor.
        by rw !rstrip_cons -Hb /=.
  - rw split_cons. case_decide; [by constructor|].
    pose proof (split_nonempty "," (String c' r')) as Hne.
    destruct (split "," (String c' r')) as [|p' ps']; [done|].
    inversion IH as [|a b l1 l2 Hab Hl]; subst.
    constructor; [|done]. by rw !rstrip_cons Hab.
Qed.

Lemma split_lstrip s :
  strip <$> filter (λ d, strip d ≠ EmptyString) (split "," (lstrip s))
  = strip <$> filter (λ d, strip d ≠ EmptyString) (split "," s).
Proof.
  induction s as [|c r IH]; [done|]. simpl lstrip.
  destruct (isspace c) eqn:Hc; [|done].
  rw IH split_cons decide_False; [|by apply comma_not_space].
  pose proof (split_nonempty "," r) as Hne.
  destruct (split "," r) as [|p ps]; [done|].
  rw !read_cons. by rw /strip /= Hc.
Qed.

(** Trimming a string before it is split changes nothing in what is read. *)
Lemma split_strip s :
  strip <$> filter (λ d, strip d ≠ EmptyString) (split "," (strip s))
  = strip <$> filter (λ d, strip d ≠ EmptyString) (split "," s).
Proof.
  rw -(split_lstrip s) /strip. apply read_Forall2, split_rstrip.
Qed.

Lemma split_join_pieces l :
  l ≠ [] → split "," (join "," l) = l ≫= split ",".
Proof.
  induction l as [|x l IH]; [done|]. intros _.
  destruct l as [|y l]; [by rw /= app_nil_r|].
  change (join "," (x :: y :: l))
    with (String.append x (String "," (join "," (y :: l)))).
  by rw split_append IH.
Qed.

Lemma read_bind l :
  strip <$> filter (λ d, strip d ≠ EmptyString) (l ≫= split ",")
  = l ≫= λ d, TestTaskModel.dependencies (Some d).
Proof.
  induction l as [|x l IH]; [done|].
  rw !bind_cons read_app IH. by rw getter_Some.
Qed.

Lemma getter_setter_pieces deps :
  TestTaskModel.dependencies (TestTaskModel.dependencies_setter deps)
  = deps ≫= λ d, TestTaskModel.dependencies (Some d).
Proof.
  destruct deps as [|d0 deps0]; [done|].
  rw /TestTaskModel.dependencies_setter getter_Some.
  generalize (d0 :: deps0) as deps. clear. intros deps.
  set (ps := strip <$> filter (λ d, strip d ≠ EmptyString) deps).
  assert (ps ≫= (λ d, TestTaskModel.dependencies (Some d))
          = deps ≫= λ d, TestTaskModel.dependencies (Some d)) as <-.
  { rw /ps. induction deps as [|d deps IH]; [done|].
    rw read_cons !bind_cons -IH !getter_Some -(split_strip d).
    case_decide as Hd; [simpl app; by rw bind_cons getter_Some|].
    assert (strip d = EmptyString) as ->
      by (by destruct (decide (strip d = EmptyString))).
    done. }
  destruct ps as [|p ps'] eqn:Hps; [done|].
  by rw split_join_pieces // read_bind.
Qed.
End Commas.

(** X19. An id with a comma in it is taken apart: for every list of ids,
    what the getter reads after the setter wrote the list is the
    concatenation of what the getter reads from each id on its own, so an
    id written as two ids with a comma between them comes back as the
    two ids. *)
Theorem dependencies_setter_splits_commas (deps : list string) :
  TestTaskModel.dependencies (TestTaskModel.dependencies_setter deps)
  = deps ≫= λ d, TestTaskModel.dependencies (Some d).
Proof. apply getter_setter_pieces. Qed.

(** * Further properties of the coverage analyzer *)

Lemma replace_cons_inv o n x d y :
  PyStr.replace o n x = String d y →
  ∃ c r, x = String c r ∧ (if Ascii.eqb c o then n else c) = d
         ∧ PyStr.replace o n r = y.
Proof. destruct x as [|c r]; [done|]. intros [= <- <-]. by exists c, r. Qed.

Lemma replace_nil_inv o n x : PyStr.replace o n x = EmptyString → x = EmptyString.
Proof. by destruct x. Qed.

Lemma underscore_plain (c d : ascii) :
  (if Ascii.eqb c " " then "_"%char else c) = d → d ≠ "_"%char → c = d.
Proof. destruct (Ascii.eqb_spec c " "); congruence. Qed.

Lemma underscore_either (c : ascii) :
  (if Ascii.eqb c " " then "_"%char else c) = "_"%char →
  c = " "%char ∨ c = "_"%char.
Proof. destruct (Ascii.eqb_spec c " "); auto. Qed.

(** A string that becomes a string without underscores was that string. *)
Lemma replace_plain x y :
  "_"%char ∉ String.list_ascii_of_string y →
  PyStr.replace " " "_" x = y → x = y.
Proof.
  revert x. induction y as [|d y IH]; intros x Hy.
  - apply replace_nil_inv.
  - intros (c & r & -> & Hc & Hr)%replace_cons_inv.
    simpl in Hy. apply not_elem_of_cons in Hy as [Hd Hy].
    apply underscore_plain in Hc as ->; [|done]. f_equal. by apply IH.
Qed.

Lemma normalized_spellings x :
  PyStr.replace " " "_" x ∈ ["missing"; "not_covered"; "notcovered"]
  ↔ x ∈ ["missing"; "not covered"; "not_covered"; "notcovered"].
Proof.
  split.
  - intros Hin. repeat (apply elem_of_cons in Hin as [Hin|Hin]).
    + apply replace_plain in Hin as ->; [by left|].
      by apply (bool_decide_unpack _).
    + do 3 (apply replace_cons_inv in Hin as (? & ? & -> & Hc & Hin);
            apply underscore_plain in Hc as ->; [|done]).
      apply replace_cons_inv in Hin as (c & r & -> & Hc & Hin).
      apply replace_plain in Hin as ->; [|by apply (bool_decide_unpack _)].
      apply underscore_either in Hc as [-> | ->].
      * right. by left.
      * right. right. by left.
    + apply replace_plain in Hin as ->; [by do 3 right; left|].
      by apply (bool_decide_unpack _).
    + by apply elem_of_nil in Hin.
  - intros Hin. repeat (apply elem_of_cons in Hin as [->|Hin]);
      [by apply (bool_decide_unpack _)..|by apply elem_of_nil in Hin].
Qed.

(** X20. The spellings of a missing coverage status: a status given as a
    string counts as missing exactly when, with the white space at its ends
    removed and in lower case, it is one of [missing], [not covered],
    [not_covered] and [notcovered]; anything else, a hyphen or two blanks
    between the words for instance, does not. *)
Theorem is_missing_spellings (task : TestTask.t) (s : string) :
  TestTask.coverage_status task = CovStr s →
  CoverageAnalyzer._is_missing task = true
  ↔ PyStr.lower (PyStr.strip s)
    ∈ ["missing"; "not covered"; "not_covered"; "notcovered"].
Proof.
  intros Hs. rw /CoverageAnalyzer._is_missing Hs bool_decide_eq_true.
  apply normalized_spellings.
Qed.

(** X21. [prioritize_tests] can be applied to its own result, and to the
    result of [find_missing_coverage], without changing anything: the list
    it returns is a fixed point, and filtering first is the same as not
    filtering. *)
Theorem prioritize_tests_idempotent (tasks : list TestTask.t) :
  CoverageAnalyzer.prioritize_tests (CoverageAnalyzer.prioritize_tests tasks)
  = CoverageAnalyzer.prioritize_tests tasks
  ∧ CoverageAnalyzer.prioritize_tests
      (CoverageAnalyzer.find_missing_coverage tasks)
    = CoverageAnalyzer.prioritize_tests tasks.
Proof.
  rw /CoverageAnalyzer.prioritize_tests.
  assert (∀ l, (∀ t, t ∈ l → CoverageAnalyzer._is_missing t = true) →
            CoverageAnalyzer.find_missing_coverage l = l) as Hfix.
  { intros l Hl. by apply filter_all. }
  split.
  - rw (Hfix (sorted_desc _ _)).
    + apply sorted_desc_descending_id, sorted_desc_descending.
    + intros t. rw sorted_desc_perm.
      by intros [? _]%list_elem_of_filter.
  - rw (Hfix (CoverageAnalyzer.find_missing_coverage tasks)) //.
    intros t. by intros [? _]%list_elem_of_filter.
Qed.

(** X22. [find_missing_test_types] returns the expected test types (all
    six when none are given) for which the task list has no task: each of
    them once, none that has a task, in descending order of
    [TEST_TYPE_PRIORITY]; this holds in whatever order Python walks the
    set. An empty list of expected types gives the empty result. *)
Theorem find_missing_test_types_spec
    (walk : gset TestType.t → list TestType.t)
    (tasks : list TestTask.t) (expected_types : option (list TestType.t)) :
  (∀ s, walk s ≡ₚ elements s) →
  (∀ t, t ∈ CoverageAnalyzer.find_missing_test_types walk tasks expected_types
        ↔ t ∈ default TestType.members expected_types
          ∧ ∀ task, task ∈ tasks → TestTask.test_type task ≠ t)
  ∧ NoDup (CoverageAnalyzer.find_missing_test_types walk tasks expected_types)
  ∧ descending
      (λ t, default 0 (CoverageAnalyzer.lookup_priority
                         CoverageAnalyzer.TEST_TYPE_PRIORITY t))
      (CoverageAnalyzer.find_missing_test_types walk tasks expected_types).
Proof.
  intros Hwalk. rw /CoverageAnalyzer.find_missing_test_types.
  split_and!.
  - intros t. rw sorted_desc_perm Hwalk elem_of_elements elem_of_difference.
    rw elem_of_list_to_set list_elem_of_fmap.
    assert (t ∈ (match expected_types with
                 | Some l => list_to_set l
                 | None => list_to_set TestType.members
                 end : gset TestType.t)
            ↔ t ∈ default TestType.members expected_types) as ->.
    { destruct expected_types; apply elem_of_list_to_set. }
    split; intros [He Hno]; (split; [done|]).
    + intros task Htask Heq. apply Hno. by exists task.
    + intros (task & -> & Htask). by apply (Hno task).
  - rw sorted_desc_perm Hwalk. apply NoDup_elements.
  - apply sorted_desc_descending.
Qed.

(** ** Instances of the coverage properties *)

Lemma is_missing_spellings_witness :
  TestTask.coverage_status not_covered_task = CovStr " Not Covered "
  ∧ (CoverageAnalyzer._is_missing not_covered_task = true
     ↔ PyStr.lower (PyStr.strip " Not Covered ")
       ∈ ["missing"; "not covered"; "not_covered"; "notcovered"]).
Proof.
  split; [reflexivity|].
  exact (is_missing_spellings not_covered_task " Not Covered " eq_refl).
Defined.

Lemma find_missing_test_types_spec_witness :
  (∀ s : gset TestType.t, elements s ≡ₚ elements s)
  ∧ (∀ t, t ∈ CoverageAnalyzer.find_missing_test_types elements
              priority_tasks None
          ↔ t ∈ default TestType.members None
            ∧ ∀ task, task ∈ priority_tasks → TestTask.test_type task ≠ t)
  ∧ NoDup (CoverageAnalyzer.find_missing_test_types elements priority_tasks
             None)
  ∧ descending
      (λ t, default 0 (CoverageAnalyzer.lookup_priority
                         CoverageAnalyzer.TEST_TYPE_PRIORITY t))
      (CoverageAnalyzer.find_missing_test_types elements priority_tasks None).
Proof.
  split; [intros s; reflexivity|].
  exact (find_missing_test_types_spec elements priority_tasks None
           (λ s, reflexivity (elements s))).
Defined.

(** * Task assignment *)

Section Assignment.
Variable notifier : list assignment → assignment → bool.
Implicit Types (self : TaskAssigner.t) (w : world) (task : TestTask.t).

Lemma assign_task_none self w sent task_id :
  session w !! task_id = None
  ∨ (∃ task, session w !! task_id = Some task
             ∧ assignee_for self (TestTask.test_type task) = None) →
  TaskAssigner.assign_task notifier self (w, sent) task_id = (None, (w, sent)).
Proof.
  rw /TaskAssigner.assign_task /TestTaskDAL.get_task.
  intros [->|(task & -> & Hrole)]; [done|].
  destruct self; simpl in Hrole; by rw Hrole.
Qed.

Lemma assign_task_some self w sent task_id task role :
  session w !! task_id = Some task →
  assignee_for self (TestTask.test_type task) = Some role →
  ∃ w' sent',
    TaskAssigner.assign_task notifier self (w, sent) task_id
    = (Some role, (w', sent'))
    ∧ session w' = <[task_id := set_owner task (Some role)]> (session w)
    ∧ notified w' = notified w
    ∧ (commits w', sent')
      = if decide (TestTask.owner task = Some role) then (commits w, sent)
        else (S (commits w),
              sent ++ [mk_assignment role (TestTask.id task)
                         (TestTask.description task) None]).
Proof.
  intros Hget Hrole. rw /TaskAssigner.assign_task /TestTaskDAL.get_task Hget.
  assert (match self with
          | TaskAssigner.WithRoleMap role_map =>
              role_map !! TestTask.test_type task
          | TaskAssigner.WithPolicy policy =>
              AssignmentPolicy.get_role_for_test_type policy
                (TestTask.test_type task)
          end = Some role) as -> by (by destruct self).
  destruct (decide (TestTask.owner task = Some role)) as [Ho|Ho].
  - rw decide_False; [|by intros ?]. exists w, sent. split_and!; try done.
    rw insert_id //. rw Hget. f_equal. destruct task; simpl in *. by subst.
  - rw decide_True //. simpl.
    destruct (notifier _ _); eexists _, _; by split_and!.
Qed.

(** When the row has the role as owner already, nothing is done. *)
Lemma assign_task_same self w sent task_id task role :
  session w !! task_id = Some task →
  assignee_for self (TestTask.test_type task) = Some role →
  TestTask.owner task = Some role →
  TaskAssigner.assign_task notifier self (w, sent) task_id
  = (Some role, (w, sent)).
Proof.
  intros Hget Hrole Ho.
  rw /TaskAssigner.assign_task /TestTaskDAL.get_task Hget.
  assert (match self with
          | TaskAssigner.WithRoleMap role_map =>
              role_map !! TestTask.test_type task
          | TaskAssigner.WithPolicy policy =>
              AssignmentPolicy.get_role_for_test_type policy
                (TestTask.test_type task)
          end = Some role) as -> by (by destruct self).
  rw decide_False //. by intros ?.
Qed.
End Assignment.

(** X23. [assign_task] returns [None], and changes nothing, exactly when
    the task is not in the store or the assigner has no role for its test
    type. Otherwise it returns the role and the row has it as owner; it
    commits and hands one notification to the notifier exactly when the
    owner was another one before; the status and the dependencies of the
    row, the other rows and the status notifications are never touched, and
    a notification that fails changes none of this. *)
Theorem assign_task_semantics
    (notifier : list assignment → assignment → bool)
    (self : TaskAssigner.t) (w : world) (sent : list assignment)
    (task_id : string) :
  ((TaskAssigner.assign_task notifier self (w, sent) task_id).1 = None
   ↔ session w !! task_id = None
     ∨ ∃ task, session w !! task_id = Some task
               ∧ assignee_for self (TestTask.test_type task) = None)
  ∧ ((TaskAssigner.assign_task notifier self (w, sent) task_id).1 = None →
     (TaskAssigner.assign_task notifier self (w, sent) task_id).2 = (w, sent))
  ∧ ∀ task role,
      session w !! task_id = Some task →
      assignee_for self (TestTask.test_type task) = Some role →
      ∃ w' sent',
        TaskAssigner.assign_task notifier self (w, sent) task_id
        = (Some role, (w', sent'))
        ∧ session w' = <[task_id := set_owner task (Some role)]> (session w)
        ∧ notified w' = notified w
        ∧ (commits w', sent')
          = if decide (TestTask.owner task = Some role) then (commits w, sent)
            else (S (commits w),
                  sent ++ [mk_assignment role (TestTask.id task)
                             (TestTask.description task) None]).
Proof.
  assert ((TaskAssigner.assign_task notifier self (w, sent) task_id).1 = None
          → session w !! task_id = None
            ∨ ∃ task, session w !! task_id = Some task
                      ∧ assignee_for self (TestTask.test_type task) = None)
    as Hnone.
  { intros Hres. destruct (session w !! task_id) as [task|] eqn:Hget;
      [|by left].
    right. exists task. split; [done|].
    destruct (assignee_for self (TestTask.test_type task)) as [role|] eqn:Hr;
      [|done].
    destruct (assign_task_some notifier self w sent task_id task role Hget Hr)
      as (w' & sent' & Hrun & _).
    by rw Hrun in Hres. }
  split_and!.
  - split; [done|]. intros Hcase. by rw assign_task_none.
  - intros Hres%Hnone. by rw assign_task_none.
  - intros task role. apply assign_task_some.
Qed.

(** X24. [assign_task] is idempotent: a second call for the same task right
    after the first returns the same result and changes nothing, so it
    neither commits nor notifies again. *)
Theorem assign_task_idempotent
    (notifier : list assignment → assignment → bool)
    (self : TaskAssigner.t) (w : world) (sent : list assignment)
    (task_id : string) :
  TaskAssigner.assign_task notifier self
    (TaskAssigner.assign_task notifier self (w, sent) task_id).2 task_id
  = ((TaskAssigner.assign_task notifier self (w, sent) task_id).1,
     (TaskAssigner.assign_task notifier self (w, sent) task_id).2).
Proof.
  destruct (session w !! task_id) as [task|] eqn:Hget.
  2:{ assert (TaskAssigner.assign_task notifier self (w, sent) task_id
              = (None, (w, sent))) as Hrun
        by (apply assign_task_none; by left).
      by rw !Hrun. }
  destruct (assignee_for self (TestTask.test_type task)) as [role|] eqn:Hr.
  2:{ assert (TaskAssigner.assign_task notifier self (w, sent) task_id
              = (None, (w, sent))) as Hrun
        by (apply assign_task_none; right; by exists task).
      by rw !Hrun. }
  destruct (assign_task_some notifier self w sent task_id task role Hget Hr)
    as (w' & sent' & Hrun & Hs & _).
  rw !Hrun.
  apply (assign_task_same notifier self w' sent' task_id
           (set_owner task (Some role)) role); [|done..].
  by rw Hs lookup_insert_eq.
Qed.

(** The gate reads nothing of a row but its status and its dependencies. *)
Lemma all_done_statuses (s s' : gmap string TestTask.t) deps :
  (∀ d, TestTask.status <$> s' !! d = TestTask.status <$> s !! d) →
  TaskDependencies.all_done s' deps = TaskDependencies.all_done s deps.
Proof.
  intros Hst. induction deps as [|d deps IH]; [done|]. simpl.
  rw /TestTaskDAL.get_task. specialize (Hst d).
  destruct (s' !! d) as [dep'|], (s !! d) as [dep|]; simpl in Hst; try done.
  injection Hst as ->. by rw IH.
Qed.

Lemma dependencies_complete_frame (w w' : world) (k : string) :
  (∀ d, TestTask.status <$> session w' !! d
        = TestTask.status <$> session w !! d) →
  TestTask.dependencies <$> session w' !! k
  = TestTask.dependencies <$> session w !! k →
  TaskDependencies.dependencies_complete w' k
  = TaskDependencies.dependencies_complete w k.
Proof.
  intros Hst Hdeps. rw /TaskDependencies.dependencies_complete.
  rw /TestTaskDAL.get_task.
  destruct (session w' !! k) as [t'|], (session w !! k) as [t|];
    simpl in Hdeps; try done.
  injection Hdeps as ->. destruct (TestTask.dependencies t); [done|].
  by rw (all_done_statuses (session w) (session w')).
Qed.

(** X25. Assignment leaves the gate alone: after [assign_task], for any
    task, [dependencies_complete] and [can_start] give for every task what
    they gave before; an assignment opens or closes no gate. *)
Theorem assignment_leaves_gate_alone
    (notifier : list assignment → assignment → bool)
    (self : TaskAssigner.t) (w : world) (sent : list assignment)
    (task_id k : string) :
  TaskDependencies.dependencies_complete
    (TaskAssigner.assign_task notifier self (w, sent) task_id).2.1 k
  = TaskDependencies.dependencies_complete w k
  ∧ DependencyResolver.can_start
      (TaskAssigner.assign_task notifier self (w, sent) task_id).2.1 k
    = DependencyResolver.can_start w k.
Proof.
  assert (TaskDependencies.dependencies_complete
            (TaskAssigner.assign_task notifier self (w, sent) task_id).2.1 k
          = TaskDependencies.dependencies_complete w k) as Heq.
  { destruct (session w !! task_id) as [task|] eqn:Hget;
      [|rw assign_task_none //; by left].
    destruct (assignee_for self (TestTask.test_type task)) as [role|] eqn:Hr;
      [|rw assign_task_none //; right; by exists task].
    destruct (assign_task_some notifier self w sent task_id task role Hget Hr)
      as (w' & sent' & -> & Hs & _). simpl.
    assert (∀ d, session w' !! d
                 = (λ t, set_owner t (if decide (d = task_id)
                                      then Some role else TestTask.owner t))
                   <$> session w !! d) as Hrow.
    { intros d. rw Hs. case_decide as Hd.
      - subst. by rw lookup_insert_eq Hget.
      - rw lookup_insert_ne; [|done].
        destruct (session w !! d) as [[]|]; done. }
    apply dependencies_complete_frame.
    - intros d. rw Hrow. by destruct (session w !! d).
    - rw Hrow. by destruct (session w !! k). }
  split; [done|]. by rw /DependencyResolver.can_start Heq.
Qed.

(** * Status strings *)

(** X26. A status given as a string is accepted exactly when it is the
    value of a member of [TaskStatus], letter for letter, and
    [update_status] with the value of a member does what it does with the
    member itself. *)
Theorem status_string_round_trip (s : string) (x : TaskStatus.t) :
  (TaskStatus.of_string s = Some x ↔ s = TaskStatus.value x)
  ∧ ∀ (notifier : list status_change → status_change → bool) (w : world)
      (task_id : string) (changed_by : option string),
      TaskStatusManager.update_status notifier w task_id
        (StatusStr (TaskStatus.value x)) changed_by
      = TaskStatusManager.update_status notifier w task_id (StatusEnum x)
          changed_by.
Proof.
  split.
  - rw /TaskStatus.of_string. split.
    + destruct (String.eqb_spec s "pending") as [->|_]; [by intros [= <-]|].
      destruct (String.eqb_spec s "in_progress") as [->|_];
        [by intros [= <-]|].
      destruct (String.eqb_spec s "blocked") as [->|_]; [by intros [= <-]|].
      destruct (String.eqb_spec s "done") as [->|_]; [by intros [= <-]|].
      done.
    + intros ->. by destruct x.
  - intros notifier w task_id changed_by.
    rw /TaskStatusManager.update_status.
    destruct (TestTaskDAL.get_task (session w) task_id); [|done].
    by destruct x.
Qed.

(** * Deleting a task, and what is notified *)

(** X27. Deleting a task blocks the tasks that depend on it, also when it
    was done: after [delete_task(d)] a task of the store that names [d] as
    a dependency cannot start, and no sequence of gated operations changes
    its row; the call returns the number of rows deleted, one if [d] was in
    the store and zero if not. *)
Theorem deleted_dependency_blocks
    (notifier : list status_change → status_change → bool)
    (ops : list operation) (w : world) (task_id d : string)
    (task : TestTask.t) :
  session w !! task_id = Some task →
  d ∈ TestTask.dependencies task → d ≠ task_id →
  Forall gated ops →
  ((TestTaskDAL.delete_task (session w) d).1 = 1 ↔ is_Some (session w !! d))
  ∧ ((TestTaskDAL.delete_task (session w) d).1 = 0 ↔ session w !! d = None)
  ∧ DependencyResolver.can_start (after_delete w d) task_id = false
  ∧ session (apply_operations notifier ops (after_delete w d)) !! task_id
    = Some task.
Proof.
  intros Hget Hd Hne Hops.
  assert (session (after_delete w d) !! task_id = Some task) as Hget'
    by (by rw /= lookup_delete_ne).
  assert (session (after_delete w d) !! d = None) as Hgone
    by (by rw /= lookup_delete_eq).
  split_and!.
  - rw /TestTaskDAL.delete_task /=. destruct (session w !! d); [by split|].
    split; [done|]. by intros [? ?].
  - rw /TestTaskDAL.delete_task /=. by destruct (session w !! d).
  - destruct (DependencyResolver.can_start (after_delete w d) task_id)
      eqn:Hcs; [|done].
    apply (can_start_true _ task_id task Hget') in Hcs.
    destruct (Hcs d Hd) as (dep & Hdep & _). congruence.
  - rw (deadlocked_rows_fixed notifier ops (after_delete w d) {[ task_id ]})
      //; [|by apply elem_of_singleton].
    intros b ->%elem_of_singleton. exists task, d.
    split_and!; [done..|]. by rw Hgone.
Qed.

Section Notified.
Variable notifier : list status_change → status_change → bool.

(** What one operation adds to the notifications. *)
Lemma apply_operation_notified (op : operation) (w : world) :
  ∃ new,
    notified (apply_operation notifier op w) = notified w ++ new
    ∧ Forall (real_change (session w)) new
    ∧ (commits w + length new ≤ commits (apply_operation notifier op w))%nat.
Proof.
  assert (∀ s,
            let w' := (TaskStatusManager.update_status notifier w
                         (operation_task op) (StatusEnum s) None).2 in
            ∃ new, notified w' = notified w ++ new
                   ∧ Forall (real_change (session w)) new
                   ∧ (commits w + length new ≤ commits w')%nat) as Hupdate.
  { intros s. destruct (session w !! operation_task op) as [task|] eqn:Hget.
    - destruct (update_status_present notifier w (operation_task op) task
                  (StatusEnum s) s None Hget eq_refl)
        as (w' & -> & _ & Hc & Hn).
      eexists. split; [exact Hn|]. simpl. rw Hc. case_decide.
      + split; [|simpl; lia]. repeat constructor; [done|]. by rw /= Hget.
      + split; [constructor|simpl; lia].
    - rw /TaskStatusManager.update_status /TestTaskDAL.get_task Hget /=.
      exists []. rw app_nil_r. split_and!; [done|constructor|simpl; lia]. }
  assert (∃ new, notified w = notified w ++ new
                 ∧ Forall (real_change (session w)) new
                 ∧ (commits w + length new ≤ commits w)%nat) as Hsame.
  { exists []. rw app_nil_r. split_and!; [done|constructor|simpl; lia]. }
  assert (∀ s,
            ∃ new, notified (write_if_ready s w (operation_task op)).2
                   = notified w ++ new
                   ∧ Forall (real_change (session w)) new
                   ∧ (commits w + length new
                      ≤ commits (write_if_ready s w (operation_task op)).2)%nat)
    as Hwrite.
  { intros s. rw /write_if_ready.
    destruct (TestTaskDAL.get_task _ _); [|done].
    destruct (TaskDependencies.dependencies_complete _ _) as [[]|]; try done.
    exists []. rw /= app_nil_r. split_and!; [done|constructor|simpl; lia]. }
  destruct op; simpl in *.
  - rw /DependencyResolver.start_if_ready.
    destruct (DependencyResolver.can_start w task_id); [apply Hupdate|done].
  - rw /DependencyResolver.complete_if_ready.
    destruct (DependencyResolver.can_start w task_id); [apply Hupdate|done].
  - rw mark_in_progress_if_ready_shape. apply Hwrite.
  - rw complete_task_shape. apply Hwrite.
  - apply Hupdate.
Qed.

Lemma apply_operations_notified (ops : list operation) (w : world) :
  ∃ new,
    notified (apply_operations notifier ops w) = notified w ++ new
    ∧ Forall (real_change (session w)) new
    ∧ (commits w + length new ≤ commits (apply_operations notifier ops w))%nat.
Proof.
  revert w. induction ops as [|op ops IH]; intros w.
  { exists []. rw /= app_nil_r. split_and!; [done|constructor|simpl; lia]. }
  rw apply_operations_cons.
  destruct (apply_operation_notified op w) as (new1 & Hn1 & Hreal1 & Hc1).
  destruct (IH (apply_operation notifier op w)) as (new2 & Hn2 & Hreal2 & Hc2).
  exists (new1 ++ new2). split_and!.
  - by rw Hn2 Hn1 -assoc.
  - apply Forall_app. split; [done|].
    eapply Forall_impl; [exact Hreal2|]. intros c [Hne Hin]. split; [done|].
    pose proof (apply_operations_rows notifier [op] w (change_task_id c))
      as [Hrow _].
    destruct (session w !! change_task_id c); [done|].
    simpl in Hrow. rw Hrow in Hin. by destruct Hin.
  - rw length_app. lia.
Qed.
End Notified.

(** X28. Nothing is notified that did not happen: whatever a sequence of
    operations adds to the notifications, each notification records a
    status that changed (old and new status differ) of a task of the store,
    and there are at most as many of them as there were commits; the
    notifications that were there before stay in front, unchanged. *)
Theorem notifications_record_changes
    (notifier : list status_change → status_change → bool)
    (ops : list operation) (w : world) :
  ∃ new,
    notified (apply_operations notifier ops w) = notified w ++ new
    ∧ Forall (real_change (session w)) new
    ∧ (commits w + length new ≤ commits (apply_operations notifier ops w))%nat.
Proof. apply apply_operations_notified. Qed.

Lemma done_x_depends_on_y :
  "Y" ∈ TestTask.dependencies (set_status scenario_x TaskStatus.DONE).
Proof. by apply (bool_decide_unpack _). Defined.

Lemma deleted_dependency_blocks_witness :
  session done_world !! "X" = Some (set_status scenario_x TaskStatus.DONE)
  ∧ "Y" ∈ TestTask.dependencies (set_status scenario_x TaskStatus.DONE)
  ∧ "Y" ≠ "X"
  ∧ Forall gated [StartIfReady "X"; CompleteTask "X"]
  ∧ ((TestTaskDAL.delete_task (session done_world) "Y").1 = 1
     ↔ is_Some (session done_world !! "Y"))
  ∧ ((TestTaskDAL.delete_task (session done_world) "Y").1 = 0
     ↔ session done_world !! "Y" = None)
  ∧ DependencyResolver.can_start (after_delete done_world "Y") "X" = false
  ∧ session (apply_operations (λ _ _, true)
               [StartIfReady "X"; CompleteTask "X"]
               (after_delete done_world "Y")) !! "X"
    = Some (set_status scenario_x TaskStatus.DONE).
Proof.
  assert ("Y" ≠ "X") as Hne by done.
  assert (Forall gated [StartIfReady "X"; CompleteTask "X"]) as Hops
    by (repeat constructor).
  split; [exact done_x_in_store|]. split; [exact done_x_depends_on_y|].
  split; [exact Hne|]. split; [exact Hops|].
  exact (deleted_dependency_blocks (λ _ _, true) _ done_world "X" "Y" _
           done_x_in_store done_x_depends_on_y Hne Hops).
Defined.
